(** * DealMate heuristic engines: the stack optimizer and the fraud engine

    A shallow embedding of the algorithmic utilities of the DealMate web
    UI, followed by the properties stated about them:

    - the StackSmart optimizer (class [StackOptimizer]): branch and bound
      over deal combinations, with a wall-clock limit and a memo cache;
    - the fraud engine (class [FraudDetectionEngine]) with its [MinHeap]
      and [Trie];
    - what is built on the optimizer: the utility functions
      [findBestCouponStack] and [combineWithCashback], and the action
      [optimizeStack] of the store, with the data cache of the lazy loader
      (class [DataCache]) that it consults.

    Modelling conventions.
    - A JavaScript [number] is a rational ([Q]): rounding, NaN and the
      infinities are not represented.  The source divides by data in two
      places (the original price of a deal, the median of a price history);
      statements that depend on such a quotient require the divisor to be
      non-zero.  Lengths and indices are [nat], clock readings are [Z]
      (milliseconds).
    - The price check of the fraud engine compares a quotient with a
      threshold, so that its verdict depends on the rounding; it is embedded
      a second time over IEEE 754 binary64 (module [Binary64]).
    - A JavaScript string is the list of its UTF-16 code units.
    - A template literal is kept as the list of its pieces ([text]): the
      program never inspects such a string, it only returns it.
    - [Date.now()] is an input: a single reading where the code reads the
      clock once, a sequence of readings ([nat -> Z]) where it polls. *)

From Stdlib Require Import Ascii String QArith Qminmax Qabs Lqa Lia.
From Stdlib Require DecimalString Floats.
From stdpp Require Import base option list gmap strings sorting.

Set Warnings "-register-all".
Set Warnings "-inexact-float".

(** ** Numbers *)

Definition Qltb (a b : Q) : bool := negb (Qle_bool b a).

(** [length] of an array, as a number. *)
Definition Qlen {A} (l : list A) : Q := inject_Z (Z.of_nat (length l)).

(** A number in a boolean position: [undefined] and [0] are falsy. *)
Definition truthy (o : option Q) : option Q :=
  match o with
  | Some q => if Qeq_bool q 0 then None else Some q
  | None => None
  end.

(** ** Strings *)

(** UTF-16 code units. *)
Definition jsstring : Type := list N.

Definition js (s : string) : jsstring :=
  (fun a => N_of_ascii a) <$> list_ascii_of_string s.

(** The pieces of a template literal: literal text, an interpolated string,
    an interpolated number, and [n.toFixed(d)]. *)
Inductive piece : Type :=
  | Lit (s : string)
  | Str (s : jsstring)
  | Num (q : Q)
  | Fixed (q : Q) (digits : nat).

Definition text : Type := list piece.

Definition str_eqb (a b : jsstring) : bool := bool_decide (a = b).

(** Code-unit order, the order of [Array.prototype.sort] without a
    comparator on strings. *)
Fixpoint str_ltb (a b : jsstring) : bool :=
  match a, b with
  | _, [] => false
  | [], _ :: _ => true
  | x :: a', y :: b' =>
      if (x <? y)%N then true
      else if (y <? x)%N then false
      else str_ltb a' b'
  end.

(** A stable sort, given "strictly before": the one result a stable sort can
    have when the comparison is a consistent ordering. *)
Section StableSort.
Context {A : Type} (before : A -> A -> bool).

Fixpoint sort_insert (x : A) (l : list A) : list A :=
  match l with
  | [] => [x]
  | y :: l' => if before y x then y :: sort_insert x l' else x :: y :: l'
  end.

Definition stable_sort (l : list A) : list A := foldr sort_insert [] l.
End StableSort.

(** [ids.sort()] and [parts.join(sep)]. *)
Definition sort_strings (l : list jsstring) : list jsstring :=
  stable_sort str_ltb l.

Fixpoint join (sep : jsstring) (l : list jsstring) : jsstring :=
  match l with
  | [] => []
  | [s] => s
  | s :: l' => s ++ sep ++ join sep l'
  end.

(** * The StackSmart optimization engine *)

Module StackOptimizer.

Inductive DealType := coupon | cashback | points | discount | gift_card.

Definition DealType_eqb (a b : DealType) : bool :=
  match a, b with
  | coupon, coupon | cashback, cashback | points, points
  | discount, discount | gift_card, gift_card => true
  | _, _ => false
  end.

Definition type_name (t : DealType) : string :=
  match t with
  | coupon => "coupon"
  | cashback => "cashback"
  | points => "points"
  | discount => "discount"
  | gift_card => "gift-card"
  end.

Inductive ValueType := percentage | fixed.

Record Deal := mkDeal {
  id : jsstring;
  type : DealType;
  code : option jsstring;
  value : Q;
  valueType : ValueType;
  minPurchase : option Q;
  maxDiscount : option Q;
  category : option (list jsstring);
  excludes : option (list jsstring);
  stackable : bool;
  stacksWith : option (list DealType);  (* Deal types it can stack with *)
  priority : Q;                         (* Higher priority applied first *)
  expiresAt : option jsstring
}.

Record StackBreakdown := mkStackBreakdown {
  dealId : jsstring;
  dealName : text;
  savings : Q;
  priceAfter : Q;
  applied : bool;
  reason : option string
}.

Inductive StackResult := mkStackResult {
  deals : list Deal;
  totalSavings : Q;
  finalPrice : Q;
  breakdown : list StackBreakdown;
  warnings : option (list string);
  alternativeStacks : option (list StackResult)
}.

(** A property of an [OptimizationConstraints] object with its value. *)
Inductive Constraint :=
  | MaxDeals (n : Q)
  | PreferredTypes (types : list DealType)
  | ExcludeTypes (types : list DealType)
  | MinSavings (n : Q)
  | TimeLimit (n : Q).  (* milliseconds *)

(** A constraints object: the properties it has a value for, in the order
    in which they were written on the object, which is the order in which
    [JSON.stringify] lists them.  A property is on an object once. *)
Definition OptimizationConstraints : Type := list Constraint.

(** [constraints.p]: the value of the property that [read] selects, when
    the object has it. *)
Fixpoint property {A} (read : Constraint -> option A)
  (constraints : OptimizationConstraints) : option A :=
  match constraints with
  | [] => None
  | p :: constraints' =>
      match read p with
      | Some v => Some v
      | None => property read constraints'
      end
  end.

Definition maxDeals : OptimizationConstraints -> option Q :=
  property (fun p => match p with MaxDeals n => Some n | _ => None end).

Definition preferredTypes : OptimizationConstraints -> option (list DealType) :=
  property (fun p => match p with PreferredTypes l => Some l | _ => None end).

Definition excludeTypes : OptimizationConstraints -> option (list DealType) :=
  property (fun p => match p with ExcludeTypes l => Some l | _ => None end).

Definition minSavings : OptimizationConstraints -> option Q :=
  property (fun p => match p with MinSavings n => Some n | _ => None end).

Definition timeLimit : OptimizationConstraints -> option Q :=
  property (fun p => match p with TimeLimit n => Some n | _ => None end).

(** [constraints = {}] *)
Definition no_constraints : OptimizationConstraints := [].

Definition includes (l : list DealType) (t : DealType) : bool :=
  existsb (DealType_eqb t) l.

(** Check if same type deals can stack *)
Definition canStackSameType (t : DealType) : bool :=
  includes [cashback; points] t.

(** Apply a deal to the current price *)
Definition applyDeal (currentPrice : Q) (deal : Deal) (basePrice : Q) : Q :=
  let belowMinimum :=
    match truthy (minPurchase deal) with
    | Some m => Qltb currentPrice m
    | None => false
    end in
  if belowMinimum then currentPrice
  else
    let discount :=
      match valueType deal with
      | percentage =>
          (* Percentage discounts apply to current price *)
          let discount := (currentPrice * (value deal / 100))%Q in
          match truthy (maxDiscount deal) with
          | Some m => Qmin discount m
          | None => discount
          end
      | fixed => value deal
      end in
    Qmax 0 (currentPrice - discount).

(** Calculate the value of a deal *)
Definition calculateDealValue (currentPrice : Q) (deal : Deal) (basePrice : Q) : Q :=
  let newPrice := applyDeal currentPrice deal basePrice in
  (currentPrice - newPrice)%Q.

(** Calculate upper bound for remaining savings: the loop over
    [deals[startIndex..]], with its [break]. *)
Fixpoint boundLoop (rest : list Deal) (bound price currentPrice : Q) : Q :=
  match rest with
  | [] => bound
  | deal :: rest' =>
      let potential := calculateDealValue price deal currentPrice in
      let bound := (bound + potential)%Q in
      let price := (price - potential)%Q in
      if Qle_bool price 0 then bound
      else boundLoop rest' bound price currentPrice
  end.

Definition calculateBound (currentPrice : Q) (deals : list Deal) (startIndex : nat) : Q :=
  boundLoop (drop startIndex deals) 0 currentPrice currentPrice.

(** Check if a deal can be stacked with existing deals *)
Definition canStackDeal (deal : Deal) (existingDeals : list Deal) : bool :=
  if negb (stackable deal) && (0 <? length existingDeals) then false
  else
    forallb (fun existing =>
      if negb (stackable existing) then false
      (* Check specific stacking rules *)
      else if match stacksWith existing with
              | Some l => negb (includes l (type deal))
              | None => false
              end then false
      else if match stacksWith deal with
              | Some l => negb (includes l (type existing))
              | None => false
              end then false
      (* Don't stack same type unless explicitly allowed *)
      else if DealType_eqb (type existing) (type deal)
              && negb (canStackSameType (type deal)) then false
      else true) existingDeals.

(** Generate breakdown of how deals were applied *)
Fixpoint breakdownLoop (basePrice : Q) (ds : list Deal) (currentPrice : Q)
  : list StackBreakdown :=
  match ds with
  | [] => []
  | deal :: ds' =>
      let newPrice := applyDeal currentPrice deal basePrice in
      let savings := (currentPrice - newPrice)%Q in
      {| dealId := id deal;
         dealName :=
           match code deal with
           | Some (u :: c) => [Str (u :: c)]
           | _ => [Lit (type_name (type deal)); Lit " - "; Num (value deal);
                   Lit (match valueType deal with percentage => "%" | fixed => "" end)]
           end;
         savings := savings;
         priceAfter := newPrice;
         applied := Qltb 0 savings;
         reason := if Qeq_bool savings 0
                   then Some "Minimum purchase not met or no additional savings"%string
                   else None |}
      :: breakdownLoop basePrice ds' newPrice
  end.

Definition generateBreakdown (basePrice : Q) (ds : list Deal) : list StackBreakdown :=
  breakdownLoop basePrice ds basePrice.

(** ** Branch and bound *)

(** [result.warnings = w] and [result.alternativeStacks = alts]. *)
Definition setWarnings (result : StackResult) (w : list string) : StackResult :=
  {| deals := deals result; totalSavings := totalSavings result;
     finalPrice := finalPrice result; breakdown := breakdown result;
     warnings := Some w; alternativeStacks := alternativeStacks result |}.

Definition setAlternativeStacks (result : StackResult) (alts : list StackResult)
  : StackResult :=
  {| deals := deals result; totalSavings := totalSavings result;
     finalPrice := finalPrice result; breakdown := breakdown result;
     warnings := warnings result; alternativeStacks := Some alts |}.

Record Node := mkNode {
  index : nat;
  currentDeals : list Deal;
  currentPrice : Q;
  bound : Q
}.

Section BranchAndBound.
Variables (basePrice : Q) (deals : list Deal) (maxDeals : Q).
Variables (startTime : Z) (timeLimit : Q).
(** [clock k] is what the [k]-th call of [Date.now()] returns. *)
Variable clock : nat -> Z.

(** [Date.now() - startTime < timeLimit], at reading [tick]. *)
Definition inTime (tick : nat) : bool :=
  Qltb (inject_Z (clock tick - startTime)) timeLimit.

(** The body of the [while] loop for the node popped: the nodes it
    pushes, in push order, and the best result after it. *)
Definition visit (node : Node) (bestResult : StackResult)
  : list Node * StackResult :=
  (* Prune if bound is worse than current best *)
  if Qle_bool (bound node) (totalSavings bestResult) then ([], bestResult)
  else
    (* Try including current deal *)
    let included :=
      if (index node <? length deals)
         && Qltb (Qlen (currentDeals node)) maxDeals then
        match deals !! index node with
        | Some deal =>
            if canStackDeal deal (currentDeals node) then
              let newPrice := applyDeal (currentPrice node) deal basePrice in
              let newDeals := currentDeals node ++ [deal] in
              let savings := (basePrice - newPrice)%Q in
              (* Update best if better *)
              let best :=
                if Qltb (totalSavings bestResult) savings then
                  mkStackResult newDeals savings newPrice
                    (generateBreakdown basePrice newDeals) None None
                else bestResult in
              (* Add to stack for further exploration *)
              (if index node + 1 <? length deals then
                 [ {| index := index node + 1;
                      currentDeals := newDeals;
                      currentPrice := newPrice;
                      bound := calculateBound newPrice deals (index node + 1) |} ]
               else [],
               best)
            else ([], bestResult)
        | None => ([], bestResult)
        end
      else ([], bestResult) in
    (* Try not including current deal *)
    let excluded :=
      if index node + 1 <? length deals then
        [ {| index := index node + 1;
             currentDeals := currentDeals node;
             currentPrice := currentPrice node;
             bound := bound node |} ]
      else [] in
    (included.1 ++ excluded, included.2).

(** The [while] loop.  The stack has its top at the head.  The clock is
    read once per test with a non-empty stack ([&&] short-circuits).
    [None]: the fuel ran out (it never does, see [branchAndBound_total]). *)
Fixpoint bbLoop (fuel : nat) (stack : list Node) (bestResult : StackResult)
  (tick : nat) : option (StackResult * nat) :=
  match stack with
  | [] => Some (bestResult, tick)
  | node :: rest =>
      if inTime tick then
        match fuel with
        | O => None
        | S fuel' =>
            let '(pushed, best) := visit node bestResult in
            bbLoop fuel' (rev pushed ++ rest) best (S tick)
        end
      else Some (bestResult, S tick)
  end.

Definition bbFuel : nat := 2 ^ S (length deals).

Definition branchAndBound (tick : nat) : option (StackResult * nat) :=
  let bestResult :=
    mkStackResult [] 0 basePrice [] None None in
  let stack :=
    [ {| index := 0; currentDeals := []; currentPrice := basePrice;
         bound := calculateBound basePrice deals 0 |} ] in
  match bbLoop bbFuel stack bestResult tick with
  | Some (best, tick) =>
      (* Add warnings if time limit reached *)
      let best :=
        if inTime tick then best
        else
          setWarnings best
            ["Optimization time limit reached. Result may not be optimal."%string] in
      Some (best, S tick)
  | None => None
  end.
End BranchAndBound.

(** ** The public entry point *)

(** Sort deals by priority and potential value: the comparator of
    [deals.sort], as "[a] goes strictly before [b]" (its value is negative). *)
Definition sortCompare (basePrice : Q) (a b : Deal) : Q :=
  (* First by priority *)
  if negb (Qeq_bool (priority a) (priority b)) then (priority b - priority a)%Q
  else
    (* Then by potential value *)
    let aValue := calculateDealValue basePrice a basePrice in
    let bValue := calculateDealValue basePrice b basePrice in
    (bValue - aValue)%Q.

Definition sortDeals (deals : list Deal) (basePrice : Q) : list Deal :=
  stable_sort (fun a b => Qltb (sortCompare basePrice a b) 0) deals.

(** [xs?.length] in a boolean position. *)
Definition nonEmpty {A} (o : option (list A)) : option (list A) :=
  match o with
  | Some (x :: l) => Some (x :: l)
  | _ => None
  end.

(** Apply user constraints to filter deals *)
Definition applyConstraints (deals : list Deal) (constraints : OptimizationConstraints)
  : list Deal :=
  let filtered := deals in
  let filtered :=
    match nonEmpty (preferredTypes constraints) with
    | Some l => List.filter (fun d => includes l (type d)) filtered
    | None => filtered
    end in
  let filtered :=
    match nonEmpty (excludeTypes constraints) with
    | Some l => List.filter (fun d => negb (includes l (type d))) filtered
    | None => filtered
    end in
  filtered.

(** The cache key [`${basePrice}-${dealIds}-${constraintKey}`], kept as its
    three interpolated parts.  Two such strings are equal exactly when their
    parts are: no rendering of a number followed by [-] begins the rendering
    of another number, and no [JSON.stringify] of a constraints object ends
    another one after a [-].  Equal numbers are rendered alike.
    [JSON.stringify(constraints)] lists the properties of the object with
    their values in the order in which they were written, so two constraints
    objects are rendered alike when they hold the same properties with the
    same values in the same order: the part is the object itself, compared
    property by property in that order. *)
Record CacheKey := mkCacheKey {
  keyPrice : Q;
  keyDealIds : jsstring;
  keyConstraints : OptimizationConstraints
}.

Definition getCacheKey (basePrice : Q) (deals : list Deal)
  (constraints : OptimizationConstraints) : CacheKey :=
  let dealIds := join (js ",") (sort_strings (id <$> deals)) in
  mkCacheKey basePrice dealIds constraints.

Fixpoint types_eqb (a b : list DealType) : bool :=
  match a, b with
  | [], [] => true
  | x :: a', y :: b' => DealType_eqb x y && types_eqb a' b'
  | _, _ => false
  end.

(** The same property with the same value. *)
Definition Constraint_eqb (a b : Constraint) : bool :=
  match a, b with
  | MaxDeals x, MaxDeals y => Qeq_bool x y
  | PreferredTypes x, PreferredTypes y => types_eqb x y
  | ExcludeTypes x, ExcludeTypes y => types_eqb x y
  | MinSavings x, MinSavings y => Qeq_bool x y
  | TimeLimit x, TimeLimit y => Qeq_bool x y
  | _, _ => false
  end.

(** [JSON.stringify(a) === JSON.stringify(b)] *)
Fixpoint constraints_eqb (a b : OptimizationConstraints) : bool :=
  match a, b with
  | [], [] => true
  | p :: a', q :: b' => Constraint_eqb p q && constraints_eqb a' b'
  | _, _ => false
  end.

Definition key_eqb (a b : CacheKey) : bool :=
  Qeq_bool (keyPrice a) (keyPrice b)
  && str_eqb (keyDealIds a) (keyDealIds b)
  && constraints_eqb (keyConstraints a) (keyConstraints b).

(** Generate combination key for tracking unique combinations *)
Definition getDealComboKey (deals : list Deal) : jsstring :=
  join (js "-") (sort_strings (id <$> deals)).

(** [memoCache: Map<string, StackResult>], most recent entry first. *)
Definition MemoCache : Type := list (CacheKey * StackResult).

Definition memoGet (key : CacheKey) (memo : MemoCache) : option StackResult :=
  snd <$> List.find (fun e => key_eqb key e.1) memo.

Definition memoSet (key : CacheKey) (result : StackResult) (memo : MemoCache)
  : MemoCache :=
  (key, result) :: List.filter (fun e => negb (key_eqb key e.1)) memo.

Section Optimize.
Variable clock : nat -> Z.

(** Find alternative stacking combinations: the [for] loop with its
    [break], over the start indices still to try. *)
Fixpoint alternativesLoop (basePrice : Q) (deals : list Deal)
  (maxAlternatives : nat) (starts : list nat)
  (alternatives : list StackResult) (usedCombinations : list jsstring)
  (tick : nat) : option (list StackResult * nat) :=
  match starts with
  | [] => Some (alternatives, tick)
  | i :: starts' =>
      let reorderedDeals := drop i deals ++ take i deals in
      match branchAndBound basePrice reorderedDeals 5 (clock tick) 500 clock (S tick) with
      | None => None
      | Some (altResult, tick) =>
          let comboKey := getDealComboKey (StackOptimizer.deals altResult) in
          if negb (existsb (str_eqb comboKey) usedCombinations)
             && Qltb 0 (totalSavings altResult) then
            let alternatives := alternatives ++ [altResult] in
            let usedCombinations := comboKey :: usedCombinations in
            if maxAlternatives <=? length alternatives
            then Some (alternatives, tick)
            else alternativesLoop basePrice deals maxAlternatives starts'
                   alternatives usedCombinations tick
          else alternativesLoop basePrice deals maxAlternatives starts'
                 alternatives usedCombinations tick
      end
  end.

Definition findAlternatives (basePrice : Q) (deals : list Deal)
  (bestResult : StackResult) (maxAlternatives : nat) (tick : nat)
  : option (list StackResult * nat) :=
  let usedCombinations := [getDealComboKey (StackOptimizer.deals bestResult)] in
  match alternativesLoop basePrice deals maxAlternatives
          (seq 0 (Nat.min (length deals) 5)) [] usedCombinations tick with
  | Some (alternatives, tick) =>
      Some (stable_sort
              (fun a b => Qltb (totalSavings b - totalSavings a) 0) alternatives,
            tick)
  | None => None
  end.

(** What a call of [optimize] leaves behind: its result, the memo cache,
    and the caller's array, which [sortDeals] sorts in place. *)
Record Outcome := mkOutcome {
  result : StackResult;
  memoAfter : MemoCache;
  dealsAfter : list Deal
}.

(** Main optimization function *)
Definition optimize (memoCache : MemoCache) (basePrice : Q)
  (availableDeals : list Deal) (constraints : OptimizationConstraints)
  : option Outcome :=
  let cacheKey := getCacheKey basePrice availableDeals constraints in
  match memoGet cacheKey memoCache with
  | Some cached => Some (mkOutcome cached memoCache availableDeals)
  | None =>
      let startTime := clock 0 in
      let timeLimit := default 1000%Q (truthy (timeLimit constraints)) in
      (* Sort deals by priority and value *)
      let sortedDeals := sortDeals availableDeals basePrice in
      (* Filter based on constraints *)
      let filteredDeals := applyConstraints sortedDeals constraints in
      (* Use branch and bound for optimal combination *)
      match branchAndBound basePrice filteredDeals
              (default 5%Q (truthy (maxDeals constraints)))
              startTime timeLimit clock 1 with
      | None => None
      | Some (result, tick) =>
          (* Find alternative stacks *)
          let withAlternatives :=
            if Qltb 0 (totalSavings result) then
              match findAlternatives basePrice filteredDeals result 3 tick with
              | Some (alts, _) => Some (setAlternativeStacks result alts)
              | None => None
              end
            else Some result in
          match withAlternatives with
          | Some result =>
              Some (mkOutcome result (memoSet cacheKey result memoCache) sortedDeals)
          | None => None
          end
      end
  end.
End Optimize.

End StackOptimizer.

(** * The fraud detection engine *)

Module FraudDetectionEngine.

(** ** MinHeap implementation for tracking anomalies *)

Module MinHeap.
Section WithCompare.
Context {T : Type} (compareFn : T -> T -> Q).

(** [[heap[i], heap[j]] = [heap[j], heap[i]]]; both indices are in range
    wherever the class swaps. *)
Definition swap (heap : list T) (i j : nat) : list T :=
  match heap !! i, heap !! j with
  | Some a, Some b => <[i:=b]> (<[j:=a]> heap)
  | _, _ => heap
  end.

(** [heapifyUp]: the parent index [Math.floor((index - 1) / 2)] is [-1]
    for the root.  The index decreases at each call, so [index] calls
    are enough. *)
Fixpoint heapifyUpFrom (fuel : nat) (heap : list T) (index : nat) : list T :=
  match fuel, index with
  | S fuel', S i =>
      let parentIndex := i / 2 in
      match heap !! index, heap !! parentIndex with
      | Some x, Some parent =>
          if Qltb (compareFn x parent) 0
          then heapifyUpFrom fuel' (swap heap index parentIndex) parentIndex
          else heap
      | _, _ => heap
      end
  | _, _ => heap
  end.

Definition heapifyUp (heap : list T) (index : nat) : list T :=
  heapifyUpFrom index heap index.

Definition smallestOf (heap : list T) (index : nat) : nat :=
  let leftChild := 2 * index + 1 in
  let rightChild := 2 * index + 2 in
  let smallest := index in
  let smallest :=
    match heap !! leftChild, heap !! smallest with
    | Some l, Some s => if Qltb (compareFn l s) 0 then leftChild else smallest
    | _, _ => smallest
    end in
  let smallest :=
    match heap !! rightChild, heap !! smallest with
    | Some r, Some s => if Qltb (compareFn r s) 0 then rightChild else smallest
    | _, _ => smallest
    end in
  smallest.

(** [heapifyDown]: the index grows at each call and stays below the
    length, so [length heap] calls are enough. *)
Fixpoint heapifyDownFrom (fuel : nat) (heap : list T) (index : nat) : list T :=
  match fuel with
  | O => heap
  | S fuel' =>
      let smallest := smallestOf heap index in
      if bool_decide (smallest = index) then heap
      else heapifyDownFrom fuel' (swap heap index smallest) smallest
  end.

Definition heapifyDown (heap : list T) (index : nat) : list T :=
  heapifyDownFrom (length heap) heap index.

Definition insert (heap : list T) (value : T) : list T :=
  let heap := heap ++ [value] in
  heapifyUp heap (length heap - 1).

Definition extractMin (heap : list T) : option T * list T :=
  match heap with
  | [] => (None, heap)
  | [only] => (Some only, [])
  | min :: rest =>
      match last rest with
      | Some popped =>
          let heap := <[0:=popped]> (min :: removelast rest) in
          (Some min, heapifyDown heap 0)
      | None => (Some min, [])
      end
  end.

Definition peek (heap : list T) : option T := heap !! 0.

Definition size (heap : list T) : nat := length heap.
End WithCompare.
End MinHeap.

(** ** Trie implementation for phishing URL detection *)

Inductive TrieNode := mkTrieNode {
  children : list (jsstring * TrieNode);
  isEndOfPattern : bool
}.

Definition newTrieNode : TrieNode := mkTrieNode [] false.

(** [Map.get] and [Map.set] on the children of a node. *)
Fixpoint childGet (char : jsstring) (m : list (jsstring * TrieNode))
  : option TrieNode :=
  match m with
  | [] => None
  | (k, v) :: m' => if str_eqb k char then Some v else childGet char m'
  end.

Fixpoint childSet (char : jsstring) (node : TrieNode)
  (m : list (jsstring * TrieNode)) : list (jsstring * TrieNode) :=
  match m with
  | [] => [(char, node)]
  | (k, v) :: m' =>
      if str_eqb k char then (k, node) :: m' else (k, v) :: childSet char node m'
  end.

(** What [for (const char of pattern)] iterates over: the code points of the
    string, a surrogate pair being one two-unit string. *)
Definition isHighSurrogate (u : N) : bool := (0xD800 <=? u)%N && (u <=? 0xDBFF)%N.
Definition isLowSurrogate (u : N) : bool := (0xDC00 <=? u)%N && (u <=? 0xDFFF)%N.

Fixpoint codePoints (s : jsstring) : list jsstring :=
  match s with
  | [] => []
  | u :: rest =>
      match rest with
      | v :: rest' =>
          if isHighSurrogate u && isLowSurrogate v
          then [u; v] :: codePoints rest'
          else [u] :: codePoints rest
      | [] => [[u]]
      end
  end.

Module Trie.

(** [insert]: the walk from a node along the characters left, creating the
    missing children, and marking the last node. *)
Fixpoint insertFrom (chars : list jsstring) (current : TrieNode) : TrieNode :=
  match chars with
  | [] => mkTrieNode (children current) true
  | char :: chars' =>
      let child := default newTrieNode (childGet char (children current)) in
      mkTrieNode (childSet char (insertFrom chars' child) (children current))
        (isEndOfPattern current)
  end.

Definition insert (root : TrieNode) (pattern : jsstring) : TrieNode :=
  insertFrom (codePoints pattern) root.

(** [searchFromIndex]: the loop over [text[i]], one code unit at a time, for
    the units from [startIndex] on. *)
Fixpoint searchFrom (current : TrieNode) (units : jsstring) : bool :=
  match units with
  | [] => false
  | u :: units' =>
      match childGet [u] (children current) with
      | None => false
      | Some child =>
          if isEndOfPattern child then true else searchFrom child units'
      end
  end.

Definition searchFromIndex (root : TrieNode) (text : jsstring) (startIndex : nat)
  : bool :=
  searchFrom root (drop startIndex text).

Definition search (root : TrieNode) (text : jsstring) : bool :=
  existsb (searchFromIndex root text) (seq 0 (length text)).

End Trie.

(** ** Types *)

Record Deal := mkDeal {
  id : jsstring;
  title : jsstring;
  originalPrice : Q;
  discountedPrice : Q;
  category : jsstring;
  sellerId : jsstring;
  url : jsstring;
  timestamp : Z
}.

Record Seller := mkSeller {
  sellerIdOf : jsstring;   (* [id] *)
  name : jsstring;
  rating : Q;
  reviewCount : Q
}.

Record PricePoint := mkPricePoint {
  price : Q;
  recordedAt : Z           (* [timestamp] *)
}.

Record PriceHistory := mkPriceHistory {
  productId : jsstring;
  prices : list PricePoint
}.

Record FraudCheckResult := mkFraudCheckResult {
  isFraudulent : bool;
  fraudType : option string;
  confidence : Q;
  reason : option text
}.

Record Anomaly := mkAnomaly {
  dealId : jsstring;
  anomalyScore : Q
}.

(** ** The engine *)

(** [categoryThresholds] is an object literal, and [categoryThresholds[c]]
    an ordinary property read: it finds the five own properties, and, for
    the names below, what every object inherits from [Object.prototype]
    (functions, and the prototype object for [__proto__]). *)
Definition categoryThresholds : list (string * Q) :=
  [ ("electronics", 0.7); ("fashion", 0.9); ("home", 0.8); ("food", 0.6);
    ("default", 0.85) ]%string%Q.

Definition objectPrototype : list string :=
  [ "constructor"; "__proto__"; "hasOwnProperty"; "isPrototypeOf";
    "propertyIsEnumerable"; "toLocaleString"; "toString"; "valueOf";
    "__defineGetter__"; "__defineSetter__"; "__lookupGetter__";
    "__lookupSetter__" ]%string.

(** The value a property read gives: a number, a function or object, or
    [undefined]. *)
Inductive property :=
  | PNumber (q : Q)
  | PObject
  | PUndefined.

Fixpoint ownProperty (key : jsstring) (o : list (string * Q)) : option Q :=
  match o with
  | [] => None
  | (k, v) :: o' => if str_eqb (js k) key then Some v else ownProperty key o'
  end.

Definition getProperty (o : list (string * Q)) (key : jsstring) : property :=
  match ownProperty key o with
  | Some v => PNumber v
  | None =>
      if existsb (fun k => str_eqb (js k) key) objectPrototype
      then PObject else PUndefined
  end.

(** [a || b] on property values. *)
Definition orElse (a b : property) : property :=
  match a with
  | PNumber q => if Qeq_bool q 0 then b else a
  | PObject => a
  | PUndefined => b
  end.

(** [v * 100]: [None] is NaN, the product of a function or an object. *)
Definition times100 (v : property) : option Q :=
  match v with
  | PNumber q => Some (q * 100)%Q
  | _ => None
  end.

Record Engine := mkEngine {
  phishingTrie : TrieNode;
  userActivityCache : gmap jsstring (list Z);
  anomalyHeap : list Anomaly;
  sellerReputationCache : gmap jsstring Seller;
  priceHistoryCache : gmap jsstring PriceHistory
}.

(** [new MinHeap((a, b) => b.anomalyScore - a.anomalyScore)] *)
Definition anomalyCompare (a b : Anomaly) : Q :=
  (anomalyScore b - anomalyScore a)%Q.

Definition notFraudulent : FraudCheckResult :=
  mkFraudCheckResult false None 0 None.

(** Detect fake deals based on discount percentages: the results, and the
    anomaly heap after the call. *)
Fixpoint detectFakeDealsLoop (deals : list Deal) (heap : list Anomaly)
  : list FraudCheckResult * list Anomaly :=
  match deals with
  | [] => ([], heap)
  | deal :: deals' =>
      let discountPercentage :=
        ((originalPrice deal - discountedPrice deal) / originalPrice deal * 100)%Q in
      let threshold :=
        orElse (getProperty categoryThresholds (category deal))
               (getProperty categoryThresholds (js "default")) in
      match times100 threshold with
      | Some thresholdPercentage =>
          if Qltb thresholdPercentage discountPercentage then
            let anomalyScore := (discountPercentage - thresholdPercentage)%Q in
            let heap := MinHeap.insert anomalyCompare heap (mkAnomaly (id deal) anomalyScore) in
            let '(results, heap) := detectFakeDealsLoop deals' heap in
            (mkFraudCheckResult true (Some "fake_deal"%string)
               (Qmin (anomalyScore / 20) 0.95)
               (Some [Lit "Discount of "; Fixed discountPercentage 1;
                      Lit "% exceeds category threshold of ";
                      Num thresholdPercentage; Lit "%"])
             :: results, heap)
          else detectFakeDealsLoop deals' heap
      | None => detectFakeDealsLoop deals' heap
      end
  end.

Definition detectFakeDeals (engine : Engine) (deals : list Deal)
  : list FraudCheckResult * Engine :=
  let '(results, heap) := detectFakeDealsLoop deals (anomalyHeap engine) in
  (results,
   mkEngine (phishingTrie engine) (userActivityCache engine) heap
     (sellerReputationCache engine) (priceHistoryCache engine)).

(** Detect counterfeit products based on seller reputation *)
Definition RATING_THRESHOLD : Q := 3.5.
Definition REVIEW_COUNT_THRESHOLD : Q := 50.

Fixpoint detectCounterfeitProducts (engine : Engine) (sellerIds : list jsstring)
  : list FraudCheckResult :=
  match sellerIds with
  | [] => []
  | sellerId :: sellerIds' =>
      match sellerReputationCache engine !! sellerId with
      | None => detectCounterfeitProducts engine sellerIds'
      | Some seller =>
          if Qltb (rating seller) RATING_THRESHOLD
             || Qltb (reviewCount seller) REVIEW_COUNT_THRESHOLD then
            mkFraudCheckResult true (Some "counterfeit_product"%string)
              (if Qltb (rating seller) 2.5 then 0.9 else 0.7)
              (Some [Lit "Seller has low rating ("; Num (rating seller);
                     Lit "/5) or insufficient reviews ("; Num (reviewCount seller);
                     Lit ")"])
            :: detectCounterfeitProducts engine sellerIds'
          else detectCounterfeitProducts engine sellerIds'
      end
  end.

(** Median of the numbers; it is only called on three numbers or more. *)
Definition calculateMedian (numbers : list Q) : Q :=
  let sorted := stable_sort (fun a b => Qltb (a - b) 0) numbers in
  let mid := length sorted / 2 in
  if length sorted mod 2 =? 0
  then ((nth (mid - 1) sorted 0 + nth mid sorted 0) / 2)%Q
  else nth mid sorted 0%Q.

(** Detect price manipulation through historical analysis *)
Definition DEVIATION_THRESHOLD : Q := 0.3.

Definition detectPriceManipulation (engine : Engine) (productId : jsstring)
  (currentPrice : Q) : FraudCheckResult :=
  match priceHistoryCache engine !! productId with
  | None => notFraudulent
  | Some history =>
      if length (prices history) <? 3 then notFraudulent
      else
        let prices := price <$> prices history in
        let medianPrice := calculateMedian prices in
        let deviation := (Qabs (currentPrice - medianPrice) / medianPrice)%Q in
        if Qltb DEVIATION_THRESHOLD deviation then
          mkFraudCheckResult true (Some "price_manipulation"%string)
            (Qmin (deviation * 2) 0.95)
            (Some [Lit "Price deviates "; Fixed (deviation * 100) 1;
                   Lit "% from historical median of â‚¹"; Fixed medianPrice 2])
        else notFraudulent
  end.

Section WithLowerCase.
(** [String.prototype.toLowerCase] *)
Variable toLowerCase : jsstring -> jsstring.

(** Detect phishing links using Trie pattern matching *)
Fixpoint detectPhishingLinks (engine : Engine) (urls : list jsstring)
  : list FraudCheckResult :=
  match urls with
  | [] => []
  | url :: urls' =>
      if Trie.search (phishingTrie engine) (toLowerCase url) then
        mkFraudCheckResult true (Some "phishing_link"%string) 0.95
          (Some [Lit "URL matches known phishing patterns"])
        :: detectPhishingLinks engine urls'
      else detectPhishingLinks engine urls'
  end.

(** Main fraud detection method that runs all checks.  [sellerId] is
    optional; the empty string is falsy as well. *)
Definition detectFraud (engine : Engine) (deal : Deal) (sellerId : option jsstring)
  : list FraudCheckResult * Engine :=
  (* Check for fake deals *)
  let '(fakeDealsResult, engine) := detectFakeDeals engine [deal] in
  let results := fakeDealsResult in
  (* Check for counterfeit products *)
  let results :=
    match sellerId with
    | Some (u :: s) => results ++ detectCounterfeitProducts engine [u :: s]
    | _ => results
    end in
  (* Check for phishing links *)
  let results := results ++ detectPhishingLinks engine [url deal] in
  (* Check for price manipulation *)
  let priceManipulationResult :=
    detectPriceManipulation engine (id deal) (originalPrice deal) in
  let results :=
    if isFraudulent priceManipulationResult
    then results ++ [priceManipulationResult] else results in
  (results, engine).

(** Add phishing pattern *)
Definition addPhishingPattern (engine : Engine) (pattern : jsstring) : Engine :=
  mkEngine (Trie.insert (phishingTrie engine) (toLowerCase pattern))
    (userActivityCache engine) (anomalyHeap engine)
    (sellerReputationCache engine) (priceHistoryCache engine).
End WithLowerCase.

(** Detect suspicious user behavior (bots, rapid actions); [now] is the
    reading of [Date.now()]. *)
Definition detectSuspiciousUserBehavior (engine : Engine) (now : Z)
  (userId : jsstring) (action : jsstring) : FraudCheckResult * Engine :=
  let userTimestamps := default [] (userActivityCache engine !! userId) in
  (* Add current timestamp *)
  let userTimestamps := userTimestamps ++ [now] in
  (* Keep only recent timestamps (last 60 seconds) *)
  let recentTimestamps :=
    List.filter (fun ts => (now - ts <? 60000)%Z) userTimestamps in
  let engine :=
    mkEngine (phishingTrie engine)
      (<[userId:=recentTimestamps]> (userActivityCache engine))
      (anomalyHeap engine) (sellerReputationCache engine)
      (priceHistoryCache engine) in
  (* Check for rapid actions (more than 10 actions in 1 second) *)
  let oneSecondAgo := (now - 1000)%Z in
  let rapidActions :=
    length (List.filter (fun ts => (oneSecondAgo <? ts)%Z) recentTimestamps) in
  if 10 <? rapidActions then
    (mkFraudCheckResult true (Some "suspicious_behavior"%string)
       (Qmin (Qlen (List.filter (fun ts => (oneSecondAgo <? ts)%Z) recentTimestamps) / 15) 0.95)
       (Some [Lit "User performed "; Num (inject_Z (Z.of_nat rapidActions));
              Lit " actions in 1 second"]),
     engine)
  (* Check for sustained high activity (more than 100 actions per minute) *)
  else if 100 <? length recentTimestamps then
    (mkFraudCheckResult true (Some "bot_behavior"%string) 0.85
       (Some [Lit "User performed "; Num (Qlen recentTimestamps);
              Lit " actions in the last minute"]),
     engine)
  else (notFraudulent, engine).

(** Get top anomalies from the heap: the extraction loop, then the
    re-insertion of what was extracted. *)
Fixpoint extractLoop (count : nat) (heap : list Anomaly)
  : list Anomaly * list Anomaly :=
  match count with
  | O => ([], heap)
  | S count' =>
      if 0 <? MinHeap.size heap then
        match MinHeap.extractMin anomalyCompare heap with
        | (Some anomaly, heap) =>
            let '(anomalies, heap) := extractLoop count' heap in
            (anomaly :: anomalies, heap)
        | (None, heap) => extractLoop count' heap
        end
      else ([], heap)
  end.

Definition getTopAnomalies (engine : Engine) (count : nat)
  : list Anomaly * Engine :=
  let '(anomalies, heap) := extractLoop count (anomalyHeap engine) in
  (* Re-insert for future use *)
  let heap := foldl (MinHeap.insert anomalyCompare) heap anomalies in
  (anomalies,
   mkEngine (phishingTrie engine) (userActivityCache engine) heap
     (sellerReputationCache engine) (priceHistoryCache engine)).

(** Update seller reputation *)
Definition updateSellerReputation (engine : Engine) (seller : Seller) : Engine :=
  mkEngine (phishingTrie engine) (userActivityCache engine) (anomalyHeap engine)
    (<[sellerIdOf seller:=seller]> (sellerReputationCache engine))
    (priceHistoryCache engine).

(** Update price history; [now] and [later] are the two readings of the
    clock. *)
Definition updatePriceHistory (engine : Engine) (now later : Z)
  (productId : jsstring) (price : Q) : Engine :=
  let history :=
    default (mkPriceHistory productId []) (priceHistoryCache engine !! productId) in
  let prices := prices history ++ [mkPricePoint price now] in
  (* Keep only last 30 days of history *)
  let thirtyDaysAgo := (later - 30 * 86400000)%Z in
  let prices := List.filter (fun p => (thirtyDaysAgo <? recordedAt p)%Z) prices in
  mkEngine (phishingTrie engine) (userActivityCache engine) (anomalyHeap engine)
    (sellerReputationCache engine)
    (<[productId:=mkPriceHistory (FraudDetectionEngine.productId history) prices]>
       (priceHistoryCache engine)).

(** Clear user activity cache (for cleanup) *)
Definition clearUserActivityCache (engine : Engine) : Engine :=
  mkEngine (phishingTrie engine) ∅ (anomalyHeap engine)
    (sellerReputationCache engine) (priceHistoryCache engine).

(** The constructor: the known phishing patterns, the mock seller data and
    the mock price history; [clock k] is the [k]-th reading of the clock. *)
Definition phishingPatterns : list string :=
  [ "bit.ly/scam"; "tinyurl.com/fake"; "phishing-site.com";
    "amazom.com"; "amaz0n.com"; "flipkrt.com"; "paypal-secure.fake";
    "banking-login.phish"; "free-iphone-winner"; "click-here-now.suspicious";
    "urgent-action-required"; "verify-account.scam" ]%string.

Definition sellers : list Seller :=
  [ mkSeller (js "seller1") (js "TechStore Pro") 4.8 1250;
    mkSeller (js "seller2") (js "FashionHub") 4.5 890;
    mkSeller (js "seller3") (js "SuspiciousSeller") 2.1 12;
    mkSeller (js "seller4") (js "NewSeller") 3.2 25;
    mkSeller (js "seller5") (js "TrustedMart") 4.9 5420 ]%Q.

Definition histories (clock : nat -> Z) : list PriceHistory :=
  [ mkPriceHistory (js "product1")
      [ mkPricePoint 1000 (clock 0%nat - 86400000 * 7);
        mkPricePoint 1050 (clock 1%nat - 86400000 * 5);
        mkPricePoint 980 (clock 2%nat - 86400000 * 3);
        mkPricePoint 1020 (clock 3%nat - 86400000) ];
    mkPriceHistory (js "product2")
      [ mkPricePoint 500 (clock 4%nat - 86400000 * 10);
        mkPricePoint 520 (clock 5%nat - 86400000 * 7);
        mkPricePoint 510 (clock 6%nat - 86400000 * 3);
        mkPricePoint 1500 (clock 7%nat) ] ]%Z.

Definition newEngine (clock : nat -> Z) : Engine :=
  mkEngine
    (foldl (fun trie pattern => Trie.insert trie (js pattern)) newTrieNode
       phishingPatterns)
    ∅
    []
    (foldl (fun cache seller => <[sellerIdOf seller:=seller]> cache) ∅ sellers)
    (foldl (fun cache history => <[productId history:=history]> cache) ∅
       (histories clock)).

End FraudDetectionEngine.

(** * The price check in double precision

    The verdict of [detectPriceManipulation] hangs on the comparison of a
    quotient with a threshold: it depends on how the quotient is rounded and
    on what a division by a zero median gives.  The check and
    [calculateMedian] are embedded here once more over the numbers of the
    code, IEEE 754 binary64 with rounding to the nearest, which the
    primitive floats are.  A decimal literal stands for the nearest binary64
    number, as in the source. *)

Module Binary64.
Import PrimFloat.

(** The pieces of the template literal of the reason. *)
Inductive piece : Type :=
  | Lit (s : string)
  | Fixed (x : float) (digits : nat).

Record PricePoint := mkPricePoint {
  price : float;
  recordedAt : Z           (* [timestamp] *)
}.

Record PriceHistory := mkPriceHistory {
  productId : jsstring;
  prices : list PricePoint
}.

Record FraudCheckResult := mkFraudCheckResult {
  isFraudulent : bool;
  fraudType : option string;
  confidence : float;
  reason : option (list piece)
}.

(** [Math.min(a, b)]: NaN if one of the two is, and [-0] below [+0]. *)
Definition Math_min (a b : float) : float :=
  if is_nan a || is_nan b then nan
  else if (a <? b)%float then a
  else if (b <? a)%float then b
  else if is_zero a && get_sign a then a
  else b.

Definition notFraudulent : FraudCheckResult :=
  mkFraudCheckResult false None 0 None.

Definition DEVIATION_THRESHOLD : float := 0.3.

Section WithSort.
(** [Array.prototype.sort] with a comparator, on a copy of the array.
    ECMAScript fixes its result when the comparator is a consistent
    ordering of the elements, as [(a, b) => a - b] is for numbers other than
    NaN ([sortStable] below); what it returns with a NaN among them is left
    to the implementation. *)
Variable sort : (float -> float -> float) -> list float -> list float.

(** Median of the numbers; it is only called on three numbers or more. *)
Definition calculateMedian (numbers : list float) : float :=
  let sorted := sort (fun a b => (a - b)%float) numbers in
  let mid := length sorted / 2 in
  if length sorted mod 2 =? 0
  then ((nth (mid - 1) sorted 0 + nth mid sorted 0) / 2)%float
  else nth mid sorted 0%float.

(** Detect price manipulation through historical analysis; of the engine it
    reads [priceHistoryCache] only. *)
Definition detectPriceManipulation
  (priceHistoryCache : gmap jsstring PriceHistory) (productId : jsstring)
  (currentPrice : float) : FraudCheckResult :=
  match priceHistoryCache !! productId with
  | None => notFraudulent
  | Some history =>
      if length (prices history) <? 3 then notFraudulent
      else
        let prices := price <$> prices history in
        let medianPrice := calculateMedian prices in
        let deviation := (abs (currentPrice - medianPrice) / medianPrice)%float in
        if (DEVIATION_THRESHOLD <? deviation)%float then
          mkFraudCheckResult true (Some "price_manipulation"%string)
            (Math_min (deviation * 2) 0.95)
            (Some [Lit "Price deviates "; Fixed (deviation * 100) 1;
                   Lit "% from historical median of â‚¹"; Fixed medianPrice 2])
        else notFraudulent
  end.
End WithSort.

(** The array that [sort] returns for a comparator that is a consistent
    ordering: [a] goes before [b] when [compareFn(a, b) < 0], and elements
    that neither goes before the other keep their order. *)
Definition sortStable (compareFn : float -> float -> float) (l : list float)
  : list float :=
  stable_sort (fun a b => (compareFn a b <? 0)%float) l.

End Binary64.

(** * The data cache of the lazy loader *)

Module DataCache.

Section WithData.
Variable T : Type.

(** [{ data, timestamp }] *)
Record Entry := mkEntry {
  data : T;
  timestamp : Z
}.

(** [Map.get], [Map.set] and [Map.delete] on a [Map<string, Entry>]: the
    entries in insertion order, [Map.set] on a key of the map keeping the
    place of the key. *)
Fixpoint mapGet (key : jsstring) (m : list (jsstring * Entry)) : option Entry :=
  match m with
  | [] => None
  | (k, e) :: m' => if str_eqb k key then Some e else mapGet key m'
  end.

Fixpoint mapSet (key : jsstring) (entry : Entry) (m : list (jsstring * Entry))
  : list (jsstring * Entry) :=
  match m with
  | [] => [(key, entry)]
  | (k, e) :: m' =>
      if str_eqb k key then (k, entry) :: m' else (k, e) :: mapSet key entry m'
  end.

Fixpoint mapDelete (key : jsstring) (m : list (jsstring * Entry))
  : list (jsstring * Entry) :=
  match m with
  | [] => []
  | (k, e) :: m' => if str_eqb k key then m' else (k, e) :: mapDelete key m'
  end.

Record t := mk {
  cache : list (jsstring * Entry);
  maxSize : Q;
  ttl : Q
}.

(** [constructor(maxSize = 100, ttl = 5 * 60 * 1000)] *)
Definition new (maxSize ttl : option Q) : t :=
  mk [] (default 100%Q maxSize) (default (5 * 60 * 1000)%Q ttl).

(** [set]; [now] is the reading of [Date.now()]. *)
Definition set (c : t) (now : Z) (key : jsstring) (data : T) : t :=
  (* Evict oldest if at capacity *)
  let entries :=
    if Qle_bool (maxSize c) (Qlen (cache c)) then
      match stable_sort
              (fun a b => (timestamp a.2 - timestamp b.2 <? 0)%Z) (cache c) with
      | oldest :: _ => mapDelete oldest.1 (cache c)
      | [] => cache c
      end
    else cache c in
  mk (mapSet key (mkEntry data now) entries) (maxSize c) (ttl c).

(** [get]: the data or [null], and the cache after the call; the clock is
    read when the key has an entry. *)
Definition get (c : t) (now : Z) (key : jsstring) : option T * t :=
  match mapGet key (cache c) with
  | None => (None, c)
  | Some entry =>
      (* Check if expired *)
      if Qltb (ttl c) (inject_Z (now - timestamp entry)) then
        (None, mk (mapDelete key (cache c)) (maxSize c) (ttl c))
      else (Some (data entry), c)
  end.

Definition clear (c : t) : t := mk [] (maxSize c) (ttl c).

Definition size (c : t) : nat := length (cache c).
End WithData.

Arguments mkEntry {T}.
Arguments data {T}.
Arguments timestamp {T}.
Arguments mapGet {T}.
Arguments mapSet {T}.
Arguments mapDelete {T}.
Arguments mk {T}.
Arguments cache {T}.
Arguments maxSize {T}.
Arguments ttl {T}.
Arguments set {T}.
Arguments get {T}.
Arguments clear {T}.
Arguments size {T}.

End DataCache.

(** * The StackSmart store and the utility functions *)

Module StackSmart.

(** [`${index}`]: an array index in decimal. *)
Definition decimal (n : nat) : jsstring :=
  js (DecimalString.NilEmpty.string_of_uint (Nat.to_uint n)).

Record Coupon := mkCoupon {
  code : jsstring;
  discount : Q;
  type : StackOptimizer.ValueType
}.

Record CashbackOffer := mkCashbackOffer {
  bank : jsstring;
  percentage : Q;
  maxCashback : option Q
}.

Definition couponDeal (index : nat) (c : Coupon) : StackOptimizer.Deal :=
  {| StackOptimizer.id := js "coupon-" ++ decimal index;
     StackOptimizer.type := StackOptimizer.coupon;
     StackOptimizer.code := Some (code c);
     StackOptimizer.value := discount c;
     StackOptimizer.valueType := type c;
     StackOptimizer.minPurchase := None;
     StackOptimizer.maxDiscount := None;
     StackOptimizer.category := None;
     StackOptimizer.excludes := None;
     StackOptimizer.stackable := true;
     StackOptimizer.stacksWith := None;
     StackOptimizer.priority :=
       match type c with
       | StackOptimizer.percentage => 2
       | StackOptimizer.fixed => 1
       end;
     StackOptimizer.expiresAt := None |}.

Definition cashbackDeal (index : nat) (cb : CashbackOffer) : StackOptimizer.Deal :=
  {| StackOptimizer.id := js "cashback-" ++ decimal index;
     StackOptimizer.type := StackOptimizer.cashback;
     StackOptimizer.code := None;
     StackOptimizer.value := percentage cb;
     StackOptimizer.valueType := StackOptimizer.percentage;
     StackOptimizer.minPurchase := None;
     StackOptimizer.maxDiscount := maxCashback cb;
     StackOptimizer.category := None;
     StackOptimizer.excludes := None;
     StackOptimizer.stackable := true;
     StackOptimizer.stacksWith := None;
     StackOptimizer.priority := 3;
     StackOptimizer.expiresAt := None |}.

(** The two utility functions call the global optimizer instance, whose
    memo cache they read and write. *)
Definition findBestCouponStack (clock : nat -> Z)
  (memoCache : StackOptimizer.MemoCache) (basePrice : Q) (coupons : list Coupon)
  : option StackOptimizer.Outcome :=
  let deals := imap couponDeal coupons in
  StackOptimizer.optimize clock memoCache basePrice deals
    StackOptimizer.no_constraints.

Definition combineWithCashback (clock : nat -> Z)
  (memoCache : StackOptimizer.MemoCache) (stackResult : StackOptimizer.StackResult)
  (cashbackOffers : list CashbackOffer) : option StackOptimizer.Outcome :=
  let cashbackDeals := imap cashbackDeal cashbackOffers in
  let allDeals := StackOptimizer.deals stackResult ++ cashbackDeals in
  StackOptimizer.optimize clock memoCache
    (StackOptimizer.finalPrice stackResult) allDeals StackOptimizer.no_constraints.

Section Store.
(** The global data cache is shared with other modules, which keep data of
    their own in it, and the store can hold an [Error]. *)
Variables Other Error : Type.

Inductive Cached :=
  | CachedResult (result : StackOptimizer.StackResult)
  | CachedOther (data : Other).

Record Store := mkStore {
  optimizations : gmap jsstring Cached;
  loading : bool;
  error : option Error
}.

Definition newStore : Store := mkStore ∅ false None.

(** What the actions of the store read and write: the global data cache,
    the memo cache of the global optimizer, and the state of the store. *)
Record World := mkWorld {
  globalDataCache : DataCache.t Cached;
  memoCache : StackOptimizer.MemoCache;
  store : Store
}.

(** [optimizeStack]: what it returns, the world after the call and the
    caller's array; [now] and [later] are the readings of the clock by the
    data cache, [clock] the readings by the optimizer.  The cached value is
    an object, hence truthy. *)
Definition optimizeStack (w : World) (now : Z) (clock : nat -> Z) (later : Z)
  (productId : jsstring) (basePrice : Q) (availableDeals : list StackOptimizer.Deal)
  (constraints : option StackOptimizer.OptimizationConstraints)
  : option (Cached * World * list StackOptimizer.Deal) :=
  let key := js "stack-optimization-" ++ productId in
  (* Check cache first *)
  match DataCache.get (globalDataCache w) now key with
  | (Some cached, dataCache) =>
      Some (cached,
            mkWorld dataCache (memoCache w)
              (mkStore (<[productId:=cached]> (optimizations (store w)))
                 (loading (store w)) (error (store w))),
            availableDeals)
  | (None, dataCache) =>
      match StackOptimizer.optimize clock (memoCache w) basePrice availableDeals
              (default StackOptimizer.no_constraints constraints) with
      | Some out =>
          let result := CachedResult (StackOptimizer.result out) in
          (* Cache the result *)
          let dataCache := DataCache.set dataCache later key result in
          Some (result,
                mkWorld dataCache (StackOptimizer.memoAfter out)
                  (mkStore (<[productId:=result]> (optimizations (store w)))
                     false None),
                StackOptimizer.dealsAfter out)
      | None => None
      end
  end.

Definition clearOptimization (w : World) (productId : jsstring) : World :=
  mkWorld (globalDataCache w) (memoCache w)
    (mkStore (delete productId (optimizations (store w)))
       (loading (store w)) (error (store w))).

Definition clearAll (w : World) : World :=
  mkWorld (globalDataCache w) (memoCache w)
    (mkStore ∅ (loading (store w)) None).
End Store.

Arguments CachedResult {Other}.
Arguments CachedOther {Other}.
Arguments mkStore {Other Error}.
Arguments optimizations {Other Error}.
Arguments loading {Other Error}.
Arguments error {Other Error}.
Arguments newStore {Other Error}.
Arguments mkWorld {Other Error}.
Arguments globalDataCache {Other Error}.
Arguments memoCache {Other Error}.
Arguments store {Other Error}.
Arguments optimizeStack {Other Error}.
Arguments clearOptimization {Other Error}.
Arguments clearAll {Other Error}.

End StackSmart.

(** * Properties *)

(** ** Numbers and strings *)

(** A clock that stands still. *)
Definition frozenClock : nat -> Z := fun _ => 0%Z.

Lemma Qltb_lt (a b : Q) : Qltb a b = true <-> (a < b)%Q.
Proof.
  unfold Qltb. rewrite negb_true_iff. split.
  - intros H. apply Qnot_le_lt. intros Hle.
    apply Qle_bool_iff in Hle. congruence.
  - intros H. destruct (Qle_bool b a) eqn:E; [|reflexivity].
    apply Qle_bool_iff in E. exfalso. exact (Qlt_not_le _ _ H E).
Qed.

Lemma Qltb_ge (a b : Q) : Qltb a b = false <-> (b <= a)%Q.
Proof.
  unfold Qltb. rewrite negb_false_iff. apply Qle_bool_iff.
Qed.


(** The stable sort rearranges its input, and sorts it when "before" is
    asymmetric. *)
Section StableSortFacts.
Context {A : Type} (before : A -> A -> bool).

Lemma sort_insert_perm (x : A) (l : list A) : sort_insert before x l ≡ₚ x :: l.
Proof.
  induction l as [|y l IH]; simpl; [reflexivity|].
  destruct (before y x); [|reflexivity].
  rewrite IH. apply Permutation_swap.
Qed.

Lemma stable_sort_perm (l : list A) : stable_sort before l ≡ₚ l.
Proof.
  induction l as [|x l IH]; simpl; [reflexivity|].
  rewrite sort_insert_perm. by rewrite IH.
Qed.

Lemma stable_sort_length (l : list A) : length (stable_sort before l) = length l.
Proof. apply Permutation_length, stable_sort_perm. Qed.

Hypothesis before_asym : forall x y, before x y = true -> before y x = false.

Lemma sort_insert_sorted (x : A) (l : list A) :
  Sorted (fun a b => before b a = false) l ->
  Sorted (fun a b => before b a = false) (sort_insert before x l).
Proof.
  induction 1 as [|y l Hs IH Hd]; simpl; [repeat constructor|].
  destruct (before y x) eqn:E.
  - constructor; [exact IH|].
    destruct l as [|z l]; simpl.
    + constructor. apply before_asym, E.
    + destruct (before z x); constructor.
      * by inversion Hd.
      * apply before_asym, E.
  - constructor; [by constructor|]. constructor. exact E.
Qed.

Lemma stable_sort_sorted (l : list A) :
  Sorted (fun a b => before b a = false) (stable_sort before l).
Proof.
  induction l as [|x l IH]; simpl; [constructor|].
  apply sort_insert_sorted, IH.
Qed.
End StableSortFacts.

(** The code-unit order is a total order. *)
Definition str_le (a b : jsstring) : Prop := str_ltb b a = false.

Lemma str_ltb_asym (a b : jsstring) : str_ltb a b = true -> str_ltb b a = false.
Proof.
  revert b. induction a as [|x a IH]; intros [|y b]; simpl; try congruence.
  destruct (N.ltb_spec x y), (N.ltb_spec y x); try congruence; try lia.
  apply IH.
Qed.

Lemma str_le_antisym (a b : jsstring) : str_le a b -> str_le b a -> a = b.
Proof.
  unfold str_le. revert b.
  induction a as [|x a IH]; intros [|y b]; simpl; try congruence.
  destruct (N.ltb_spec x y), (N.ltb_spec y x); try congruence; try lia.
  intros H1 H2. f_equal; [lia|]. by apply IH.
Qed.

Lemma str_le_trans (a b c : jsstring) : str_le a b -> str_le b c -> str_le a c.
Proof.
  unfold str_le. revert b c.
  induction a as [|x a IH]; intros [|y b] [|z c]; simpl; try congruence.
  destruct (N.ltb_spec y x), (N.ltb_spec x y), (N.ltb_spec z y),
    (N.ltb_spec y z), (N.ltb_spec z x), (N.ltb_spec x z);
    try congruence; try lia.
  apply IH.
Qed.

#[local] Instance str_le_transitive : Transitive str_le.
Proof. intros a b c. apply str_le_trans. Qed.

#[local] Instance str_le_antisymm : AntiSymm (=) str_le.
Proof. intros a b. apply str_le_antisym. Qed.

(** Sorting strings forgets the order they came in. *)
Lemma sort_strings_perm (l1 l2 : list jsstring) :
  l1 ≡ₚ l2 -> sort_strings l1 = sort_strings l2.
Proof.
  intros H. apply (Sorted_unique str_le).
  - apply stable_sort_sorted, str_ltb_asym.
  - apply stable_sort_sorted, str_ltb_asym.
  - unfold sort_strings. by rewrite !stable_sort_perm.
Qed.

Module StackOptimizerFacts.
Import StackOptimizer.

(** *** Prices *)

Lemma applyDeal_nonneg (p : Q) (deal : Deal) (basePrice : Q) :
  (0 <= p)%Q -> (0 <= applyDeal p deal basePrice)%Q.
Proof.
  intros Hp. unfold applyDeal.
  destruct (match truthy (minPurchase deal) with
            | Some m => Qltb p m | None => false end); [exact Hp|].
  apply Q.le_max_l.
Qed.

(** *** The search terminates *)

Definition nodeWeight (n : nat) (node : Node) : nat := 2 ^ S (n - index node) - 1.

Definition stackWeight (n : nat) (stack : list Node) : nat :=
  foldr (fun node acc => nodeWeight n node + acc) 0 stack.

Lemma stackWeight_app (n : nat) (s1 s2 : list Node) :
  stackWeight n (s1 ++ s2) = stackWeight n s1 + stackWeight n s2.
Proof. induction s1 as [|x s1 IH]; simpl; [reflexivity|]. rewrite IH. lia. Qed.

Lemma stackWeight_rev (n : nat) (s : list Node) :
  stackWeight n (rev s) = stackWeight n s.
Proof.
  induction s as [|x s IH]; simpl; [reflexivity|].
  rewrite stackWeight_app, IH. simpl. lia.
Qed.

Lemma pow2_pos (k : nat) : 0 < 2 ^ k.
Proof. pose proof (Nat.pow_nonzero 2 k). lia. Qed.

Lemma nodeWeight_child (n : nat) (node child : Node) :
  index child = index node + 1 -> index node + 1 < n ->
  2 * nodeWeight n child + 1 <= nodeWeight n node.
Proof.
  intros Hi Hlt. unfold nodeWeight. rewrite Hi.
  replace (n - index node) with (S (n - (index node + 1))) by lia.
  set (k := n - (index node + 1)).
  pose proof (pow2_pos (S k)).
  rewrite (Nat.pow_succ_r' 2 (S k)). lia.
Qed.

Section Search.
Variables (basePrice : Q) (deals : list Deal) (maxDeals : Q).
Variables (startTime : Z) (timeLimit : Q) (clock : nat -> Z).

Definition isChildOf (node child : Node) : Prop :=
  index child = index node + 1 /\ index node + 1 < length deals.

(** What one round of the loop pushes: nothing, one child or two. *)
Lemma visit_pushes (node : Node) (best : StackResult) :
  let pushed := (visit basePrice deals maxDeals node best).1 in
  Forall (isChildOf node) pushed /\ length pushed <= 2.
Proof.
  unfold visit, isChildOf.
  destruct (Qle_bool (bound node) (totalSavings best)); simpl; [split; [constructor|lia]|].
  set (inc := if (index node <? length deals) && _ then _ else _).
  assert (Hinc : Forall (fun c => index c = index node + 1
                                  /\ index node + 1 < length deals) inc.1
                 /\ length inc.1 <= 1).
  { subst inc.
    destruct ((index node <? length deals) && _); simpl; [|split; [constructor|lia]].
    destruct (deals !! index node); simpl; [|split; [constructor|lia]].
    destruct (canStackDeal _ _); simpl; [|split; [constructor|lia]].
    destruct (index node + 1 <? length deals) eqn:E; simpl; [|split; [constructor|lia]].
    apply Nat.ltb_lt in E. split; [|lia].
    constructor; [simpl; split; [reflexivity|exact E]|constructor]. }
  destruct Hinc as [Hf Hl].
  destruct (index node + 1 <? length deals) eqn:E.
  - apply Nat.ltb_lt in E. split.
    + apply Forall_app. split; [exact Hf|].
      constructor; [simpl; split; [reflexivity|exact E]|constructor].
    + rewrite length_app. simpl. lia.
  - rewrite app_nil_r. split; [exact Hf|lia].
Qed.

Lemma visit_weight (node : Node) (best : StackResult) (rest : list Node) :
  stackWeight (length deals)
    (rev (visit basePrice deals maxDeals node best).1 ++ rest)
  < stackWeight (length deals) (node :: rest).
Proof.
  destruct (visit_pushes node best) as [Hf Hl].
  rewrite stackWeight_app, stackWeight_rev. simpl.
  set (pushed := (visit basePrice deals maxDeals node best).1) in *.
  assert (nodeWeight (length deals) node >= 1).
  { unfold nodeWeight.
    assert (2 <= 2 ^ S (length deals - index node)).
    { rewrite Nat.pow_succ_r'.
      pose proof (pow2_pos (length deals - index node)). lia. }
    lia. }
  destruct pushed as [|c1 [|c2 [|c3 pushed]]]; simpl in *; try lia.
  - apply Forall_cons in Hf as [[H1 H2] _].
    pose proof (nodeWeight_child (length deals) node c1 H1 H2). lia.
  - apply Forall_cons in Hf as [[H1 H2] Hf].
    apply Forall_cons in Hf as [[H3 _] _].
    pose proof (nodeWeight_child (length deals) node c1 H1 H2).
    pose proof (nodeWeight_child (length deals) node c2 H3 H2). lia.
Qed.

Lemma bbLoop_total (fuel : nat) :
  forall (stack : list Node) (best : StackResult) (tick : nat),
    stackWeight (length deals) stack < fuel ->
    exists out,
      bbLoop basePrice deals maxDeals startTime timeLimit clock fuel stack best tick
      = Some out.
Proof.
  induction fuel as [|fuel IH]; intros stack best tick Hw; [lia|].
  destruct stack as [|node rest]; simpl; [eauto|].
  destruct (inTime startTime timeLimit clock tick); [|eauto].
  pose proof (visit_weight node best rest) as Hv.
  destruct (visit basePrice deals maxDeals node best) as [pushed best'] eqn:E.
  simpl in Hv. apply IH. simpl in Hw. lia.
Qed.

(** The call returns, whatever the clock. *)
Lemma branchAndBound_total (tick : nat) :
  exists out,
    branchAndBound basePrice deals maxDeals startTime timeLimit clock tick = Some out.
Proof.
  unfold branchAndBound.
  edestruct (bbLoop_total (bbFuel deals)) as [[best tick'] ->];
    [|eexists; reflexivity].
  unfold bbFuel, stackWeight. simpl foldr.
  unfold nodeWeight. simpl index. rewrite Nat.sub_0_r.
  pose proof (pow2_pos (S (length deals))). lia.
Qed.
End Search.

(** *** What every result satisfies *)

Definition resultOk (basePrice : Q) (r : StackResult) : Prop :=
  (0 <= finalPrice r)%Q /\ (finalPrice r <= basePrice)%Q
  /\ (totalSavings r == basePrice - finalPrice r)%Q.

Definition priceOk (node : Node) : Prop := (0 <= currentPrice node)%Q.

Lemma resultOk_setWarnings (basePrice : Q) (r : StackResult) (w : list string) :
  resultOk basePrice r -> resultOk basePrice (setWarnings r w).
Proof. intros H. exact H. Qed.

Lemma resultOk_setAlternativeStacks (basePrice : Q) (r : StackResult)
  (alts : list StackResult) :
  resultOk basePrice r -> resultOk basePrice (setAlternativeStacks r alts).
Proof. intros H. exact H. Qed.

Lemma resultOk_price (p q : Q) (r : StackResult) :
  (p == q)%Q -> resultOk p r -> resultOk q r.
Proof.
  intros E (H1 & H2 & H3). unfold resultOk. rewrite <- E. auto.
Qed.

Section Invariant.
Variables (basePrice : Q) (deals : list Deal) (maxDeals : Q).
Variables (startTime : Z) (timeLimit : Q) (clock : nat -> Z).
Hypothesis basePrice_nonneg : (0 <= basePrice)%Q.

Lemma visit_ok (node : Node) (best : StackResult) :
  priceOk node -> resultOk basePrice best ->
  resultOk basePrice (visit basePrice deals maxDeals node best).2
  /\ Forall priceOk (visit basePrice deals maxDeals node best).1.
Proof.
  intros Hn Hb. unfold visit.
  destruct (Qle_bool (bound node) (totalSavings best)); simpl; [split; [exact Hb|constructor]|].
  set (inc := if (index node <? length deals) && _ then _ else _).
  assert (Hinc : resultOk basePrice inc.2 /\ Forall priceOk inc.1).
  { subst inc.
    destruct ((index node <? length deals) && _); simpl; [|split; [exact Hb|constructor]].
    destruct (deals !! index node) as [deal|]; simpl; [|split; [exact Hb|constructor]].
    destruct (canStackDeal _ _); simpl; [|split; [exact Hb|constructor]].
    pose proof (applyDeal_nonneg (currentPrice node) deal basePrice Hn) as Hnew.
    split.
    - destruct (Qltb (totalSavings best) _) eqn:E; [|exact Hb].
      apply Qltb_lt in E. destruct Hb as (H1 & H2 & H3).
      unfold resultOk; simpl. split; [exact Hnew|split; [|reflexivity]].
      rewrite H3 in E. lra.
    - destruct (index node + 1 <? length deals);
        [constructor; [exact Hnew|constructor]|constructor]. }
  destruct Hinc as [H1 H2]. split; [exact H1|].
  apply Forall_app. split; [exact H2|].
  destruct (index node + 1 <? length deals);
    [constructor; [exact Hn|constructor]|constructor].
Qed.

Lemma bbLoop_ok (fuel : nat) :
  forall (stack : list Node) (best : StackResult) (tick : nat) out,
    Forall priceOk stack -> resultOk basePrice best ->
    bbLoop basePrice deals maxDeals startTime timeLimit clock fuel stack best tick
    = Some out ->
    resultOk basePrice out.1.
Proof.
  induction fuel as [|fuel IH]; intros stack best tick out Hs Hb;
    destruct stack as [|node rest]; simpl.
  - intros [= <-]. exact Hb.
  - destruct (inTime _ _ _ _); [discriminate|]. intros [= <-]. exact Hb.
  - intros [= <-]. exact Hb.
  - destruct (inTime _ _ _ _); [|intros [= <-]; exact Hb].
    apply Forall_cons in Hs as [Hn Hs].
    destruct (visit_ok node best Hn Hb) as [Hb' Hp].
    destruct (visit basePrice deals maxDeals node best) as [pushed best'].
    apply IH; [|exact Hb'].
    apply Forall_app. split; [|exact Hs].
    simpl in Hp. apply Forall_forall. intros x Hx.
    apply list_elem_of_In, in_rev in Hx.
    rewrite Forall_forall in Hp. apply Hp, list_elem_of_In, Hx.
Qed.

Lemma branchAndBound_ok (tick : nat) out :
  branchAndBound basePrice deals maxDeals startTime timeLimit clock tick = Some out ->
  resultOk basePrice out.1.
Proof.
  unfold branchAndBound.
  destruct (bbLoop _ _ _ _ _ _ _ _ _ _) as [[best tick']|] eqn:E; [|discriminate].
  intros [= <-]. simpl.
  assert (H : resultOk basePrice best).
  { refine (bbLoop_ok _ _ _ _ (best, tick') _ _ E).
    - constructor; [exact basePrice_nonneg|constructor].
    - unfold resultOk; simpl. split; [|split]; lra. }
  destruct (inTime _ _ _ _); [exact H|apply resultOk_setWarnings, H].
Qed.
End Invariant.

(** *** The memo cache *)

Lemma DealType_eqb_refl (t : DealType) : DealType_eqb t t = true.
Proof. by destruct t. Qed.

Lemma types_eqb_refl (l : list DealType) : types_eqb l l = true.
Proof. induction l; simpl; [reflexivity|]. by rewrite DealType_eqb_refl. Qed.

Lemma Constraint_eqb_refl (p : Constraint) : Constraint_eqb p p = true.
Proof. destruct p; simpl; first [apply Qeq_bool_refl|apply types_eqb_refl]. Qed.

Lemma constraints_eqb_refl (c : OptimizationConstraints) : constraints_eqb c c = true.
Proof. induction c; simpl; [reflexivity|]. by rewrite Constraint_eqb_refl. Qed.

Lemma key_eqb_refl (k : CacheKey) : key_eqb k k = true.
Proof.
  unfold key_eqb, str_eqb.
  rewrite constraints_eqb_refl, Qeq_bool_refl.
  by rewrite bool_decide_eq_true_2.
Qed.

Lemma key_eqb_price (k k' : CacheKey) :
  key_eqb k k' = true -> (keyPrice k == keyPrice k')%Q.
Proof.
  unfold key_eqb. intros H.
  apply andb_prop in H as [H _]. apply andb_prop in H as [H _].
  by apply Qeq_bool_iff.
Qed.

(** Two constraints objects are rendered alike by [JSON.stringify] when
    they hold the same properties with the same values in the same order. *)
Inductive sameProperty : Constraint -> Constraint -> Prop :=
  | sameMaxDeals x y : (x == y)%Q -> sameProperty (MaxDeals x) (MaxDeals y)
  | samePreferredTypes l : sameProperty (PreferredTypes l) (PreferredTypes l)
  | sameExcludeTypes l : sameProperty (ExcludeTypes l) (ExcludeTypes l)
  | sameMinSavings x y : (x == y)%Q -> sameProperty (MinSavings x) (MinSavings y)
  | sameTimeLimit x y : (x == y)%Q -> sameProperty (TimeLimit x) (TimeLimit y).

Definition sameConstraints : OptimizationConstraints -> OptimizationConstraints -> Prop :=
  Forall2 sameProperty.

Lemma DealType_eqb_same (a b : DealType) : DealType_eqb a b = true <-> a = b.
Proof. destruct a, b; simpl; split; congruence. Qed.

Lemma types_eqb_eq (a b : list DealType) : types_eqb a b = true <-> a = b.
Proof.
  revert b. induction a as [|x a IH]; intros [|y b]; simpl; try (split; congruence).
  rewrite andb_true_iff, DealType_eqb_same, IH. split; [intros [-> ->]|intros [= -> ->]]; done.
Qed.

Lemma Constraint_eqb_spec (p q : Constraint) :
  Constraint_eqb p q = true <-> sameProperty p q.
Proof.
  split.
  - destruct p, q; simpl; try discriminate; intros H;
      first [apply Qeq_bool_iff in H; by constructor
            |apply types_eqb_eq in H as ->; constructor].
  - intros []; simpl; first [by apply Qeq_bool_iff|apply types_eqb_refl].
Qed.

Lemma constraints_eqb_spec (a b : OptimizationConstraints) :
  constraints_eqb a b = true <-> sameConstraints a b.
Proof.
  unfold sameConstraints. revert b.
  induction a as [|p a IH]; intros [|q b]; simpl.
  - split; [constructor|done].
  - split; [done|inversion 1].
  - split; [done|inversion 1].
  - rewrite andb_true_iff, Constraint_eqb_spec, IH. split.
    + intros [? ?]. by constructor.
    + inversion 1; subst. done.
Qed.

(** Two cache keys are the same string when the prices are the same number,
    the joined ids the same string and the constraints rendered alike. *)
Lemma key_eqb_spec (k k' : CacheKey) :
  key_eqb k k' = true
  <-> (keyPrice k == keyPrice k')%Q
      /\ keyDealIds k = keyDealIds k'
      /\ sameConstraints (keyConstraints k) (keyConstraints k').
Proof.
  unfold key_eqb, str_eqb.
  rewrite !andb_true_iff, Qeq_bool_iff, bool_decide_eq_true, constraints_eqb_spec.
  tauto.
Qed.

Lemma sameProperty_sym (p q : Constraint) : sameProperty p q -> sameProperty q p.
Proof. intros []; constructor; by symmetry. Qed.

Lemma sameProperty_trans (p q r : Constraint) :
  sameProperty p q -> sameProperty q r -> sameProperty p r.
Proof.
  intros Hpq Hqr. destruct Hpq; inversion Hqr; subst; constructor;
    eapply Qeq_trans; eassumption.
Qed.

Lemma sameConstraints_sym (a b : OptimizationConstraints) :
  sameConstraints a b -> sameConstraints b a.
Proof. induction 1; constructor; [by apply sameProperty_sym|done]. Qed.

Lemma sameConstraints_trans (a b c : OptimizationConstraints) :
  sameConstraints a b -> sameConstraints b c -> sameConstraints a c.
Proof.
  intros H. revert c. induction H; intros c Hc; inversion Hc; subst; constructor;
    [by eapply sameProperty_trans|by apply IHForall2].
Qed.

Lemma key_eqb_sym (k k' : CacheKey) : key_eqb k k' = true -> key_eqb k' k = true.
Proof.
  rewrite !key_eqb_spec. intros (H1 & H2 & H3).
  split_and!; [by symmetry|by symmetry|by apply sameConstraints_sym].
Qed.

Lemma key_eqb_trans (k1 k2 k3 : CacheKey) :
  key_eqb k1 k2 = true -> key_eqb k2 k3 = true -> key_eqb k1 k3 = true.
Proof.
  rewrite !key_eqb_spec. intros (H1 & H2 & H3) (H4 & H5 & H6).
  split_and!; [by eapply Qeq_trans|congruence|by eapply sameConstraints_trans].
Qed.

(** A key answers like any key that is the same string. *)
Lemma memoGet_key (k k' : CacheKey) (memo : MemoCache) :
  key_eqb k k' = true -> memoGet k memo = memoGet k' memo.
Proof.
  intros H. unfold memoGet. f_equal.
  induction memo as [|[k0 r0] memo IH]; simpl; [reflexivity|].
  destruct (key_eqb k k0) eqn:E, (key_eqb k' k0) eqn:E'; try done.
  - rewrite (key_eqb_trans k' k k0) in E'; [done|by apply key_eqb_sym|done].
  - rewrite (key_eqb_trans k k' k0) in E; done.
Qed.

(** [Map.set] leaves what the other keys answer. *)
Lemma memoGet_memoSet_other (k k' : CacheKey) (r : StackResult) (memo : MemoCache) :
  key_eqb k' k = false -> memoGet k' (memoSet k r memo) = memoGet k' memo.
Proof.
  intros H. unfold memoGet, memoSet. simpl. rewrite H. f_equal.
  induction memo as [|[k0 r0] memo IH]; simpl; [reflexivity|].
  destruct (key_eqb k k0) eqn:E; simpl.
  - destruct (key_eqb k' k0) eqn:E'; [|exact IH].
    rewrite (key_eqb_trans k' k0 k) in H; [done|done|by apply key_eqb_sym].
  - destruct (key_eqb k' k0); [reflexivity|exact IH].
Qed.

Lemma memoGet_memoSet (k : CacheKey) (r : StackResult) (memo : MemoCache) :
  memoGet k (memoSet k r memo) = Some r.
Proof. unfold memoGet, memoSet. simpl. by rewrite key_eqb_refl. Qed.

Lemma memoGet_In (k : CacheKey) (r : StackResult) (memo : MemoCache) :
  memoGet k memo = Some r ->
  exists k', In (k', r) memo /\ key_eqb k k' = true.
Proof.
  unfold memoGet. intros H.
  destruct (List.find _ memo) as [[k' r']|] eqn:E; [|discriminate].
  injection H as ->. apply find_some in E as [Hin Hk]. eauto.
Qed.

Lemma getCacheKey_perm (basePrice : Q) (deals deals' : list Deal)
  (constraints : OptimizationConstraints) :
  deals ≡ₚ deals' ->
  getCacheKey basePrice deals constraints = getCacheKey basePrice deals' constraints.
Proof.
  intros H. unfold getCacheKey. f_equal. f_equal.
  apply sort_strings_perm. by rewrite H.
Qed.

(** *** The public call returns *)

Lemma alternativesLoop_total (clock : nat -> Z) (basePrice : Q) (deals : list Deal)
  (maxAlternatives : nat) (starts : list nat) :
  forall alternatives used tick,
    exists out,
      alternativesLoop clock basePrice deals maxAlternatives starts
        alternatives used tick = Some out.
Proof.
  induction starts as [|i starts IH]; intros alternatives used tick; simpl; [eauto|].
  destruct (branchAndBound_total basePrice (drop i deals ++ take i deals) 5
              (clock tick) 500 clock (S tick)) as [[alt tick'] ->].
  destruct (_ && _); [|apply IH].
  destruct (_ <=? _); [eauto|apply IH].
Qed.

Lemma findAlternatives_total (clock : nat -> Z) (basePrice : Q) (deals : list Deal)
  (best : StackResult) (maxAlternatives tick : nat) :
  exists out,
    findAlternatives clock basePrice deals best maxAlternatives tick = Some out.
Proof.
  unfold findAlternatives.
  edestruct alternativesLoop_total as [[alts tick'] ->]. eauto.
Qed.

Lemma optimize_total (clock : nat -> Z) (memo : MemoCache) (basePrice : Q)
  (deals : list Deal) (constraints : OptimizationConstraints) :
  exists out, optimize clock memo basePrice deals constraints = Some out.
Proof.
  unfold optimize. destruct (memoGet _ memo); [eauto|].
  edestruct branchAndBound_total as [[best tick] ->].
  destruct (Qltb 0 (totalSavings best)); [|eauto].
  edestruct findAlternatives_total as [[alts tick'] ->]. eauto.
Qed.

(** The states of the cache an optimizer goes through: empty when it is
    created, then whatever its calls leave. *)
Inductive reachable : MemoCache -> Prop :=
  | reachable_new : reachable []
  | reachable_optimize clock memo basePrice deals constraints out :
      reachable memo ->
      optimize clock memo basePrice deals constraints = Some out ->
      reachable (memoAfter out).

Definition memoOk (memo : MemoCache) : Prop :=
  forall k r, In (k, r) memo -> (0 <= keyPrice k)%Q -> resultOk (keyPrice k) r.

Lemma optimize_ok (clock : nat -> Z) (memo : MemoCache) (basePrice : Q)
  (deals : list Deal) (constraints : OptimizationConstraints) out :
  memoOk memo ->
  optimize clock memo basePrice deals constraints = Some out ->
  memoOk (memoAfter out)
  /\ ((0 <= basePrice)%Q -> resultOk basePrice (result out)).
Proof.
  intros Hm. unfold optimize.
  destruct (memoGet _ memo) as [cached|] eqn:Hget.
  - intros [= <-]. simpl. split; [exact Hm|]. intros Hb.
    apply memoGet_In in Hget as (k' & Hin & Hk).
    apply key_eqb_price in Hk. simpl in Hk.
    apply (resultOk_price (keyPrice k')); [by symmetry|].
    apply Hm; [exact Hin|]. by rewrite <- Hk.
  - destruct (branchAndBound _ _ _ _ _ _ _) as [[best tick]|] eqn:Hbb; [|discriminate].
    set (final := if Qltb 0 (totalSavings best) then _ else _).
    assert (Hfinal : forall r, final = Some r ->
                       (0 <= basePrice)%Q -> resultOk basePrice r).
    { intros r Hr Hb.
      pose proof (branchAndBound_ok _ _ _ _ _ _ Hb _ _ Hbb) as Hok. simpl in Hok.
      subst final. destruct (Qltb 0 (totalSavings best)).
      - destruct (findAlternatives _ _ _ _ _ _) as [[alts ?]|]; [|discriminate].
        injection Hr as <-. by apply resultOk_setAlternativeStacks.
      - by injection Hr as <-. }
    destruct final as [r|]; [|discriminate].
    intros [= <-]. simpl. split; [|by apply Hfinal].
    intros k r' [Hin|Hin] Hk.
    + injection Hin as <- <-. by apply Hfinal.
    + apply filter_In in Hin as [Hin _]. by apply Hm.
Qed.

Lemma reachable_memoOk (memo : MemoCache) : reachable memo -> memoOk memo.
Proof.
  induction 1 as [|clock memo basePrice deals constraints out _ IH Hopt].
  - intros k r [].
  - by destruct (optimize_ok _ _ _ _ _ _ IH Hopt).
Qed.

(** A deal whose amounts are not negative. *)
Definition nonNegative (deal : Deal) : Prop :=
  (0 <= value deal)%Q
  /\ match maxDiscount deal with Some m => (0 <= m)%Q | None => True end
  /\ match minPurchase deal with Some m => (0 <= m)%Q | None => True end.

Lemma truthy_Some (o : option Q) (q : Q) : truthy o = Some q -> o = Some q.
Proof.
  destruct o as [x|]; simpl; [|discriminate].
  destruct (Qeq_bool x 0); congruence.
Qed.

Lemma applyDeal_le (p : Q) (deal : Deal) (basePrice : Q) :
  nonNegative deal -> (0 <= p)%Q -> (applyDeal p deal basePrice <= p)%Q.
Proof.
  intros (Hv & Hm & _) Hp. unfold applyDeal.
  destruct (match truthy (minPurchase deal) with
            | Some m => Qltb p m | None => false end); [lra|].
  apply Q.max_lub; [exact Hp|].
  assert (Hd : (0 <= p * (value deal / 100))%Q).
  { apply Qmult_le_0_compat; [exact Hp|].
    apply Qle_shift_div_l; [reflexivity|lra]. }
  destruct (valueType deal); [|lra].
  destruct (truthy (maxDiscount deal)) as [m|] eqn:E; [|lra].
  apply truthy_Some in E. rewrite E in Hm.
  destruct (Q.min_spec (p * (value deal / 100)) m) as [[_ ->]|[_ ->]]; lra.
Qed.

(** *** Stacks of deals *)

(** The price after applying the deals of a stack in order, and what the
    stack saves. *)
Definition stackPrice (basePrice : Q) (stack : list Deal) : Q :=
  foldl (fun p deal => applyDeal p deal basePrice) basePrice stack.

Definition stackSavings (basePrice : Q) (stack : list Deal) : Q :=
  (basePrice - stackPrice basePrice stack)%Q.

(** Every deal of the stack can be stacked on the ones before it. *)
Fixpoint stackableFrom (existing stack : list Deal) : bool :=
  match stack with
  | [] => true
  | deal :: stack' =>
      canStackDeal deal existing && stackableFrom (existing ++ [deal]) stack'
  end.

(** *** What the search does return *)

Lemma stackableFrom_snoc (stack : list Deal) :
  forall existing deal,
    stackableFrom existing (stack ++ [deal])
    = stackableFrom existing stack && canStackDeal deal (existing ++ stack).
Proof.
  induction stack as [|d stack IH]; intros existing deal; simpl.
  - by rewrite app_nil_r, andb_true_r.
  - rewrite IH, <- app_assoc. simpl. by rewrite andb_assoc.
Qed.

Lemma stackPrice_snoc (basePrice : Q) (stack : list Deal) (deal : Deal) :
  stackPrice basePrice (stack ++ [deal])
  = applyDeal (stackPrice basePrice stack) deal basePrice.
Proof. unfold stackPrice. by rewrite foldl_app. Qed.

Lemma Qlen_snoc {A} (l : list A) (x : A) : (Qlen (l ++ [x]) - 1 == Qlen l)%Q.
Proof.
  unfold Qlen. rewrite length_app, Nat2Z.inj_add, inject_Z_plus.
  change (inject_Z (Z.of_nat (length [x]))) with 1%Q. lra.
Qed.

Section Feasible.
Variables (basePrice : Q) (deals : list Deal) (maxDeals : Q).
Variables (startTime : Z) (timeLimit : Q) (clock : nat -> Z).

(** A stack the search may build from the first [n] deals: deals of the
    list in the order of the list, each stackable on the ones before, no deal
    added once [maxDeals] are there, and the price after them. *)
Definition builtFrom (n : nat) (stack : list Deal) (price : Q) : Prop :=
  sublist stack (take n deals)
  /\ stackableFrom [] stack = true
  /\ price = stackPrice basePrice stack
  /\ (stack = [] \/ (Qlen stack - 1 < maxDeals)%Q).

Definition feasible (r : StackResult) : Prop :=
  builtFrom (length deals) (StackOptimizer.deals r) (finalPrice r)
  /\ (totalSavings r == basePrice - finalPrice r)%Q.

Lemma builtFrom_more (n m : nat) (stack : list Deal) (price : Q) :
  n <= m -> builtFrom n stack price -> builtFrom m stack price.
Proof.
  intros Hle (H1 & H2 & H3 & H4). split_and!; try done.
  etrans; [exact H1|]. replace n with (n `min` m) by lia.
  rewrite <- take_take. apply sublist_take.
Qed.

Lemma visit_feasible (node : Node) (best : StackResult) :
  builtFrom (index node) (currentDeals node) (currentPrice node) ->
  feasible best ->
  feasible (visit basePrice deals maxDeals node best).2
  /\ Forall (fun n => builtFrom (index n) (currentDeals n) (currentPrice n))
       (visit basePrice deals maxDeals node best).1.
Proof.
  intros Hn Hb. unfold visit.
  destruct (Qle_bool (bound node) (totalSavings best)); simpl; [split; [exact Hb|constructor]|].
  set (inc := if (index node <? length deals) && _ then _ else _).
  assert (Hinc : feasible inc.2
            /\ Forall (fun n => builtFrom (index n) (currentDeals n) (currentPrice n)) inc.1).
  { subst inc.
    destruct (index node <? length deals) eqn:Hidx; simpl; [|split; [exact Hb|constructor]].
    destruct (Qltb (Qlen (currentDeals node)) maxDeals) eqn:Hmax; simpl;
      [|split; [exact Hb|constructor]].
    destruct (deals !! index node) as [deal|] eqn:Hdeal; simpl;
      [|split; [exact Hb|constructor]].
    destruct (canStackDeal deal (currentDeals node)) eqn:Hcan; simpl;
      [|split; [exact Hb|constructor]].
    apply Qltb_lt in Hmax. destruct Hn as (H1 & H2 & H3 & H4).
    assert (Hnew : builtFrom (index node + 1) (currentDeals node ++ [deal])
                     (applyDeal (currentPrice node) deal basePrice)).
    { split_and!.
      - replace (index node + 1) with (S (index node)) by lia.
        rewrite (take_S_r _ _ _ Hdeal). by apply sublist_app.
      - rewrite stackableFrom_snoc, H2. simpl. exact Hcan.
      - by rewrite stackPrice_snoc, H3.
      - right. by rewrite Qlen_snoc. }
    split.
    - destruct (Qltb (totalSavings best) _); [|exact Hb].
      split; simpl; [|reflexivity].
      apply (builtFrom_more (index node + 1)); [|exact Hnew].
      apply Nat.ltb_lt in Hidx. lia.
    - destruct (index node + 1 <? length deals); [|constructor].
      constructor; [exact Hnew|constructor]. }
  destruct Hinc as [H1 H2]. split; [exact H1|].
  apply Forall_app. split; [exact H2|].
  destruct (index node + 1 <? length deals); [|constructor].
  constructor; [|constructor]. simpl.
  apply (builtFrom_more (index node)); [lia|exact Hn].
Qed.

Lemma bbLoop_feasible (fuel : nat) :
  forall (stack : list Node) (best : StackResult) (tick : nat) out,
    Forall (fun n => builtFrom (index n) (currentDeals n) (currentPrice n)) stack ->
    feasible best ->
    bbLoop basePrice deals maxDeals startTime timeLimit clock fuel stack best tick
    = Some out ->
    feasible out.1.
Proof.
  induction fuel as [|fuel IH]; intros stack best tick out Hs Hb;
    destruct stack as [|node rest]; simpl.
  - intros [= <-]. exact Hb.
  - destruct (inTime _ _ _ _); [discriminate|]. intros [= <-]. exact Hb.
  - intros [= <-]. exact Hb.
  - destruct (inTime _ _ _ _); [|intros [= <-]; exact Hb].
    apply Forall_cons in Hs as [Hn Hs].
    destruct (visit_feasible node best Hn Hb) as [Hb' Hp].
    destruct (visit basePrice deals maxDeals node best) as [pushed best'].
    apply IH; [|exact Hb'].
    apply Forall_app. split; [|exact Hs]. simpl in Hp.
    by apply Forall_rev.
Qed.

(** The result of the search is a stack of the deals given, in their order,
    each stackable on the ones before, to which no deal was added once
    [maxDeals] were there; its final price is the price after the stack and
    its savings the difference to the base price. *)
Lemma branchAndBound_feasible (tick : nat) out :
  branchAndBound basePrice deals maxDeals startTime timeLimit clock tick = Some out ->
  feasible out.1.
Proof.
  unfold branchAndBound.
  destruct (bbLoop _ _ _ _ _ _ _ _ _ _) as [[best tick']|] eqn:E; [|discriminate].
  intros [= <-]. simpl.
  assert (H : feasible best).
  { refine (bbLoop_feasible _ _ _ _ (best, tick') _ _ E).
    - constructor; [|constructor]. simpl.
      split_and!; [apply sublist_nil_l|done|done|by left].
    - split; simpl; [|lra].
      split_and!; [apply sublist_nil_l|done|done|by left]. }
  destruct (inTime _ _ _ _); [exact H|exact H].
Qed.
End Feasible.

(** *** Sample deals *)

Definition fixedDeal (name : string) (t : DealType) (amount : Q) : Deal :=
  mkDeal (js name) t None amount fixed None None None None true None 1 None.

Definition dealA : Deal := fixedDeal "A" coupon 60.
Definition dealB : Deal := fixedDeal "B" cashback 30.

(** *** The claims *)

(** C1 (the code departs from it).  [optimize] is to return a stack of at
    most [maxDeals] mutually stackable deals whose savings no other such
    stack exceeds.  On a price of 100 with a coupon of 60 and a cashback of
    30, both stackable, and a clock that never reaches the time limit, it
    returns the coupon alone, saving 60, without a warning; the two deals
    together are stackable and save 90. *)
Theorem optimize_misses_best_stack :
  exists out,
    optimize frozenClock [] 100 [dealA; dealB] no_constraints = Some out
    /\ deals (result out) = [dealA]
    /\ (totalSavings (result out) == 60)%Q
    /\ (finalPrice (result out) == 40)%Q
    /\ warnings (result out) = None
    /\ sublist [dealA; dealB] (dealsAfter out)
    /\ length [dealA; dealB] <= 5
    /\ stackableFrom [] [dealA; dealB] = true
    /\ (stackSavings 100 [dealA; dealB] == 90)%Q
    /\ (totalSavings (result out) < stackSavings 100 [dealA; dealB])%Q.
Proof.
  eexists. split; [vm_compute; reflexivity|].
  cbn [result dealsAfter deals totalSavings finalPrice warnings].
  split_and!; try reflexivity. simpl. lia.
Qed.

(** C2 (the code departs from it).  A node is to be discarded only when no
    extension of its stack can save more than the best result so far.  In
    the search on the same input, the node that holds the coupon (price 40)
    gets bound 30, what is left to save from 40, and is discarded against
    the best total savings, 60, counted from the base price; its extension
    by the cashback is stackable and saves 90. *)
Theorem prune_discards_better_stack :
  let deals := [dealA; dealB] in
  let root := mkNode 0 [] 100 (calculateBound 100 deals 0) in
  let best0 := mkStackResult [] 0 100 [] None None in
  let newPrice := applyDeal 100 dealA 100 in
  let included := mkNode 1 [dealA] newPrice (calculateBound newPrice deals 1) in
  let excluded := mkNode 1 [] 100 (bound root) in
  let best1 :=
    mkStackResult [dealA] (100 - newPrice) newPrice
      (generateBreakdown 100 [dealA]) None None in
  visit 100 deals 5 root best0 = ([included; excluded], best1)
  /\ visit 100 deals 5 excluded best1 = ([], best1)
  /\ (bound included == 30)%Q
  /\ (totalSavings best1 == 60)%Q
  /\ Qle_bool (bound included) (totalSavings best1) = true
  /\ visit 100 deals 5 included best1 = ([], best1)
  /\ bbLoop 100 deals 5 0 1000 frozenClock (bbFuel deals) [root] best0 1
     = Some (best1, 4)
  /\ stackableFrom [] (currentDeals included ++ [dealB]) = true
  /\ (stackSavings 100 (currentDeals included ++ [dealB]) == 90)%Q
  /\ (totalSavings best1 < stackSavings 100 (currentDeals included ++ [dealB]))%Q.
Proof.
  cbv zeta. split_and!; try reflexivity; vm_compute; reflexivity.
Qed.

(** C4.  [optimize] is memoized by a cache key built from the base price,
    the sorted deal ids and the constraints: a call returns, and a second
    call with the same base price, the same deal list and the same
    constraints returns exactly the result of the first, from the cache,
    which it leaves as it is, whatever the clock.  The deal list of the
    second call may be a copy of the original array or the array itself,
    which the first call has sorted in place.  More generally the entry that
    the first call leaves answers every call whose base price is the same
    number, whose sorted ids joined by commas are the same string and whose
    constraints hold the same properties with the same values in the same
    order; for every call that differs from the first in one of the three
    the cache answers after the first call what it answered before it. *)
Theorem optimize_memoized (clock clock' : nat -> Z) (memo : MemoCache)
  (basePrice : Q) (deals : list Deal) (constraints : OptimizationConstraints) :
  exists out,
    optimize clock memo basePrice deals constraints = Some out
    /\ memoGet (getCacheKey basePrice deals constraints) (memoAfter out)
       = Some (result out)
    /\ optimize clock' (memoAfter out) basePrice deals constraints
       = Some (mkOutcome (result out) (memoAfter out) deals)
    /\ optimize clock' (memoAfter out) basePrice (dealsAfter out) constraints
       = Some (mkOutcome (result out) (memoAfter out) (dealsAfter out))
    /\ (forall basePrice' deals' constraints',
          (basePrice' == basePrice)%Q ->
          join (js ",") (sort_strings (id <$> deals'))
          = join (js ",") (sort_strings (id <$> deals)) ->
          sameConstraints constraints' constraints ->
          optimize clock' (memoAfter out) basePrice' deals' constraints'
          = Some (mkOutcome (result out) (memoAfter out) deals'))
    /\ (forall basePrice' deals' constraints',
          ~ (basePrice' == basePrice)%Q
          \/ join (js ",") (sort_strings (id <$> deals'))
             <> join (js ",") (sort_strings (id <$> deals))
          \/ ~ sameConstraints constraints' constraints ->
          memoGet (getCacheKey basePrice' deals' constraints') (memoAfter out)
          = memoGet (getCacheKey basePrice' deals' constraints') memo).
Proof.
  destruct (optimize_total clock memo basePrice deals constraints) as [out Hout].
  exists out. split; [exact Hout|].
  assert (Hkey : getCacheKey basePrice (dealsAfter out) constraints
                 = getCacheKey basePrice deals constraints
                 /\ memoGet (getCacheKey basePrice deals constraints) (memoAfter out)
                    = Some (result out)
                 /\ forall k', key_eqb k' (getCacheKey basePrice deals constraints) = false ->
                      memoGet k' (memoAfter out) = memoGet k' memo).
  { revert Hout. unfold optimize.
    destruct (memoGet _ memo) as [cached|] eqn:Hget.
    - intros [= <-]. simpl. by split_and!.
    - destruct (branchAndBound _ _ _ _ _ _ _) as [[best tick]|]; [|discriminate].
      destruct (if Qltb 0 (totalSavings best) then _ else _) as [r|]; [|discriminate].
      intros [= <-]. simpl. split_and!.
      + apply getCacheKey_perm. unfold sortDeals. apply stable_sort_perm.
      + apply memoGet_memoSet.
      + intros k' Hk'. by apply memoGet_memoSet_other. }
  destruct Hkey as (Hkey & Hhit & Hother).
  split; [exact Hhit|].
  split; [unfold optimize; by rewrite Hhit|].
  split; [unfold optimize; by rewrite Hkey, Hhit|].
  split.
  - intros basePrice' deals' constraints' Hp Hids Hc.
    unfold optimize.
    rewrite (memoGet_key (getCacheKey basePrice' deals' constraints')
               (getCacheKey basePrice deals constraints)), Hhit; [done|].
    apply key_eqb_spec. simpl. done.
  - intros basePrice' deals' constraints' Hdiff.
    apply Hother. apply not_true_is_false. rewrite key_eqb_spec. simpl. tauto.
Qed.

(** The property order counts: after a call with [{maxDeals: 2, timeLimit:
    100}] a call with [{timeLimit: 100, maxDeals: 2}] finds no entry. *)
Example optimize_property_order :
  exists out,
    optimize frozenClock [] 100 [dealA; dealB] [MaxDeals 2; TimeLimit 100] = Some out
    /\ memoGet (getCacheKey 100 [dealA; dealB] [TimeLimit 100; MaxDeals 2])
         (memoAfter out) = None.
Proof. eexists. split; [vm_compute; reflexivity|reflexivity]. Qed.

(** C10.  For every optimizer, base price >= 0 and list of deals whose
    amounts are not negative, [optimize] returns a result with
    [0 <= finalPrice <= basePrice] and [totalSavings = basePrice - finalPrice];
    applying such a deal to a price >= 0 neither raises the price nor drives
    it below zero. *)
Theorem optimize_price_bounds (clock : nat -> Z) (memo : MemoCache)
  (basePrice : Q) (deals : list Deal) (constraints : OptimizationConstraints) :
  reachable memo ->
  (0 <= basePrice)%Q ->
  Forall nonNegative deals ->
  exists out,
    optimize clock memo basePrice deals constraints = Some out
    /\ (0 <= finalPrice (result out) <= basePrice)%Q
    /\ (totalSavings (result out) == basePrice - finalPrice (result out))%Q
    /\ forall deal p, In deal deals -> (0 <= p)%Q ->
         (0 <= applyDeal p deal basePrice <= p)%Q.
Proof.
  intros Hreach Hbase Hdeals.
  destruct (optimize_total clock memo basePrice deals constraints) as [out Hout].
  exists out. split; [exact Hout|].
  destruct (optimize_ok _ _ _ _ _ _ (reachable_memoOk _ Hreach) Hout) as [_ Hok].
  destruct (Hok Hbase) as (H1 & H2 & H3).
  split_and!; try assumption.
  intros deal p Hin Hp. split; [by apply applyDeal_nonneg|].
  apply applyDeal_le; [|exact Hp].
  rewrite Forall_forall in Hdeals. by apply Hdeals, list_elem_of_In.
Qed.

Lemma optimize_price_bounds_witness :
  reachable []
  /\ (0 <= 100)%Q
  /\ Forall nonNegative [dealA; dealB]
  /\ exists out,
       optimize frozenClock [] 100 [dealA; dealB] no_constraints = Some out
       /\ (0 <= finalPrice (result out) <= 100)%Q
       /\ (totalSavings (result out) == 100 - finalPrice (result out))%Q
       /\ forall deal p, In deal [dealA; dealB] -> (0 <= p)%Q ->
            (0 <= applyDeal p deal 100 <= p)%Q.
Proof.
  assert (H0 : (0 <= 100)%Q) by (vm_compute; discriminate).
  assert (Hd : Forall nonNegative [dealA; dealB]).
  { repeat constructor; vm_compute; discriminate. }
  split; [constructor|]. split; [exact H0|]. split; [exact Hd|].
  apply (optimize_price_bounds frozenClock [] 100 [dealA; dealB] no_constraints);
    [constructor|exact H0|exact Hd].
Defined.

End StackOptimizerFacts.

Module FraudDetectionEngineFacts.
Import FraudDetectionEngine.

(** *** The heap *)

Definition parent (i : nat) : nat := (i - 1) / 2.

Lemma parent_lt (i : nat) : 0 < i -> parent i < i.
Proof.
  intros H. unfold parent. apply Nat.Div0.div_lt_upper_bound; lia.
Qed.

Lemma parent_left (i : nat) : parent (2 * i + 1) = i.
Proof.
  unfold parent. replace (2 * i + 1 - 1) with (i * 2) by lia.
  apply Nat.div_mul. lia.
Qed.

Lemma parent_right (i : nat) : parent (2 * i + 2) = i.
Proof.
  unfold parent. replace (2 * i + 2 - 1) with (1 + i * 2) by lia.
  rewrite Nat.div_add by lia. reflexivity.
Qed.

Lemma parent_child (c : nat) :
  0 < c -> c = 2 * parent c + 1 \/ c = 2 * parent c + 2.
Proof.
  intros H. unfold parent.
  pose proof (Nat.div_mod_eq (c - 1) 2) as E.
  pose proof (Nat.mod_upper_bound (c - 1) 2). lia.
Qed.

Section HeapFacts.
Context {T : Type} (compareFn : T -> T -> Q).

Definition before (a b : T) : bool := Qltb (compareFn a b) 0.

Hypothesis before_asym : forall a b, before a b = true -> before b a = false.
Hypothesis before_trans :
  forall a b c, before b a = false -> before c b = false -> before c a = false.

Lemma before_irrefl (a : T) : before a a = false.
Proof.
  destruct (before a a) eqn:E; [|reflexivity]. by rewrite (before_asym _ _ E) in E.
Qed.

Lemma before_lt_le (a b c : T) :
  before a b = true -> before c b = false -> before c a = false.
Proof. intros H1 H2. eapply before_trans; [|exact H2]. by apply before_asym. Qed.

Lemma before_lt_trans (a b c : T) :
  before a b = true -> before b c = true -> before a c = true.
Proof.
  intros H1 H2. destruct (before a c) eqn:E; [reflexivity|].
  (* c <= a and a <= b, so c <= b *)
  assert (before b c = false); [|congruence].
  eapply before_trans; [exact E|]. by apply before_asym.
Qed.

(** *** Swapping two cells *)

Lemma swap_length (heap : list T) (i j : nat) : length (MinHeap.swap heap i j) = length heap.
Proof.
  unfold MinHeap.swap. destruct (heap !! i), (heap !! j); try reflexivity.
  by rewrite !length_insert.
Qed.

Lemma swap_lookup (heap : list T) (i j k : nat) (a b : T) :
  heap !! i = Some a -> heap !! j = Some b ->
  MinHeap.swap heap i j !! k
  = if decide (k = i) then Some b else if decide (k = j) then Some a else heap !! k.
Proof.
  intros Hi Hj. unfold MinHeap.swap. rewrite Hi, Hj.
  pose proof (lookup_lt_Some _ _ _ Hi). pose proof (lookup_lt_Some _ _ _ Hj).
  destruct (decide (k = i)) as [->|Hki].
  - by rewrite list_lookup_insert_eq by (by rewrite length_insert).
  - rewrite list_lookup_insert_ne by done.
    destruct (decide (k = j)) as [->|Hkj].
    + by rewrite list_lookup_insert_eq.
    + by rewrite list_lookup_insert_ne.
Qed.

Lemma swap_perm (heap : list T) (i j : nat) : MinHeap.swap heap i j ≡ₚ heap.
Proof.
  destruct (heap !! i) as [a|] eqn:Hi; [|by unfold MinHeap.swap; rewrite Hi].
  destruct (heap !! j) as [b|] eqn:Hj; [|by unfold MinHeap.swap; rewrite Hi, Hj].
  apply Permutation_inj. split; [apply swap_length|].
  exists (fun k => if decide (k = i) then j else if decide (k = j) then i else k).
  split.
  - intros x y. repeat case_decide; lia.
  - intros k. rewrite (swap_lookup _ _ _ _ _ _ Hi Hj).
    repeat case_decide; subst; congruence.
Qed.

(** *** The heap order *)

(** A cell is in order with its parent: it does not go before it. *)
Definition orderedAt (heap : list T) (i : nat) : Prop :=
  forall x p, heap !! i = Some x -> heap !! parent i = Some p -> before x p = false.

Definition heapOrdered (heap : list T) : Prop :=
  forall i, 0 < i -> orderedAt heap i.

(** In order but for cell [j] and its parent, the cells below [j] being in
    order with the parent of [j]. *)
Definition orderedButUp (heap : list T) (j : nat) : Prop :=
  (forall i, 0 < i -> i <> j -> orderedAt heap i)
  /\ (forall c x g, 0 < j -> 0 < c -> parent c = j ->
        heap !! c = Some x -> heap !! parent j = Some g -> before x g = false).

(** In order but for cell [j] and its children, these being in order with
    the parent of [j]. *)
Definition orderedButDown (heap : list T) (j : nat) : Prop :=
  (forall i, 0 < i -> parent i <> j -> orderedAt heap i)
  /\ (forall c x g, 0 < j -> 0 < c -> parent c = j ->
        heap !! c = Some x -> heap !! parent j = Some g -> before x g = false).

Lemma heapOrdered_nil : heapOrdered [].
Proof. intros i _ x p H. by rewrite lookup_nil in H. Qed.

Lemma root_first (heap : list T) (r : T) :
  heapOrdered heap -> heap !! 0 = Some r ->
  forall i x, heap !! i = Some x -> before x r = false.
Proof.
  intros Hh Hr i. induction i as [i IH] using lt_wf_ind. intros x Hx.
  destruct i as [|i].
  - rewrite Hr in Hx. injection Hx as <-. apply before_irrefl.
  - pose proof (parent_lt (S i) ltac:(lia)) as Hp.
    destruct (heap !! parent (S i)) as [p|] eqn:Ep.
    + eapply before_trans; [apply (IH _ Hp _ Ep)|].
      apply (Hh (S i) ltac:(lia) _ _ Hx Ep).
    + apply lookup_ge_None in Ep. apply lookup_lt_Some in Hx. lia.
Qed.

(** *** Sifting up *)

Lemma heapifyUpFrom_fuel (fuel : nat) :
  forall (fuel' : nat) (heap : list T) (index : nat),
    index <= fuel -> index <= fuel' ->
    MinHeap.heapifyUpFrom compareFn fuel heap index
    = MinHeap.heapifyUpFrom compareFn fuel' heap index.
Proof.
  induction fuel as [|fuel IH]; intros fuel' heap index Hle Hle'.
  - replace index with 0 by lia. by destruct fuel'.
  - destruct index as [|i]; [by destruct fuel'|].
    destruct fuel' as [|fuel']; [lia|]. cbn [MinHeap.heapifyUpFrom].
    destruct (heap !! S i) as [x|]; [|reflexivity].
    destruct (heap !! (i / 2)) as [p|]; [|reflexivity].
    destruct (Qltb (compareFn x p) 0); [|reflexivity].
    assert (i / 2 <= i) by (apply Nat.Div0.div_le_upper_bound; lia).
    apply IH; lia.
Qed.

(** The recursive equation of [MinHeap.heapifyUp] in the source. *)
Lemma heapifyUp_eq (heap : list T) (index : nat) :
  MinHeap.heapifyUp compareFn heap index
  = match index with
    | O => heap
    | S _ =>
        match heap !! index, heap !! parent index with
        | Some x, Some p =>
            if Qltb (compareFn x p) 0
            then MinHeap.heapifyUp compareFn (MinHeap.swap heap index (parent index)) (parent index)
            else heap
        | _, _ => heap
        end
    end.
Proof.
  destruct index as [|i]; [reflexivity|].
  unfold MinHeap.heapifyUp at 1. cbn [MinHeap.heapifyUpFrom].
  unfold parent. replace (S i - 1) with i by lia.
  destruct (heap !! S i) as [x|]; [|reflexivity].
  destruct (heap !! (i / 2)) as [p|]; [|reflexivity].
  destruct (Qltb (compareFn x p) 0); [|reflexivity].
  assert (i / 2 <= i) by (apply Nat.Div0.div_le_upper_bound; lia).
  apply heapifyUpFrom_fuel; lia.
Qed.

Lemma heapifyUp_step (heap : list T) (j : nat) (x p : T) :
  0 < j -> heap !! j = Some x -> heap !! parent j = Some p ->
  before x p = true ->
  orderedButUp heap j -> orderedButUp (MinHeap.swap heap j (parent j)) (parent j).
Proof.
  intros Hj Hx Hp Hlt [Ha Hb].
  pose proof (parent_lt j Hj) as Hpj.
  assert (Hlook : forall k, MinHeap.swap heap j (parent j) !! k
            = if decide (k = j) then Some p
              else if decide (k = parent j) then Some x else heap !! k)
    by (intros k; apply (swap_lookup _ _ _ _ _ _ Hx Hp)).
  split.
  - intros i Hi Hne y q. rewrite !Hlook.
    destruct (decide (i = j)) as [->|Hij].
    + destruct (decide (parent j = j)); [lia|]. rewrite decide_True by done.
      intros [= <-] [= <-]. by apply before_asym.
    + rewrite (decide_False (P := i = parent j)) by done.
      intros Hy. destruct (decide (parent i = j)) as [Hpi|Hpi].
      * intros [= <-]. apply (Hb i y p); done.
      * destruct (decide (parent i = parent j)) as [Hpp|Hpp].
        -- intros [= <-]. eapply before_lt_le; [exact Hlt|].
           apply (Ha i Hi Hij y p Hy). by rewrite Hpp.
        -- intros Hq. by apply (Ha i Hi Hij y q).
  - intros c y g Hpos Hc Hpc. rewrite !Hlook.
    pose proof (parent_lt (parent j) Hpos).
    rewrite (decide_False (P := parent (parent j) = j)) by lia.
    rewrite (decide_False (P := parent (parent j) = parent j)) by lia.
    rewrite (decide_False (P := c = parent j))
      by (pose proof (parent_lt c Hc); lia).
    destruct (decide (c = j)) as [->|Hcj].
    + intros [= <-] Hg. by apply (Ha (parent j) Hpos ltac:(lia) p g).
    + intros Hy Hg. eapply before_trans.
      * apply (Ha (parent j) Hpos ltac:(lia) p g Hp Hg).
      * apply (Ha c Hc Hcj y p Hy). by rewrite Hpc.
Qed.

Lemma heapifyUp_done (heap : list T) (j : nat) :
  orderedButUp heap j ->
  (0 < j -> orderedAt heap j) ->
  heapOrdered heap.
Proof.
  intros [Ha _] Hj i Hi. destruct (decide (i = j)) as [->|Hne]; [by apply Hj|].
  by apply Ha.
Qed.

Lemma heapifyUp_correct (fuel : nat) :
  forall (heap : list T) (j : nat),
    j <= fuel -> orderedButUp heap j ->
    heapOrdered (MinHeap.heapifyUpFrom compareFn fuel heap j)
    /\ MinHeap.heapifyUpFrom compareFn fuel heap j ≡ₚ heap.
Proof.
  induction fuel as [|fuel IH]; intros heap j Hle Hinv.
  - simpl. split; [|reflexivity]. apply (heapifyUp_done _ j Hinv). lia.
  - destruct j as [|i].
    { simpl. split; [|reflexivity]. apply (heapifyUp_done _ 0 Hinv). lia. }
    cbn [MinHeap.heapifyUpFrom].
    assert (Hpar : i / 2 = parent (S i))
      by (unfold parent; by replace (S i - 1) with i by lia).
    rewrite Hpar.
    destruct (heap !! S i) as [x|] eqn:Hx.
    2:{ split; [|reflexivity]. apply (heapifyUp_done _ (S i) Hinv).
        intros _ y q Hy. congruence. }
    destruct (heap !! parent (S i)) as [p|] eqn:Hp.
    2:{ split; [|reflexivity]. apply (heapifyUp_done _ (S i) Hinv).
        intros _ y q _ Hq. congruence. }
    destruct (Qltb (compareFn x p) 0) eqn:Hlt.
    + pose proof (parent_lt (S i) ltac:(lia)).
      destruct (IH (MinHeap.swap heap (S i) (parent (S i))) (parent (S i))) as [H1 H2];
        [lia|by apply (heapifyUp_step _ _ x p); try lia|].
      split; [exact H1|]. by rewrite H2, swap_perm.
    + split; [|reflexivity]. apply (heapifyUp_done _ (S i) Hinv).
      intros _ y q Hy Hq. unfold before. congruence.
Qed.

Lemma insert_correct (heap : list T) (value : T) :
  heapOrdered heap ->
  heapOrdered (MinHeap.insert compareFn heap value)
  /\ MinHeap.insert compareFn heap value ≡ₚ value :: heap.
Proof.
  intros Hh. unfold MinHeap.insert, MinHeap.heapifyUp.
  destruct (heapifyUp_correct (length (heap ++ [value]) - 1) (heap ++ [value])
              (length (heap ++ [value]) - 1)) as [H1 H2]; [lia| |].
  - rewrite length_app. simpl. replace (length heap + 1 - 1) with (length heap) by lia.
    split.
    + intros i Hi Hne x p Hx Hp.
      assert (i < length heap).
      { apply lookup_lt_Some in Hx. rewrite length_app in Hx. simpl in Hx. lia. }
      pose proof (parent_lt i Hi).
      rewrite lookup_app_l in Hx, Hp by lia. by apply (Hh i Hi).
    + intros c x g _ Hc Hpc Hx. apply lookup_lt_Some in Hx.
      rewrite length_app in Hx. simpl in Hx.
      pose proof (parent_lt c Hc). lia.
  - split; [exact H1|]. rewrite H2. by rewrite Permutation_app_comm.
Qed.
(** *** Sifting down *)

Definition isChild (j c : nat) : Prop := c = 2 * j + 1 \/ c = 2 * j + 2.

Lemma isChild_parent (j c : nat) : isChild j c <-> 0 < c /\ parent c = j.
Proof.
  unfold isChild. split.
  - intros [->| ->]; (split; [lia|]); [apply parent_left|apply parent_right].
  - intros [Hc <-]. by apply parent_child.
Qed.

(** What [smallest] is after the two tests of [MinHeap.heapifyDown]: the index
    itself when no child goes before it, else a child that goes before it
    and that the other child does not go before. *)
Lemma smallestOf_cases (heap : list T) (j : nat) :
  (MinHeap.smallestOf compareFn heap j = j
   /\ forall c x y, isChild j c -> heap !! c = Some x -> heap !! j = Some y ->
        before x y = false)
  \/ (isChild j (MinHeap.smallestOf compareFn heap j)
      /\ exists m y,
           heap !! MinHeap.smallestOf compareFn heap j = Some m /\ heap !! j = Some y
           /\ before m y = true
           /\ forall c x, isChild j c -> heap !! c = Some x -> before x m = false).
Proof.
  unfold MinHeap.smallestOf, isChild. fold (before).
  destruct (heap !! j) as [jv|] eqn:Hj.
  2:{ left. destruct (heap !! (2 * j + 1)); rewrite ?Hj;
        destruct (heap !! (2 * j + 2)); rewrite ?Hj; by split. }
  destruct (heap !! (2 * j + 1)) as [lv|] eqn:Hl.
  2:{ left. rewrite Hj.
      assert (heap !! (2 * j + 2) = None) as ->.
      { apply lookup_ge_None in Hl. apply lookup_ge_None. lia. }
      split; [reflexivity|]. intros c x y [->| ->] Hx; [congruence|].
      apply lookup_ge_None in Hl. apply lookup_lt_Some in Hx. lia. }
  fold (before lv jv). destruct (before lv jv) eqn:Hlj.
  - right. rewrite Hl. destruct (heap !! (2 * j + 2)) as [rv|] eqn:Hr.
    + fold (before rv lv). destruct (before rv lv) eqn:Hrl.
      * split; [by right|]. exists rv, jv. split_and!; try done.
        -- by apply (before_lt_trans _ lv).
        -- intros c x [->| ->] Hx; rewrite Hx in *.
           ++ injection Hl as ->. by apply before_asym.
           ++ injection Hr as ->. apply before_irrefl.
      * split; [by left|]. exists lv, jv. split_and!; try done.
        intros c x [->| ->] Hx; rewrite Hx in *.
        -- injection Hl as ->. apply before_irrefl.
        -- by injection Hr as ->.
    + split; [by left|]. exists lv, jv. split_and!; try done.
      intros c x [->| ->] Hx; rewrite Hx in *; [|done].
      injection Hl as ->. apply before_irrefl.
  - rewrite Hj. destruct (heap !! (2 * j + 2)) as [rv|] eqn:Hr.
    + fold (before rv jv). destruct (before rv jv) eqn:Hrj.
      * right. split; [by right|]. exists rv, jv. split_and!; try done.
        intros c x [->| ->] Hx; rewrite Hx in *.
        -- injection Hl as ->. by apply (before_lt_le _ jv).
        -- injection Hr as ->. apply before_irrefl.
      * left. split; [reflexivity|].
        intros c x y [->| ->] Hx [= <-]; congruence.
    + left. split; [reflexivity|].
      intros c x y [->| ->] Hx [= <-]; congruence.
Qed.

Lemma heapifyDown_done (heap : list T) (j : nat) :
  orderedButDown heap j ->
  (forall c x y, isChild j c -> heap !! c = Some x -> heap !! j = Some y ->
     before x y = false) ->
  heapOrdered heap.
Proof.
  intros [Ha _] Hc i Hi. destruct (decide (parent i = j)) as [Hp|Hp].
  - intros x p Hx Hpx. rewrite Hp in Hpx. apply (Hc i x p); try done.
    by apply isChild_parent.
  - by apply Ha.
Qed.

Lemma heapifyDown_step (heap : list T) (j s : nat) (m y : T) :
  isChild j s -> heap !! s = Some m -> heap !! j = Some y ->
  before m y = true ->
  (forall c x, isChild j c -> heap !! c = Some x -> before x m = false) ->
  orderedButDown heap j -> orderedButDown (MinHeap.swap heap j s) s.
Proof.
  intros Hs Hm Hy Hlt Hmin [Ha Hb].
  apply isChild_parent in Hs as [Hs0 Hps].
  pose proof (parent_lt s Hs0) as Hlts. rewrite Hps in Hlts.
  assert (Hlook : forall k, MinHeap.swap heap j s !! k
            = if decide (k = j) then Some m
              else if decide (k = s) then Some y else heap !! k)
    by (intros k; apply (swap_lookup _ _ _ _ _ _ Hy Hm)).
  split.
  - intros i Hi Hne x p. rewrite !Hlook.
    pose proof (parent_lt i Hi) as Hpi.
    destruct (decide (i = j)) as [->|Hij].
    + (* the cell [j], now holding [m], against its parent *)
      rewrite (decide_False (P := parent j = j)) by lia.
      rewrite (decide_False (P := parent j = s)) by lia.
      intros [= <-] Hp. by apply (Hb s m p).
    + destruct (decide (i = s)) as [->|His].
      * rewrite Hps, decide_True by done. intros [= <-] [= <-].
        by apply before_asym.
      * intros Hx. rewrite (decide_False (P := parent i = s)) by done.
        destruct (decide (parent i = j)) as [Hpj|Hpj].
        -- intros [= <-]. apply (Hmin i x); [|done]. by apply isChild_parent.
        -- intros Hp. by apply (Ha i Hi Hpj x p).
  - intros c x g _ Hc Hpc. rewrite !Hlook. rewrite Hps.
    pose proof (parent_lt c Hc).
    rewrite (decide_False (P := c = j)) by lia.
    rewrite (decide_False (P := c = s)) by lia.
    rewrite decide_True by done.
    intros Hx [= <-]. apply (Ha c Hc ltac:(lia) x m Hx). by rewrite Hpc.
Qed.

Lemma heapifyDown_correct (fuel : nat) :
  forall (heap : list T) (j : nat),
    length heap <= fuel + j -> orderedButDown heap j ->
    heapOrdered (MinHeap.heapifyDownFrom compareFn fuel heap j)
    /\ MinHeap.heapifyDownFrom compareFn fuel heap j ≡ₚ heap.
Proof.
  induction fuel as [|fuel IH]; intros heap j Hlen Hinv.
  - simpl. split; [|reflexivity]. apply (heapifyDown_done _ j Hinv).
    intros c x y [->| ->] Hx%lookup_lt_Some; lia.
  - cbn [MinHeap.heapifyDownFrom].
    destruct (smallestOf_cases heap j) as [[-> Hc]|[Hs (m & y & Hm & Hy & Hlt & Hmin)]].
    + rewrite bool_decide_eq_true_2 by done. split; [|reflexivity].
      by apply (heapifyDown_done _ j Hinv).
    + set (s := MinHeap.smallestOf compareFn heap j) in *.
      assert (j < s) by (destruct Hs; lia).
      rewrite bool_decide_eq_false_2 by lia.
      destruct (IH (MinHeap.swap heap j s) s) as [H1 H2].
      * rewrite swap_length. lia.
      * by apply (heapifyDown_step _ _ _ m y).
      * split; [exact H1|]. by rewrite H2, swap_perm.
Qed.

Lemma heapifyDownFrom_fuel (fuel : nat) :
  forall (fuel' : nat) (heap : list T) (j : nat),
    length heap <= fuel + j -> length heap <= fuel' + j ->
    MinHeap.heapifyDownFrom compareFn fuel heap j = MinHeap.heapifyDownFrom compareFn fuel' heap j.
Proof.
  induction fuel as [|fuel IH]; intros fuel' heap j Hlen Hlen'.
  - destruct fuel' as [|fuel']; [reflexivity|]. cbn [MinHeap.heapifyDownFrom].
    destruct (smallestOf_cases heap j) as [[-> _]|[Hs (m & _ & Hm%lookup_lt_Some & _)]].
    + by rewrite bool_decide_eq_true_2.
    + destruct Hs; lia.
  - destruct fuel' as [|fuel']; cbn [MinHeap.heapifyDownFrom];
      destruct (smallestOf_cases heap j) as [[-> _]|[Hs (m & _ & Hm%lookup_lt_Some & _)]];
      rewrite ?bool_decide_eq_true_2 by done; try reflexivity.
    + destruct Hs; lia.
    + set (s := MinHeap.smallestOf compareFn heap j) in *.
      assert (j < s) by (destruct Hs; lia).
      rewrite bool_decide_eq_false_2 by lia.
      apply IH; rewrite swap_length; lia.
Qed.

(** The recursive equation of [MinHeap.heapifyDown] in the source. *)
Lemma heapifyDown_eq (heap : list T) (index : nat) :
  MinHeap.heapifyDown compareFn heap index
  = let smallest := MinHeap.smallestOf compareFn heap index in
    if bool_decide (smallest = index) then heap
    else MinHeap.heapifyDown compareFn (MinHeap.swap heap index smallest) smallest.
Proof.
  unfold MinHeap.heapifyDown. cbv zeta.
  destruct (smallestOf_cases heap index)
    as [[E _]|[Hs (m & _ & Hm%lookup_lt_Some & _)]].
  - rewrite E, bool_decide_eq_true_2 by done.
    destruct (length heap); cbn [MinHeap.heapifyDownFrom]; [reflexivity|].
    by rewrite E, bool_decide_eq_true_2.
  - set (s := MinHeap.smallestOf compareFn heap index) in *.
    assert (index < s) by (destruct Hs; lia).
    rewrite bool_decide_eq_false_2 by lia.
    destruct (length heap) as [|n] eqn:E; [lia|]. cbn [MinHeap.heapifyDownFrom].
    fold s. rewrite bool_decide_eq_false_2 by lia.
    apply heapifyDownFrom_fuel; rewrite swap_length; lia.
Qed.

(** *** Extraction *)

Lemma extractMin_correct (heap : list T) :
  heapOrdered heap ->
  match MinHeap.extractMin compareFn heap with
  | (None, heap') => heap = [] /\ heap' = []
  | (Some min, heap') =>
      heap !! 0 = Some min
      /\ heapOrdered heap'
      /\ min :: heap' ≡ₚ heap
      /\ forall x, x ∈ heap -> before x min = false
  end.
Proof.
  intros Hh. destruct heap as [|min [|r rest]]; [done| |].
  - simpl. split_and!; [done|apply heapOrdered_nil|done|].
    intros x ->%list_elem_of_singleton. apply before_irrefl.
  - assert (Hfirst : forall x, x ∈ min :: r :: rest -> before x min = false).
    { intros x [i Hx]%list_elem_of_lookup. by apply (root_first _ _ Hh eq_refl i). }
    unfold MinHeap.extractMin.
    destruct (last (r :: rest)) as [popped|] eqn:Hlast.
    2:{ by apply last_None in Hlast. }
    apply last_Some in Hlast as [body Hbody]. rewrite Hbody in *.
    rewrite removelast_last. cbn [insert list_insert].
    change (<[0:=popped]> (min :: body)) with (popped :: body).
    destruct (heapifyDown_correct (length (popped :: body)) (popped :: body) 0)
      as [H1 H2]; [lia| |].
    + split; [|intros; lia].
      intros i Hi Hp x p Hx Hpx.
      assert (Hpi : 0 < parent i) by lia.
      pose proof (parent_lt i Hi).
      assert (i < S (length body)) by (by apply lookup_lt_Some in Hx).
      apply (Hh i Hi x p).
      * destruct i as [|i]; [lia|]. simpl in *. rewrite lookup_app_l by lia. done.
      * destruct (parent i) as [|k]; [lia|]. simpl in *.
        rewrite lookup_app_l by lia. done.
    + split_and!; [done|exact H1| |exact Hfirst].
      unfold MinHeap.heapifyDown. rewrite H2.
      apply perm_skip. by rewrite Permutation_app_comm.
Qed.

Lemma insertAll_correct (values : list T) :
  forall heap,
    heapOrdered heap ->
    heapOrdered (foldl (MinHeap.insert compareFn) heap values)
    /\ foldl (MinHeap.insert compareFn) heap values ≡ₚ heap ++ values.
Proof.
  induction values as [|v values IH]; intros heap Hh; simpl.
  - by rewrite app_nil_r.
  - destruct (insert_correct heap v Hh) as [H1 H2].
    destruct (IH _ H1) as [H3 H4]. split; [exact H3|].
    rewrite H4, H2. simpl. apply Permutation_middle.
Qed.

End HeapFacts.

(** *** The anomaly heap *)

Lemma anomaly_before (a b : Anomaly) :
  before anomalyCompare a b = true <-> (anomalyScore b < anomalyScore a)%Q.
Proof. unfold before, anomalyCompare. rewrite Qltb_lt. split; intros; lra. Qed.

Lemma anomaly_not_before (a b : Anomaly) :
  before anomalyCompare a b = false <-> (anomalyScore a <= anomalyScore b)%Q.
Proof. unfold before, anomalyCompare. rewrite Qltb_ge. split; intros; lra. Qed.

Lemma anomaly_asym (a b : Anomaly) :
  before anomalyCompare a b = true -> before anomalyCompare b a = false.
Proof. rewrite anomaly_before, anomaly_not_before. intros; lra. Qed.

Lemma anomaly_trans (a b c : Anomaly) :
  before anomalyCompare b a = false -> before anomalyCompare c b = false ->
  before anomalyCompare c a = false.
Proof. rewrite !anomaly_not_before. intros; lra. Qed.

(** Scores do not increase along the list. *)
Definition descending (l : list Anomaly) : Prop :=
  Sorted (fun a b => (anomalyScore b <= anomalyScore a)%Q) l.

Lemma extractLoop_correct (count : nat) :
  forall heap,
    heapOrdered anomalyCompare heap ->
    heapOrdered anomalyCompare (extractLoop count heap).2
    /\ (extractLoop count heap).1 ++ (extractLoop count heap).2 ≡ₚ heap
    /\ length (extractLoop count heap).1 = Nat.min count (length heap)
    /\ descending (extractLoop count heap).1
    /\ forall a x, a ∈ (extractLoop count heap).1 ->
         x ∈ (extractLoop count heap).2 ->
         (anomalyScore x <= anomalyScore a)%Q.
Proof.
  induction count as [|count IH]; intros heap Hh.
  - simpl. split_and!; try done. constructor. intros a x Ha. by apply elem_of_nil in Ha.
  - cbn [extractLoop]. unfold MinHeap.size.
    destruct (0 <? length heap) eqn:Hsize.
    2:{ apply Nat.ltb_ge in Hsize. destruct heap; [|simpl in Hsize; lia].
        simpl. split_and!; try done. constructor.
        intros a x Ha. by apply elem_of_nil in Ha. }
    apply Nat.ltb_lt in Hsize.
    pose proof (extractMin_correct anomalyCompare anomaly_asym anomaly_trans heap Hh) as Hex.
    destruct (MinHeap.extractMin anomalyCompare heap) as [[min|] heap1].
    2:{ destruct Hex as [-> _]. simpl in Hsize. lia. }
    destruct Hex as (Hroot & Hh1 & Hperm & Hfirst).
    destruct (IH heap1 Hh1) as (H1 & H2 & H3 & H4 & H5).
    destruct (extractLoop count heap1) as [anomalies heap2]. cbn [fst snd app length] in *.
    assert (Hsub : forall x, x ∈ anomalies ++ heap2 -> (anomalyScore x <= anomalyScore min)%Q).
    { intros x Hx. apply anomaly_not_before, Hfirst.
      rewrite <- Hperm. apply list_elem_of_further. by rewrite <- H2. }
    split_and!.
    + exact H1.
    + by rewrite H2.
    + rewrite H3. apply Permutation_length in Hperm. simpl in Hperm. lia.
    + constructor; [exact H4|]. destruct anomalies as [|a anomalies]; constructor.
      apply Hsub, list_elem_of_here.
    + intros a x [->|Ha]%elem_of_cons Hx.
      * apply Hsub, elem_of_app. by right.
      * by apply H5.
Qed.

(** *** The trie *)

(** The node reached from [node] along [chars] exists and ends a pattern. *)
Fixpoint endsAt (node : TrieNode) (chars : list jsstring) : bool :=
  match chars with
  | [] => isEndOfPattern node
  | char :: chars' =>
      match childGet char (children node) with
      | Some child => endsAt child chars'
      | None => false
      end
  end.

Definition unit1 (u : N) : jsstring := [u].

Fixpoint hasSurrogatePair (s : jsstring) : bool :=
  match s with
  | u :: rest =>
      match rest with
      | v :: _ => (isHighSurrogate u && isLowSurrogate v) || hasSurrogatePair rest
      | [] => false
      end
  | [] => false
  end.

Definition isSubstring (p text : jsstring) : Prop :=
  exists before after, text = before ++ p ++ after.

Lemma str_eqb_eq (a b : jsstring) : str_eqb a b = true <-> a = b.
Proof. unfold str_eqb. apply bool_decide_eq_true. Qed.

Lemma childGet_childSet (c c' : jsstring) (node : TrieNode)
  (m : list (jsstring * TrieNode)) :
  childGet c' (childSet c node m)
  = if str_eqb c c' then Some node else childGet c' m.
Proof.
  induction m as [|[k v] m IH]; simpl.
  - destruct (str_eqb c c'); reflexivity.
  - destruct (str_eqb k c) eqn:E; simpl.
    + apply str_eqb_eq in E as ->. destruct (str_eqb c c'); reflexivity.
    + destruct (str_eqb k c') eqn:E'; [|exact IH].
      apply str_eqb_eq in E' as ->.
      destruct (str_eqb c c') eqn:E2; [|reflexivity].
      apply str_eqb_eq in E2 as ->.
      unfold str_eqb in E. rewrite bool_decide_eq_true_2 in E; done.
Qed.

Lemma endsAt_new (chars : list jsstring) : endsAt newTrieNode chars = false.
Proof. destruct chars; reflexivity. Qed.

Lemma endsAt_insertFrom (pattern : list jsstring) :
  forall (node : TrieNode) (chars : list jsstring),
    endsAt (Trie.insertFrom pattern node) chars
    = endsAt node chars || bool_decide (chars = pattern).
Proof.
  induction pattern as [|c pattern IH]; intros node chars.
  - destruct chars as [|k chars]; cbn [Trie.insertFrom endsAt children isEndOfPattern].
    + by rewrite orb_true_r.
    + rewrite bool_decide_eq_false_2 by discriminate. by rewrite orb_false_r.
  - destruct chars as [|k chars]; cbn [Trie.insertFrom endsAt children isEndOfPattern].
    + rewrite bool_decide_eq_false_2 by discriminate. by rewrite orb_false_r.
    + rewrite childGet_childSet.
      destruct (str_eqb c k) eqn:E.
      * apply str_eqb_eq in E as ->. rewrite IH.
        destruct (childGet k (children node)) as [child|]; simpl.
        -- f_equal. apply bool_decide_ext. split; congruence.
        -- rewrite endsAt_new. simpl. apply bool_decide_ext. split; congruence.
      * assert (c <> k) by (intros ->; unfold str_eqb in E;
                            rewrite bool_decide_eq_true_2 in E; done).
        rewrite bool_decide_eq_false_2 by congruence.
        by rewrite orb_false_r.
Qed.

Lemma codePoints_concat (s : jsstring) : concat (codePoints s) = s.
Proof.
  assert (H : forall n (s : jsstring), length s <= n -> concat (codePoints s) = s).
  { clear s. induction n as [|n IH]; intros [|u [|v s]] Hlen; simpl in *;
      try reflexivity; try lia.
    destruct (isHighSurrogate u && isLowSurrogate v); simpl.
    - f_equal. f_equal. apply IH. lia.
    - f_equal. apply (IH (v :: s)). simpl. lia. }
  by apply (H (length s)).
Qed.

Lemma codePoints_inj (p q : jsstring) : codePoints p = codePoints q -> p = q.
Proof. intros H. by rewrite <- (codePoints_concat p), H, codePoints_concat. Qed.

Lemma codePoints_units (s : jsstring) :
  hasSurrogatePair s = false -> codePoints s = unit1 <$> s.
Proof.
  induction s as [|u s IH]; [reflexivity|].
  destruct s as [|v s]; [reflexivity|].
  intros H. cbn [hasSurrogatePair] in H. apply orb_false_elim in H as [H1 H2].
  cbn [codePoints]. rewrite H1. cbn [fmap list_fmap]. f_equal. by apply IH.
Qed.

Lemma codePoints_pair (s units : jsstring) :
  codePoints s = unit1 <$> units -> hasSurrogatePair s = false /\ s = units.
Proof.
  assert (H : forall n (s units : jsstring), length s <= n ->
                codePoints s = unit1 <$> units ->
                hasSurrogatePair s = false /\ s = units).
  { clear. induction n as [|n IH]; intros [|u [|v s]] units Hlen; simpl in *;
      try lia.
    - destruct units; [done|discriminate].
    - destruct units; [done|discriminate].
    - destruct units as [|x [|y units]]; try discriminate. by intros [= ->].
    - destruct (isHighSurrogate u && isLowSurrogate v); simpl.
      + destruct units; discriminate.
      + destruct units as [|x units]; [discriminate|]. simpl.
        intros [= -> H]. destruct (IH (v :: s) units) as [H1 H2]; [simpl; lia|exact H|].
        split; [exact H1|by rewrite H2]. }
  by apply (H (length s)).
Qed.

(** What [Trie.searchFromIndex] finds: a pattern of the trie that starts the
    units, one character for each unit, and is not empty. *)
Lemma searchFrom_spec (units : jsstring) :
  forall node,
    Trie.searchFrom node units = true
    <-> exists n, 0 < n <= length units
                  /\ endsAt node (unit1 <$> take n units) = true.
Proof.
  induction units as [|u units IH]; intros node; simpl.
  - split; [discriminate|]. intros (n & Hn & _). lia.
  - destruct (childGet [u] (children node)) as [child|] eqn:E.
    + destruct (isEndOfPattern child) eqn:Eend.
      * split; [|done]. intros _. exists 1. split; [lia|].
        simpl. unfold unit1 at 1. by rewrite E.
      * rewrite IH. split.
        -- intros (n & Hn & H). exists (S n). split; [lia|].
           simpl. unfold unit1 at 1. by rewrite E.
        -- intros ([|n] & Hn & H); [lia|]. simpl in H. unfold unit1 at 1 in H.
           rewrite E in H. exists n. split; [|exact H].
           destruct n; [|lia]. simpl in H. congruence.
    + split; [discriminate|]. intros ([|n] & Hn & H); [lia|].
      simpl in H. unfold unit1 at 1 in H. by rewrite E in H.
Qed.

Lemma isSubstring_take_drop (p text : jsstring) :
  (p <> [] /\ isSubstring p text)
  <-> exists i n, i < length text /\ 0 < n <= length text - i
                  /\ take n (drop i text) = p.
Proof.
  split.
  - intros [Hp (before & after & ->)].
    exists (length before), (length p).
    rewrite drop_app_length, take_app_length, !length_app.
    destruct p; [done|]. simpl. split_and!; try lia. done.
  - intros (i & n & Hi & Hn & <-). split.
    + intros H%(f_equal length). rewrite length_take, length_drop in H.
      simpl in H. lia.
    + exists (take i text), (drop n (drop i text)).
      by rewrite take_drop, take_drop.
Qed.

Lemma search_spec (root : TrieNode) (text : jsstring) :
  Trie.search root text = true
  <-> exists p, p <> [] /\ isSubstring p text /\ endsAt root (unit1 <$> p) = true.
Proof.
  unfold Trie.search. rewrite existsb_exists. split.
  - intros (i & Hi & H). apply in_seq in Hi.
    apply searchFrom_spec in H as (n & Hn & H). rewrite length_drop in Hn.
    exists (take n (drop i text)).
    destruct (proj2 (isSubstring_take_drop (take n (drop i text)) text))
      as [H1 H2]; [|by split_and!].
    exists i, n. split_and!; try lia. done.
  - intros (p & Hp & Hsub & H).
    destruct (proj1 (isSubstring_take_drop p text) (conj Hp Hsub))
      as (i & n & Hi & Hn & <-).
    exists i. split; [apply in_seq; lia|].
    apply searchFrom_spec. exists n. rewrite length_drop. split; [lia|exact H].
Qed.

(** The trie of a list of patterns, inserted in order. *)
Definition trieOf (patterns : list jsstring) : TrieNode :=
  foldl Trie.insert newTrieNode patterns.

Lemma endsAt_insertAll (patterns : list jsstring) :
  forall (root : TrieNode) (chars : list jsstring),
    endsAt (foldl Trie.insert root patterns) chars = true
    <-> endsAt root chars = true \/ exists p, p ∈ patterns /\ codePoints p = chars.
Proof.
  induction patterns as [|q patterns IH]; intros root chars; simpl.
  - split; [by left|]. intros [H|(p & Hp & _)]; [done|]. by apply elem_of_nil in Hp.
  - rewrite IH. unfold Trie.insert at 1.
    rewrite endsAt_insertFrom, orb_true_iff, bool_decide_eq_true. split.
    + intros [[H|H]|(p & Hp & H)]; [by left| |].
      * right. exists q. split; [apply list_elem_of_here|done].
      * right. exists p. split; [by apply list_elem_of_further|done].
    + intros [H|(p & Hp & H)]; [by left; left|].
      apply elem_of_cons in Hp as [->|Hp]; [by left; right|].
      right. by exists p.
Qed.

(** The search finds the patterns that are not empty and have no surrogate
    pair, wherever they occur in the text. *)
Lemma search_trieOf (patterns : list jsstring) (text : jsstring) :
  Trie.search (trieOf patterns) text = true
  <-> exists p, p ∈ patterns /\ p <> [] /\ hasSurrogatePair p = false
                /\ isSubstring p text.
Proof.
  rewrite search_spec. unfold trieOf. split.
  - intros (p & Hp & Hsub & H).
    apply endsAt_insertAll in H as [H|(q & Hq & H)];
      [by rewrite endsAt_new in H|].
    apply codePoints_pair in H as [Hpair ->]. by exists p.
  - intros (p & Hin & Hp & Hpair & Hsub). exists p. split_and!; try done.
    apply endsAt_insertAll. right. exists p. split; [done|].
    by apply codePoints_units.
Qed.

(** *** The checks *)

Definition inherited (c : jsstring) : bool :=
  existsb (fun k => str_eqb (js k) c) objectPrototype.

(** The threshold the source means for a category. *)
Definition thresholdOf (c : jsstring) : Q :=
  if str_eqb c (js "electronics") then 0.7
  else if str_eqb c (js "fashion") then 0.9
  else if str_eqb c (js "home") then 0.8
  else if str_eqb c (js "food") then 0.6
  else 0.85.

Lemma str_eqb_sym a b : str_eqb a b = str_eqb b a.
Proof. unfold str_eqb. apply bool_decide_ext. split; congruence. Qed.

Lemma threshold_own (c : jsstring) :
  inherited c = false ->
  times100 (orElse (getProperty categoryThresholds c)
                   (getProperty categoryThresholds (js "default")))
  = Some (thresholdOf c * 100)%Q.
Proof.
  intros Hc. unfold getProperty at 1. unfold thresholdOf.
  unfold categoryThresholds at 1. simpl ownProperty.
  rewrite !(str_eqb_sym c).
  destruct (str_eqb (js "electronics") c); [reflexivity|].
  destruct (str_eqb (js "fashion") c); [reflexivity|].
  destruct (str_eqb (js "home") c); [reflexivity|].
  destruct (str_eqb (js "food") c); [reflexivity|].
  destruct (str_eqb (js "default") c); [reflexivity|].
  fold (inherited c). rewrite Hc. reflexivity.
Qed.

Definition fakeDealVerdict (discountPercentage thresholdPercentage : Q)
  : FraudCheckResult :=
  mkFraudCheckResult true (Some "fake_deal"%string)
    (Qmin ((discountPercentage - thresholdPercentage) / 20) 0.95)
    (Some [Lit "Discount of "; Fixed discountPercentage 1;
           Lit "% exceeds category threshold of ";
           Num thresholdPercentage; Lit "%"]).

Definition discountPercentageOf (deal : Deal) : Q :=
  ((originalPrice deal - discountedPrice deal) / originalPrice deal * 100)%Q.

Lemma detectFakeDeals_verdict (engine : Engine) (deal : Deal) :
  inherited (category deal) = false ->
  let dp := discountPercentageOf deal in
  let tp := (thresholdOf (category deal) * 100)%Q in
  ((tp < dp)%Q -> (detectFakeDeals engine [deal]).1 = [fakeDealVerdict dp tp])
  /\ (~ (tp < dp)%Q -> (detectFakeDeals engine [deal]).1 = []).
Proof.
  intros Hc dp tp. unfold detectFakeDeals. simpl detectFakeDealsLoop.
  rewrite (threshold_own _ Hc). fold (discountPercentageOf deal). fold dp tp.
  destruct (Qltb tp dp) eqn:E.
  - apply Qltb_lt in E. split; [reflexivity|tauto].
  - apply Qltb_ge in E. split; [|reflexivity].
    intros H. exfalso. lra.
Qed.

Definition constructorDeal : Deal :=
  mkDeal (js "deal-1") (js "Headphones") 100 1 (js "constructor")
    (js "seller1") (js "https://shop.example/p/1") 0.

(** C7 (the code departs from it).  A deal with an original price above
    zero is to get a [fake_deal] verdict exactly when its discount percentage
    exceeds 100 times the threshold of its category, 0.85 for a category
    other than the four named.  A deal of the category [constructor] with a
    discount of 99% gets none: the threshold read for it is the function every
    object inherits under that name, and the comparison with its product by
    100, NaN, fails. *)
Theorem detectFakeDeals_inherited_category (engine : Engine) :
  (0 < originalPrice constructorDeal)%Q
  /\ (discountPercentageOf constructorDeal == 99)%Q
  /\ (thresholdOf (category constructorDeal) == 0.85)%Q
  /\ (100 * thresholdOf (category constructorDeal) < discountPercentageOf constructorDeal)%Q
  /\ (detectFakeDeals engine [constructorDeal]).1 = [].
Proof. split_and!; reflexivity. Qed.

Lemma detectCounterfeitProducts_app engine ids1 ids2 :
  detectCounterfeitProducts engine (ids1 ++ ids2)
  = detectCounterfeitProducts engine ids1 ++ detectCounterfeitProducts engine ids2.
Proof.
  induction ids1 as [|i ids1 IH]; simpl; [reflexivity|].
  destruct (sellerReputationCache engine !! i) as [seller|]; [|exact IH].
  destruct (_ || _); [|exact IH]. simpl. by rewrite IH.
Qed.

(** C8.  [detectCounterfeitProducts] goes through the seller ids one by
    one.  It emits a verdict for a seller id if and only if the seller is in
    the reputation cache with [rating < 3.5] or [reviewCount < 50]; a seller
    absent from the cache gets none; the verdict is of type
    [counterfeit_product], with confidence 0.9 if [rating < 2.5] and 0.7
    otherwise. *)
Theorem detectCounterfeitProducts_spec (engine : Engine) (sellerId : jsstring)
  (sellerIds : list jsstring) :
  detectCounterfeitProducts engine (sellerId :: sellerIds)
  = detectCounterfeitProducts engine [sellerId]
    ++ detectCounterfeitProducts engine sellerIds
  /\ ((exists v, v ∈ detectCounterfeitProducts engine [sellerId])
      <-> exists seller,
            sellerReputationCache engine !! sellerId = Some seller
            /\ ((rating seller < 3.5)%Q \/ (reviewCount seller < 50)%Q))
  /\ (sellerReputationCache engine !! sellerId = None ->
      detectCounterfeitProducts engine [sellerId] = [])
  /\ (forall v, v ∈ detectCounterfeitProducts engine [sellerId] ->
      detectCounterfeitProducts engine [sellerId] = [v]
      /\ isFraudulent v = true
      /\ fraudType v = Some "counterfeit_product"%string
      /\ exists seller,
           sellerReputationCache engine !! sellerId = Some seller
           /\ ((rating seller < 2.5)%Q -> confidence v = 0.9%Q)
           /\ (~ (rating seller < 2.5)%Q -> confidence v = 0.7%Q)).
Proof.
  split; [apply (detectCounterfeitProducts_app engine [sellerId])|].
  simpl. destruct (sellerReputationCache engine !! sellerId) as [seller|].
  - unfold RATING_THRESHOLD, REVIEW_COUNT_THRESHOLD.
    destruct (Qltb (rating seller) 3.5) eqn:E1; simpl.
    + apply Qltb_lt in E1. split_and!.
      * split; [intros _; eauto|]. intros _. eexists. apply list_elem_of_here.
      * discriminate.
      * intros v Hv. apply list_elem_of_singleton in Hv as ->.
        split_and!; try reflexivity. exists seller. split; [reflexivity|]. simpl.
        destruct (Qltb (rating seller) 2.5) eqn:E; [apply Qltb_lt in E|apply Qltb_ge in E];
          split; intros H; try reflexivity; exfalso; lra.
    + apply Qltb_ge in E1.
      destruct (Qltb (reviewCount seller) 50) eqn:E2.
      * apply Qltb_lt in E2. split_and!.
        -- split; [intros _; eauto|]. intros _. eexists. apply list_elem_of_here.
        -- discriminate.
        -- intros v Hv. apply list_elem_of_singleton in Hv as ->.
           split_and!; try reflexivity. exists seller. split; [reflexivity|]. simpl.
           destruct (Qltb (rating seller) 2.5) eqn:E; [apply Qltb_lt in E|apply Qltb_ge in E];
             split; intros H; try reflexivity; exfalso; lra.
      * apply Qltb_ge in E2. split_and!.
        -- split; [intros [v Hv]; by apply elem_of_nil in Hv|].
           intros (s & [= <-] & [H|H]); exfalso; lra.
        -- discriminate.
        -- intros v Hv. by apply elem_of_nil in Hv.
  - split_and!.
    + split; [intros [v Hv]; by apply elem_of_nil in Hv|]. by intros (s & ? & _).
    + reflexivity.
    + intros v Hv. by apply elem_of_nil in Hv.
Qed.

Definition numberBefore (a b : Q) : bool := Qltb (a - b) 0.

Lemma calculateMedian_sorted (numbers : list Q) :
  let sorted := stable_sort numberBefore numbers in
  Sorted Qle sorted /\ sorted ≡ₚ numbers.
Proof.
  split; [|apply stable_sort_perm].
  assert (H : Sorted (fun a b => numberBefore b a = false)
                (stable_sort numberBefore numbers)).
  { apply stable_sort_sorted. intros x y H.
    apply Qltb_lt in H. apply Qltb_ge. lra. }
  induction H as [|x l Hs IH Hd]; constructor; [exact IH|].
  destruct Hd as [|y l Hy]; constructor.
  apply Qltb_ge in Hy. lra.
Qed.

Definition priceManipulationVerdict (deviation medianPrice : Q) : FraudCheckResult :=
  mkFraudCheckResult true (Some "price_manipulation"%string)
    (Qmin (deviation * 2) 0.95)
    (Some [Lit "Price deviates "; Fixed (deviation * 100) 1;
           Lit "% from historical median of â‚¹"; Fixed medianPrice 2]).

(** The price check in exact arithmetic.  [detectPriceManipulation] returns
    the non-fraudulent result with confidence 0 when the product has no
    price history or fewer than 3 recorded prices.  Otherwise, with the
    median of the recorded prices (the middle of the sorted prices, or the
    mean of the two middle ones) other than zero and
    [deviation = |currentPrice - median| / median], the result is fraudulent
    if and only if [deviation > 0.3], and is then the [price_manipulation]
    verdict with confidence [min(deviation * 2, 0.95)]. *)
Lemma detectPriceManipulation_exact (engine : Engine) (productId : jsstring)
  (currentPrice : Q) :
  (priceHistoryCache engine !! productId = None ->
   detectPriceManipulation engine productId currentPrice = notFraudulent)
  /\ (forall history,
        priceHistoryCache engine !! productId = Some history ->
        length (prices history) < 3 ->
        detectPriceManipulation engine productId currentPrice = notFraudulent)
  /\ (forall history,
        priceHistoryCache engine !! productId = Some history ->
        3 <= length (prices history) ->
        let numbers := price <$> prices history in
        let medianPrice := calculateMedian numbers in
        ~ (medianPrice == 0)%Q ->
        let deviation := (Qabs (currentPrice - medianPrice) / medianPrice)%Q in
        (exists sorted,
           Sorted Qle sorted /\ sorted ≡ₚ numbers
           /\ medianPrice
              = if length numbers mod 2 =? 0
                then ((nth (length numbers / 2 - 1) sorted 0
                       + nth (length numbers / 2) sorted 0) / 2)%Q
                else nth (length numbers / 2) sorted 0%Q)
        /\ (isFraudulent (detectPriceManipulation engine productId currentPrice) = true
            <-> (0.3 < deviation)%Q)
        /\ ((0.3 < deviation)%Q ->
            detectPriceManipulation engine productId currentPrice
            = priceManipulationVerdict deviation medianPrice)
        /\ (~ (0.3 < deviation)%Q ->
            detectPriceManipulation engine productId currentPrice = notFraudulent)).
Proof.
  unfold detectPriceManipulation. split_and!.
  - by intros ->.
  - intros history -> Hlen. apply Nat.ltb_lt in Hlen. by rewrite Hlen.
  - intros history -> Hlen. cbv zeta. intros Hmed.
    set (numbers := price <$> prices history) in *.
    set (medianPrice := calculateMedian numbers) in *.
    set (deviation := (Qabs (currentPrice - medianPrice) / medianPrice)%Q).
    apply Nat.ltb_ge in Hlen. rewrite Hlen.
    unfold DEVIATION_THRESHOLD. split.
    { exists (stable_sort numberBefore numbers).
      destruct (calculateMedian_sorted numbers) as [H1 H2].
      split_and!; [exact H1|exact H2|].
      subst medianPrice. unfold calculateMedian.
      fold numberBefore. by rewrite stable_sort_length. }
    destruct (Qltb 0.3 deviation) eqn:E.
    + apply Qltb_lt in E. split_and!; [by split|reflexivity|tauto].
    + apply Qltb_ge in E. split_and!.
      * simpl. split; [discriminate|]. intros H. exfalso. lra.
      * intros H. exfalso. lra.
      * reflexivity.
Qed.

Lemma detectCounterfeitProducts_spec_witness :
  let engine := newEngine frozenClock in
  (exists seller,
     sellerReputationCache engine !! js "seller3" = Some seller
     /\ ((rating seller < 3.5)%Q \/ (reviewCount seller < 50)%Q))
  /\ exists v, v ∈ detectCounterfeitProducts engine [js "seller3"].
Proof.
  cbv zeta.
  destruct (detectCounterfeitProducts_spec (newEngine frozenClock) (js "seller3") [])
    as (_ & H & _).
  assert (Hs : exists seller,
             sellerReputationCache (newEngine frozenClock) !! js "seller3" = Some seller
             /\ ((rating seller < 3.5)%Q \/ (reviewCount seller < 50)%Q)).
  { eexists. split; [vm_compute; reflexivity|]. left. reflexivity. }
  split; [exact Hs|]. apply H, Hs.
Defined.

Lemma detectPriceManipulation_exact_witness :
  let engine := newEngine frozenClock in
  exists history,
    priceHistoryCache engine !! js "product2" = Some history
    /\ 3 <= length (prices history)
    /\ ~ (calculateMedian (price <$> prices history) == 0)%Q
    /\ isFraudulent (detectPriceManipulation engine (js "product2") 1000) = true.
Proof.
  cbv zeta.
  destruct (detectPriceManipulation_exact (newEngine frozenClock) (js "product2") 1000)
    as (_ & _ & H).
  eexists. split; [vm_compute; reflexivity|].
  assert (Hlen : 3 <=
            length (prices (mkPriceHistory (js "product2")
              [mkPricePoint 500 (-864000000); mkPricePoint 520 (-604800000);
               mkPricePoint 510 (-259200000); mkPricePoint 1500 0])))
    by (simpl; lia).
  split; [exact Hlen|].
  assert (Hmed : ~ (calculateMedian
                      (price <$> prices (mkPriceHistory (js "product2")
                         [mkPricePoint 500 (-864000000); mkPricePoint 520 (-604800000);
                          mkPricePoint 510 (-259200000); mkPricePoint 1500 0])) == 0)%Q)
    by (vm_compute; discriminate).
  split; [exact Hmed|].
  apply (H _ ltac:(vm_compute; reflexivity) Hlen Hmed). reflexivity.
Defined.

(** *** The engine *)

(** [toLowerCase] on ASCII text. *)
Definition asciiLower (s : jsstring) : jsstring :=
  (fun u => if (65 <=? u)%N && (u <=? 90)%N then (u + 32)%N else u) <$> s.


Lemma detectFakeDealsLoop_heap (deals : list Deal) :
  forall heap,
    heapOrdered anomalyCompare heap ->
    heapOrdered anomalyCompare (detectFakeDealsLoop deals heap).2.
Proof.
  induction deals as [|deal deals IH]; intros heap Hh; [exact Hh|].
  cbn [detectFakeDealsLoop].
  destruct (times100 _) as [tp|]; [|by apply IH].
  destruct (Qltb tp _); [|by apply IH].
  set (heap1 := MinHeap.insert anomalyCompare heap _).
  assert (H1 : heapOrdered anomalyCompare heap1)
    by (apply insert_correct; [apply anomaly_asym|apply anomaly_trans|exact Hh]).
  specialize (IH heap1 H1).
  by destruct (detectFakeDealsLoop deals heap1).
Qed.

(** The verdicts of [detectFakeDeals] do not depend on the heap. *)
Lemma detectFakeDealsLoop_results (deals : list Deal) :
  forall heap heap',
    (detectFakeDealsLoop deals heap).1 = (detectFakeDealsLoop deals heap').1.
Proof.
  induction deals as [|deal deals IH]; intros heap heap'; [reflexivity|].
  cbn [detectFakeDealsLoop].
  destruct (times100 _) as [tp|]; [|by apply IH].
  destruct (Qltb tp _); [|by apply IH].
  set (heap1 := MinHeap.insert anomalyCompare heap _).
  set (heap1' := MinHeap.insert anomalyCompare heap' _).
  specialize (IH heap1 heap1').
  destruct (detectFakeDealsLoop deals heap1), (detectFakeDealsLoop deals heap1').
  simpl in *. by rewrite IH.
Qed.

Section Engine.
Variable toLowerCase : jsstring -> jsstring.

(** The states an engine goes through: the one its constructor builds, then
    the ones its public methods leave.  The deals checked have an original
    price other than zero, as the model of the quotient requires. *)
Inductive reachable : Engine -> Prop :=
  | reachable_new clock : reachable (newEngine clock)
  | reachable_detectFraud engine deal sellerId :
      reachable engine ->
      ~ (originalPrice deal == 0)%Q ->
      reachable (detectFraud toLowerCase engine deal sellerId).2
  | reachable_detectFakeDeals engine deals :
      reachable engine ->
      Forall (fun deal => ~ (originalPrice deal == 0)%Q) deals ->
      reachable (detectFakeDeals engine deals).2
  | reachable_detectSuspiciousUserBehavior engine now userId action :
      reachable engine ->
      reachable (detectSuspiciousUserBehavior engine now userId action).2
  | reachable_getTopAnomalies engine count :
      reachable engine -> reachable (getTopAnomalies engine count).2
  | reachable_updateSellerReputation engine seller :
      reachable engine -> reachable (updateSellerReputation engine seller)
  | reachable_addPhishingPattern engine pattern :
      reachable engine -> reachable (addPhishingPattern toLowerCase engine pattern)
  | reachable_updatePriceHistory engine now later productId price :
      reachable engine ->
      reachable (updatePriceHistory engine now later productId price)
  | reachable_clearUserActivityCache engine :
      reachable engine -> reachable (clearUserActivityCache engine).

Lemma detectFakeDeals_heap (engine : Engine) (deals : list Deal) :
  heapOrdered anomalyCompare (anomalyHeap engine) ->
  heapOrdered anomalyCompare (anomalyHeap (detectFakeDeals engine deals).2).
Proof.
  intros Hh. unfold detectFakeDeals.
  pose proof (detectFakeDealsLoop_heap deals _ Hh).
  by destruct (detectFakeDealsLoop deals (anomalyHeap engine)).
Qed.

Lemma getTopAnomalies_heap (engine : Engine) (count : nat) :
  heapOrdered anomalyCompare (anomalyHeap engine) ->
  heapOrdered anomalyCompare (anomalyHeap (getTopAnomalies engine count).2)
  /\ anomalyHeap (getTopAnomalies engine count).2 ≡ₚ anomalyHeap engine.
Proof.
  intros Hh. unfold getTopAnomalies.
  destruct (extractLoop_correct count _ Hh) as (H1 & H2 & _).
  destruct (extractLoop count (anomalyHeap engine)) as [anomalies heap].
  simpl in *.
  destruct (insertAll_correct anomalyCompare anomaly_asym anomaly_trans
              anomalies heap H1) as [H3 H4].
  split; [exact H3|]. rewrite H4, <- H2. apply Permutation_app_comm.
Qed.

Lemma reachable_heapOrdered (engine : Engine) :
  reachable engine -> heapOrdered anomalyCompare (anomalyHeap engine).
Proof.
  induction 1; try assumption.
  - apply heapOrdered_nil.
  - unfold detectFraud.
    pose proof (detectFakeDeals_heap engine [deal] IHreachable) as Hh.
    by destruct (detectFakeDeals engine [deal]).
  - by apply detectFakeDeals_heap.
  - unfold detectSuspiciousUserBehavior.
    repeat (destruct (_ <? _)); exact IHreachable.
  - by apply getTopAnomalies_heap.
Qed.

(** C5.  The array of a [MinHeap] is private: it is empty when the heap is
    built, and changed by [insert] and [extractMin] only, which keep it in
    heap order ([insert_correct], [extractMin_correct]).  On an engine whose
    anomaly heap is in heap order, whatever it holds,
    [getTopAnomalies(count)] returns [min(count, heap size)] of the recorded
    anomalies, in order of non-increasing score, none of the anomalies left
    having a larger score than one returned; the entries extracted are
    inserted again: after the call the heap holds the same entries as
    before, each as many times, it is in heap order again, and the rest of
    the engine is as it was. *)
Theorem getTopAnomalies_spec (engine : Engine) (count : nat) :
  heapOrdered anomalyCompare (anomalyHeap engine) ->
  let anomalies := (getTopAnomalies engine count).1 in
  let after := (getTopAnomalies engine count).2 in
  length anomalies = Nat.min count (length (anomalyHeap engine))
  /\ descending anomalies
  /\ (exists rest,
        anomalyHeap engine ≡ₚ anomalies ++ rest
        /\ forall a x, a ∈ anomalies -> x ∈ rest ->
             (anomalyScore x <= anomalyScore a)%Q)
  /\ anomalyHeap after ≡ₚ anomalyHeap engine
  /\ heapOrdered anomalyCompare (anomalyHeap after)
  /\ phishingTrie after = phishingTrie engine
  /\ userActivityCache after = userActivityCache engine
  /\ sellerReputationCache after = sellerReputationCache engine
  /\ priceHistoryCache after = priceHistoryCache engine.
Proof.
  intros Hr. cbv zeta.
  destruct (getTopAnomalies_heap engine count Hr) as [Hafter Hperm].
  revert Hafter Hperm. unfold getTopAnomalies.
  destruct (extractLoop_correct count _ Hr) as (H1 & H2 & H3 & H4 & H5).
  destruct (extractLoop count (anomalyHeap engine)) as [anomalies heap].
  simpl in *. intros Hafter Hperm. split_and!; try done.
  exists heap. split; [by rewrite H2|exact H5].
Qed.

(** The trie of an engine holds the patterns registered so far. *)
Lemma newEngine_trie (clock : nat -> Z) :
  phishingTrie (newEngine clock) = trieOf (js <$> phishingPatterns).
Proof. reflexivity. Qed.

Lemma addPhishingPattern_trie (engine : Engine) (patterns : list jsstring)
  (pattern : jsstring) :
  phishingTrie engine = trieOf patterns ->
  phishingTrie (addPhishingPattern toLowerCase engine pattern)
  = trieOf (patterns ++ [toLowerCase pattern]).
Proof. intros H. unfold trieOf. rewrite foldl_app. simpl. by rewrite H. Qed.

Lemma reachable_patterns (engine : Engine) :
  reachable engine ->
  exists added, phishingTrie engine = trieOf ((js <$> phishingPatterns) ++ added).
Proof.
  induction 1 as [clock|engine deal sellerId _ IH _|engine deals _ IH _
                  |engine now userId action _ IH|engine count _ IH
                  |engine seller _ IH|engine pattern _ IH
                  |engine now later productId price _ IH|engine _ IH].
  - exists []. by rewrite app_nil_r.
  - unfold detectFraud. destruct IH as [added IH]. exists added.
    unfold detectFakeDeals.
    by destruct (detectFakeDealsLoop [deal] (anomalyHeap engine)).
  - destruct IH as [added IH]. exists added. unfold detectFakeDeals.
    by destruct (detectFakeDealsLoop deals (anomalyHeap engine)).
  - destruct IH as [added IH]. exists added.
    unfold detectSuspiciousUserBehavior. by repeat (destruct (_ <? _)).
  - destruct IH as [added IH]. exists added. unfold getTopAnomalies.
    by destruct (extractLoop count (anomalyHeap engine)).
  - exact IH.
  - destruct IH as [added IH]. exists (added ++ [toLowerCase pattern]).
    rewrite app_assoc. by apply addPhishingPattern_trie.
  - exact IH.
  - exact IH.
Qed.

Definition phishingVerdict : FraudCheckResult :=
  mkFraudCheckResult true (Some "phishing_link"%string) 0.95
    (Some [Lit "URL matches known phishing patterns"]).

Lemma detectPhishingLinks_app (engine : Engine) (urls1 urls2 : list jsstring) :
  detectPhishingLinks toLowerCase engine (urls1 ++ urls2)
  = detectPhishingLinks toLowerCase engine urls1
    ++ detectPhishingLinks toLowerCase engine urls2.
Proof.
  induction urls1 as [|u urls1 IH]; simpl; [reflexivity|].
  destruct (Trie.search _ _); simpl; by rewrite IH.
Qed.

(** C6, as the code has it.  For an engine whose trie holds the patterns
    [patterns], none with a surrogate pair: [Trie.search(text)] is true if
    and only if some pattern that is not empty is a contiguous substring of
    the text; [detectPhishingLinks] goes through the URLs one by one, and
    returns for a URL the phishing verdict (fraud type [phishing_link],
    confidence 0.95) if the lowercased URL contains such a pattern, and
    nothing if it does not. *)
Theorem detectPhishingLinks_spec (engine : Engine) (patterns : list jsstring) :
  phishingTrie engine = trieOf patterns ->
  Forall (fun p => hasSurrogatePair p = false) patterns ->
  (forall text,
     Trie.search (phishingTrie engine) text = true
     <-> exists p, p ∈ patterns /\ p <> [] /\ isSubstring p text)
  /\ (forall url urls,
        detectPhishingLinks toLowerCase engine (url :: urls)
        = detectPhishingLinks toLowerCase engine [url]
          ++ detectPhishingLinks toLowerCase engine urls)
  /\ (forall url,
        ((exists p, p ∈ patterns /\ p <> [] /\ isSubstring p (toLowerCase url)) ->
         detectPhishingLinks toLowerCase engine [url] = [phishingVerdict])
        /\ (~ (exists p, p ∈ patterns /\ p <> [] /\ isSubstring p (toLowerCase url)) ->
            detectPhishingLinks toLowerCase engine [url] = [])).
Proof.
  intros Htrie Hbmp.
  assert (Hsearch : forall text,
            Trie.search (phishingTrie engine) text = true
            <-> exists p, p ∈ patterns /\ p <> [] /\ isSubstring p text).
  { intros text. rewrite Htrie, search_trieOf. split.
    - intros (p & H1 & H2 & _ & H3). by exists p.
    - intros (p & H1 & H2 & H3). exists p. split_and!; try done.
      rewrite Forall_forall in Hbmp. by apply Hbmp. }
  split_and!; [exact Hsearch| |].
  - intros url urls. apply (detectPhishingLinks_app engine [url]).
  - intros url. simpl.
    destruct (Trie.search (phishingTrie engine) (toLowerCase url)) eqn:E.
    + split; [reflexivity|]. intros H. exfalso. by apply H, Hsearch.
    + split; [|reflexivity]. intros H%Hsearch. congruence.
Qed.
End Engine.

Definition toyDeal : Deal :=
  mkDeal (js "deal-2") (js "Robot") 100 1 (js "toys")
    (js "seller1") (js "https://shop.example/p/2") 0.

Definition foodDeal (name : string) (discountedPrice : Q) : Deal :=
  mkDeal (js name) (js "Snack") 100 discountedPrice (js "food")
    (js "seller1") (js "https://shop.example/p/3") 0.

(** Three anomalies, with scores 10, 30 and 20, and the two largest asked
    for. *)
Lemma getTopAnomalies_spec_witness :
  let deals := [foodDeal "deal-a" 30; foodDeal "deal-b" 10; foodDeal "deal-c" 20] in
  let engine := (detectFakeDeals (newEngine frozenClock) deals).2 in
  heapOrdered anomalyCompare (anomalyHeap engine)
  /\ length (anomalyHeap engine) = 3%nat
  /\ dealId <$> (getTopAnomalies engine 2).1 = [js "deal-b"; js "deal-c"]
  /\ let anomalies := (getTopAnomalies engine 2).1 in
     let after := (getTopAnomalies engine 2).2 in
     length anomalies = Nat.min 2 (length (anomalyHeap engine))
     /\ descending anomalies
     /\ (exists rest,
           anomalyHeap engine ≡ₚ anomalies ++ rest
           /\ forall a x, a ∈ anomalies -> x ∈ rest ->
                (anomalyScore x <= anomalyScore a)%Q)
     /\ anomalyHeap after ≡ₚ anomalyHeap engine
     /\ heapOrdered anomalyCompare (anomalyHeap after)
     /\ phishingTrie after = phishingTrie engine
     /\ userActivityCache after = userActivityCache engine
     /\ sellerReputationCache after = sellerReputationCache engine
     /\ priceHistoryCache after = priceHistoryCache engine.
Proof.
  cbv zeta.
  assert (H : heapOrdered anomalyCompare
                (anomalyHeap
                   (detectFakeDeals (newEngine frozenClock)
                      [foodDeal "deal-a" 30; foodDeal "deal-b" 10;
                       foodDeal "deal-c" 20]).2))
    by (apply detectFakeDeals_heap, heapOrdered_nil).
  split; [exact H|].
  split; [reflexivity|].
  split; [vm_compute; reflexivity|].
  exact (getTopAnomalies_spec _ 2 H).
Defined.

Lemma detectPhishingLinks_spec_witness :
  let engine := newEngine frozenClock in
  let patterns := js <$> phishingPatterns in
  phishingTrie engine = trieOf patterns
  /\ Forall (fun p => hasSurrogatePair p = false) patterns
  /\ (forall text,
        Trie.search (phishingTrie engine) text = true
        <-> exists p, p ∈ patterns /\ p <> [] /\ isSubstring p text)
  /\ detectPhishingLinks asciiLower engine [js "http://AMAZOM.com/deal"]
     = [phishingVerdict].
Proof.
  assert (H1 : phishingTrie (newEngine frozenClock) = trieOf (js <$> phishingPatterns))
    by reflexivity.
  assert (H2 : Forall (fun p => hasSurrogatePair p = false) (js <$> phishingPatterns))
    by (repeat constructor).
  pose proof (detectPhishingLinks_spec asciiLower (newEngine frozenClock)
                (js <$> phishingPatterns) H1 H2) as (H3 & _ & H4).
  split_and!; [exact H1|exact H2|exact H3|].
  apply H4. exists (js "amazom.com"). split_and!.
  - vm_compute. repeat ((by apply list_elem_of_here) || apply list_elem_of_further).
  - discriminate.
  - exists (js "http://"), (js "/deal"). reflexivity.
Defined.

(** C6 as stated fails on the empty pattern: it is a substring of every
    text, and no search finds it. *)
Lemma search_misses_empty_pattern :
  let patterns : list jsstring := [[]] in
  let text := js "https://shop.example/" in
  let engine := addPhishingPattern asciiLower (newEngine frozenClock) [] in
  ~ (Trie.search (trieOf patterns) text = true
     <-> exists p, p ∈ patterns /\ isSubstring p text)
  /\ isSubstring (asciiLower []) (asciiLower text)
  /\ detectPhishingLinks asciiLower engine [text] = [].
Proof.
  cbv zeta. split_and!.
  - intros [_ H]. assert (Hs : Trie.search (trieOf [[]]) (js "https://shop.example/") = true).
    { apply H. exists []. split; [apply list_elem_of_here|].
      exists [], (js "https://shop.example/"). reflexivity. }
    vm_compute in Hs. discriminate.
  - exists [], (asciiLower (js "https://shop.example/")). reflexivity.
  - vm_compute. reflexivity.
Qed.

(** A pattern with a character outside the BMP is stored under its surrogate
    pair and never found. *)
Example search_misses_surrogate_pair :
  let grin : jsstring := [0xD83D; 0xDE00]%N in
  isSubstring grin (js "win" ++ grin)
  /\ Trie.search (trieOf [grin]) (js "win" ++ grin) = false.
Proof. split; [exists (js "win"), []; reflexivity|vm_compute; reflexivity]. Qed.

End FraudDetectionEngineFacts.

(** ** The price check in double precision *)

Module Binary64Facts.
Import PrimFloat FloatOps SpecFloat FloatAxioms Binary64.

(** The rational that a finite binary64 number is. *)
Definition exact (x : float) : Q :=
  match Prim2SF x with
  | S754_finite s m e => ((if s then -1 else 1) * inject_Z (Z.pos m) * Qpower 2 e)%Q
  | _ => 0%Q
  end.

Definition finite (x : float) : bool :=
  match Prim2SF x with
  | S754_zero _ | S754_finite _ _ _ => true
  | _ => false
  end.


Definition priceManipulationVerdict (deviation medianPrice : float)
  : FraudCheckResult :=
  mkFraudCheckResult true (Some "price_manipulation"%string)
    (Math_min (deviation * 2) 0.95)
    (Some [Lit "Price deviates "; Fixed (deviation * 100) 1;
           Lit "% from historical median of â‚¹"; Fixed medianPrice 2]).

Definition historyOf (productId : jsstring) (recorded : list float) : PriceHistory :=
  mkPriceHistory productId ((fun x => mkPricePoint x 0) <$> recorded).

(** *** The order of the comparator *)

(** Rounding keeps the sign: a rounded number below zero was negative. *)
Lemma binary_round_below_zero (s : bool) (m : positive) (e : Z) :
  SFltb (binary_round prec emax s m e) (S754_zero false) = true -> s = true.
Proof.
  unfold binary_round, binary_round_aux.
  destruct (shl_align _ _ _) as [mz ez].
  destruct (shr_fexp _ _ _ _ _) as [mrs' e'].
  destruct (shr_fexp _ _ _ _ _) as [mrs'' e''].
  destruct (shr_m mrs''); [by destruct s| |done].
  destruct (_ <=? _)%Z; by destruct s.
Qed.

Lemma binary_normalize_below_zero (m e : Z) :
  SFltb (binary_normalize prec emax m e false) (S754_zero false) = true ->
  (m < 0)%Z.
Proof.
  destruct m as [|p|p]; simpl; [done| |lia].
  intros H%binary_round_below_zero. discriminate.
Qed.

(** The comparator [(a, b) => a - b] never puts each of two numbers before
    the other. *)
Lemma compare_asym (x y : float) :
  (x - y <? 0)%float = true -> (y - x <? 0)%float = false.
Proof.
  rewrite !ltb_spec, !sub_spec. change (Prim2SF 0) with (S754_zero false).
  unfold SF64sub.
  destruct (Prim2SF x) as [sx|sx| |sx mx ex], (Prim2SF y) as [sy|sy| |sy my ey];
    try done; try (by destruct sx); try (by destruct sy);
    try (by destruct sx, sy).
  unfold SFsub. rewrite (Z.min_comm ey ex).
  set (ez := Z.min ex ey).
  set (a := cond_Zopp sx (Z.pos (shl_align mx ex ez).1)).
  set (b := cond_Zopp sy (Z.pos (shl_align my ey ez).1)).
  intros H%binary_normalize_below_zero.
  apply not_true_is_false. intros H'%binary_normalize_below_zero. lia.
Qed.

(** [sortStable] returns the numbers it is given, in the order of the
    comparator: no number is followed by one that the comparator puts
    before it. *)
Lemma sortStable_spec (numbers : list float) :
  let sorted := sortStable (fun a b => (a - b)%float) numbers in
  sorted ≡ₚ numbers
  /\ Sorted (fun a b => (b - a <? 0)%float = false) sorted.
Proof.
  split; [apply stable_sort_perm|].
  apply (stable_sort_sorted (fun a b => (a - b <? 0)%float) compare_asym).
Qed.

(** *** Division by a zero median *)




(** *** The verdict *)



(** The deviation is the rounded one.  The recorded prices 15, 15.9, 16.1
    and 17 have the median 16, and the current price is 20.8: the code
    computes the deviation 0.30000000000000004 and returns the verdict, with
    confidence 0.6000000000000001, while the quotient of the same numbers in
    exact arithmetic is not greater than 0.3. *)
Example detectPriceManipulation_rounds :
  let recorded := [15; 15.9; 16.1; 17]%float in
  let currentPrice := 20.8%float in
  let cache : gmap jsstring PriceHistory :=
    {[ js "product" := historyOf (js "product") recorded ]} in
  let result := detectPriceManipulation sortStable cache (js "product") currentPrice in
  isFraudulent result = true
  /\ confidence result = 0.6000000000000001%float
  /\ calculateMedian sortStable recorded = 16%float
  /\ (abs (currentPrice - 16) / 16)%float = 0.30000000000000004%float
  /\ forallb finite (currentPrice :: recorded) = true
  /\ let medianPrice := FraudDetectionEngine.calculateMedian (exact <$> recorded) in
     ~ (medianPrice == 0)%Q
     /\ ~ (0.3 < Qabs (exact currentPrice - medianPrice) / medianPrice)%Q.
Proof.
  cbv zeta. split_and!; try (vm_compute; reflexivity).
  - vm_compute. discriminate.
  - intros H. vm_compute in H. discriminate.
Qed.

End Binary64Facts.

(** ** State between calls *)

Module StateFacts.
Import FraudDetectionEngine FraudDetectionEngineFacts.

(** The five operations of the fraud engine named in the claim, with their
    arguments. *)
Inductive call :=
  | DetectFraud (deal : Deal) (sellerId : option jsstring)
  | DetectFakeDeals (deals : list Deal)
  | DetectSuspiciousUserBehavior (now : Z) (userId action : jsstring)
  | GetTopAnomalies (count : nat).

Section History.
Variable toLowerCase : jsstring -> jsstring.

(** The engine after a call. *)
Definition perform (engine : Engine) (c : call) : Engine :=
  match c with
  | DetectFraud deal sellerId => (detectFraud toLowerCase engine deal sellerId).2
  | DetectFakeDeals deals => (detectFakeDeals engine deals).2
  | DetectSuspiciousUserBehavior now userId action =>
      (detectSuspiciousUserBehavior engine now userId action).2
  | GetTopAnomalies count => (getTopAnomalies engine count).2
  end.

(** The tables the five operations only read. *)
Definition sameTables (e e' : Engine) : Prop :=
  phishingTrie e = phishingTrie e'
  /\ sellerReputationCache e = sellerReputationCache e'
  /\ priceHistoryCache e = priceHistoryCache e'.

Lemma detectFakeDeals_tables (engine : Engine) (deals : list Deal) :
  sameTables (detectFakeDeals engine deals).2 engine.
Proof.
  unfold detectFakeDeals. by destruct (detectFakeDealsLoop deals (anomalyHeap engine)).
Qed.

Lemma perform_tables (engine : Engine) (c : call) :
  sameTables (perform engine c) engine.
Proof.
  destruct c as [deal sellerId|deals|now userId action|count]; simpl.
  - unfold detectFraud.
    pose proof (detectFakeDeals_tables engine [deal]).
    by destruct (detectFakeDeals engine [deal]).
  - apply detectFakeDeals_tables.
  - unfold detectSuspiciousUserBehavior. by repeat (destruct (_ <? _)).
  - unfold getTopAnomalies. by destruct (extractLoop count (anomalyHeap engine)).
Qed.

Lemma performAll_tables (calls : list call) :
  forall engine, sameTables (foldl perform engine calls) engine.
Proof.
  induction calls as [|c calls IH]; intros engine; simpl; [done|].
  destruct (IH (perform engine c)) as (H1 & H2 & H3).
  destruct (perform_tables engine c) as (H4 & H5 & H6).
  unfold sameTables. by rewrite H1, H2, H3.
Qed.

Lemma detectFakeDeals_results (e e' : Engine) (deals : list Deal) :
  (detectFakeDeals e deals).1 = (detectFakeDeals e' deals).1.
Proof.
  unfold detectFakeDeals.
  pose proof (detectFakeDealsLoop_results deals (anomalyHeap e) (anomalyHeap e')).
  by destruct (detectFakeDealsLoop deals (anomalyHeap e)),
       (detectFakeDealsLoop deals (anomalyHeap e')).
Qed.

Lemma detectCounterfeitProducts_tables (e e' : Engine) (sellerIds : list jsstring) :
  sellerReputationCache e = sellerReputationCache e' ->
  detectCounterfeitProducts e sellerIds = detectCounterfeitProducts e' sellerIds.
Proof.
  intros H. induction sellerIds as [|i sellerIds IH]; simpl; [reflexivity|].
  by rewrite H, IH.
Qed.

Lemma detectPhishingLinks_tables (e e' : Engine) (urls : list jsstring) :
  phishingTrie e = phishingTrie e' ->
  detectPhishingLinks toLowerCase e urls = detectPhishingLinks toLowerCase e' urls.
Proof.
  intros H. induction urls as [|u urls IH]; simpl; [reflexivity|].
  by rewrite H, IH.
Qed.

Lemma detectFraud_results (e e' : Engine) (deal : Deal) (sellerId : option jsstring) :
  sameTables e e' ->
  (detectFraud toLowerCase e deal sellerId).1
  = (detectFraud toLowerCase e' deal sellerId).1.
Proof.
  intros (H1 & H2 & H3). unfold detectFraud.
  pose proof (detectFakeDeals_results e e' [deal]) as Hr.
  destruct (detectFakeDeals_tables e [deal]) as (H4 & H5 & H6).
  destruct (detectFakeDeals_tables e' [deal]) as (H7 & H8 & H9).
  destruct (detectFakeDeals e [deal]) as [r1 e1], (detectFakeDeals e' [deal]) as [r2 e2].
  cbn [fst snd] in *. subst r2.
  rewrite (detectPhishingLinks_tables e1 e2) by congruence.
  unfold detectPriceManipulation.
  replace (priceHistoryCache e1) with (priceHistoryCache e2) by congruence.
  destruct sellerId as [[|u s]|]; try reflexivity.
  by rewrite (detectCounterfeitProducts_tables e1 e2) by congruence.
Qed.

(** C3, as the code has it.  The engines keep state between calls, and each
    result is read from the arguments and from one part of that state:
    [detectFakeDeals] reads none, and [detectFraud] only the tables that none
    of the five operations writes, so both return the same whether or not
    any of the five operations ran before; [getTopAnomalies] reads the
    anomaly heap, [detectSuspiciousUserBehavior] the timestamps recorded for
    the user (and the clock), and [optimize] the memo entry under the cache
    key of the call (and the clock). *)
Theorem results_read_state :
  (forall calls engine deals,
     (detectFakeDeals (foldl perform engine calls) deals).1
     = (detectFakeDeals engine deals).1)
  /\ (forall calls engine deal sellerId,
        (detectFraud toLowerCase (foldl perform engine calls) deal sellerId).1
        = (detectFraud toLowerCase engine deal sellerId).1)
  /\ (forall e e' count,
        anomalyHeap e = anomalyHeap e' ->
        (getTopAnomalies e count).1 = (getTopAnomalies e' count).1)
  /\ (forall e e' now userId action,
        userActivityCache e !! userId = userActivityCache e' !! userId ->
        (detectSuspiciousUserBehavior e now userId action).1
        = (detectSuspiciousUserBehavior e' now userId action).1)
  /\ (forall clock memo memo' basePrice deals constraints,
        let key := StackOptimizer.getCacheKey basePrice deals constraints in
        StackOptimizer.memoGet key memo = StackOptimizer.memoGet key memo' ->
        StackOptimizer.result <$> StackOptimizer.optimize clock memo basePrice deals constraints
        = StackOptimizer.result <$> StackOptimizer.optimize clock memo' basePrice deals constraints).
Proof.
  split_and!.
  - intros calls engine deals. apply detectFakeDeals_results.
  - intros calls engine deal sellerId. apply detectFraud_results, performAll_tables.
  - intros e e' count H. unfold getTopAnomalies. rewrite H.
    by destruct (extractLoop count (anomalyHeap e')).
  - intros e e' now userId action H. unfold detectSuspiciousUserBehavior.
    rewrite H. by repeat (destruct (_ <? _)).
  - intros clock memo memo' basePrice deals constraints key H.
    unfold StackOptimizer.optimize. fold key. rewrite H.
    destruct (StackOptimizer.memoGet key memo'); [reflexivity|].
    destruct (StackOptimizer.branchAndBound _ _ _ _ _ _ _) as [[best tick]|];
      [|reflexivity].
    by destruct (if Qltb 0 (StackOptimizer.totalSavings best) then _ else _).
Qed.
End History.

Lemma results_read_state_witness :
  let engine := newEngine frozenClock in
  let calls := [DetectFakeDeals [toyDeal]; GetTopAnomalies 1;
                DetectSuspiciousUserBehavior 0 (js "u1") (js "click")] in
  (detectFakeDeals (foldl (perform asciiLower) engine calls) [toyDeal]).1
  = (detectFakeDeals engine [toyDeal]).1
  /\ (detectFraud asciiLower (foldl (perform asciiLower) engine calls) toyDeal
        (Some (js "seller3"))).1
     = (detectFraud asciiLower engine toyDeal (Some (js "seller3"))).1
  /\ (getTopAnomalies (clearUserActivityCache engine) 1).1
     = (getTopAnomalies engine 1).1.
Proof.
  destruct (results_read_state asciiLower) as (H1 & H2 & H3 & _).
  split_and!; [apply H1|apply H2|apply H3; reflexivity].
Defined.

(** C3 as stated fails: the same call returns something else after other
    calls.  [getTopAnomalies(1)] returns nothing on a new engine and an
    anomaly once [detectFakeDeals] has met a fake deal; [optimize], on a
    price of 100 and a cashback of 50 with the deal id B, returns that deal
    on a new optimizer, and the result cached for an earlier list with the
    same id once that list has been optimized. *)
Lemma engines_keep_state :
  let engine := newEngine frozenClock in
  let dealB' := StackOptimizerFacts.fixedDeal "B" StackOptimizer.cashback 50%Q in
  let optimize := StackOptimizer.optimize frozenClock in
  (getTopAnomalies engine 1).1
  <> (getTopAnomalies (detectFakeDeals engine [toyDeal]).2 1).1
  /\ (exists first,
        optimize [] 100%Q [StackOptimizerFacts.dealB] StackOptimizer.no_constraints = Some first
        /\ StackOptimizer.result <$> optimize [] 100%Q [dealB'] StackOptimizer.no_constraints
           <> StackOptimizer.result
                <$> optimize (StackOptimizer.memoAfter first) 100%Q [dealB']
                      StackOptimizer.no_constraints).
Proof.
  cbv zeta. split.
  - vm_compute. discriminate.
  - eexists. split; [vm_compute; reflexivity|]. vm_compute. discriminate.
Qed.
End StateFacts.

(** * Further properties *)

(** ** Lists *)

Lemma forallb_pointwise {A} (f g : A -> bool) (l : list A) :
  (forall x, f x = g x) -> forallb f l = forallb g l.
Proof. intros H. induction l as [|x l IH]; simpl; [done|]. by rewrite H, IH. Qed.

Lemma Sorted_weaken {A} (R S : A -> A -> Prop) (l : list A) :
  (forall a b, R a b -> S a b) -> Sorted R l -> Sorted S l.
Proof.
  intros H. induction 1 as [|a l Hs IH Hd]; constructor; [exact IH|].
  destruct Hd as [|b l Hb]; constructor. by apply H.
Qed.

Lemma sublist_List_filter {A} (f : A -> bool) (l : list A) :
  sublist (List.filter f l) l.
Proof.
  induction l as [|x l IH]; simpl; [constructor|].
  destruct (f x); by constructor.
Qed.

Lemma List_filter_perm {A} (f : A -> bool) (l l' : list A) :
  l ≡ₚ l' -> List.filter f l ≡ₚ List.filter f l'.
Proof.
  induction 1 as [|x l l' _ IH|x y l|l l' l'' _ IH1 _ IH2]; simpl.
  - done.
  - destruct (f x); [by constructor|exact IH].
  - destruct (f x), (f y); try done. apply Permutation_swap.
  - by etrans.
Qed.

Lemma Forall_of_sublist {A} (P : A -> Prop) (l l' : list A) :
  sublist l l' -> Forall P l' -> Forall P l.
Proof.
  intros Hs H. rewrite Forall_forall in *. intros x Hx. apply H.
  eapply elem_of_submseteq; [exact Hx|]. by apply sublist_submseteq.
Qed.

Lemma List_filter_all {A} (f : A -> bool) (l : list A) :
  (forall x, In x l -> f x = true) -> List.filter f l = l.
Proof.
  induction l as [|x l IH]; intros H; simpl; [done|].
  rewrite (H x) by by left. f_equal. apply IH. intros y Hy. apply H. by right.
Qed.

Lemma List_filter_length {A} (f : A -> bool) (l : list A) :
  length (List.filter f l) <= length l.
Proof. induction l as [|x l IH]; simpl; [lia|]. destruct (f x); simpl; lia. Qed.

Module StackOptimizerProperties.
Import StackOptimizer StackOptimizerFacts.

(** ** Stacking rules *)

Lemma DealType_eqb_eq (a b : DealType) : DealType_eqb a b = true <-> a = b.
Proof. destruct a, b; simpl; split; congruence. Qed.

Lemma DealType_eqb_sym (a b : DealType) : DealType_eqb a b = DealType_eqb b a.
Proof. by destruct a, b. Qed.

Lemma canStackDeal_sym (a b : Deal) : canStackDeal a [b] = canStackDeal b [a].
Proof.
  unfold canStackDeal. simpl. rewrite !andb_true_r.
  rewrite (DealType_eqb_sym (type a) (type b)).
  destruct (DealType_eqb (type b) (type a)) eqn:E.
  - apply DealType_eqb_eq in E. rewrite E.
    destruct (stackable a), (stackable b), (stacksWith a), (stacksWith b);
      simpl; try reflexivity;
      repeat match goal with |- context [includes ?l ?t] => destruct (includes l t) end;
      reflexivity.
  - destruct (stackable a), (stackable b), (stacksWith a), (stacksWith b);
      simpl; try reflexivity;
      repeat match goal with |- context [includes ?l ?t] => destruct (includes l t) end;
      reflexivity.
Qed.

Lemma canStackDeal_cons (deal existing : Deal) (others : list Deal) :
  canStackDeal deal (existing :: others)
  = forallb (fun e => canStackDeal deal [e]) (existing :: others).
Proof.
  unfold canStackDeal. cbn [length Nat.ltb Nat.leb andb].
  replace (0 <? S (length others)) with true by done.
  destruct (stackable deal); cbn [negb andb].
  - apply forallb_pointwise. intros e. cbn [forallb]. by rewrite andb_true_r.
  - reflexivity.
Qed.

(** X1.  Whether a deal can be stacked is decided pair by pair, and the
    answer for a pair does not depend on which of the two came first. *)
Theorem canStackDeal_pairwise (deal existing : Deal) (others : list Deal) :
  canStackDeal deal [existing] = canStackDeal existing [deal]
  /\ canStackDeal deal (existing :: others)
     = forallb (fun e => canStackDeal e [deal]) (existing :: others).
Proof.
  split; [apply canStackDeal_sym|].
  rewrite canStackDeal_cons. apply forallb_pointwise. intros e. apply canStackDeal_sym.
Qed.

Fixpoint allCompatible (l : list Deal) : Prop :=
  match l with
  | [] => True
  | d :: l' => Forall (fun e => canStackDeal e [d] = true) l' /\ allCompatible l'
  end.

Lemma stackableFrom_cons (stack : list Deal) :
  forall e existing,
    stackableFrom (e :: existing) stack = true
    <-> Forall (fun d => Forall (fun x => canStackDeal d [x] = true) (e :: existing)) stack
        /\ allCompatible stack.
Proof.
  induction stack as [|d stack IH]; intros e existing; simpl.
  - split; [intros _; split; [constructor|exact I]|done].
  - rewrite andb_true_iff, canStackDeal_cons.
    change (e :: existing ++ [d]) with ((e :: existing) ++ [d]).
    rewrite (IH e (existing ++ [d])). clear IH.
    rewrite Forall_cons.
    assert (H : forallb (fun x => canStackDeal d [x]) (e :: existing) = true
                <-> Forall (fun x => canStackDeal d [x] = true) (e :: existing)).
    { by rewrite forallb_forall, List.Forall_forall. }
    rewrite H. clear H.
    assert (H : Forall (fun d0 => Forall (fun x => canStackDeal d0 [x] = true)
                                    (e :: existing ++ [d])) stack
                <-> Forall (fun d0 => Forall (fun x => canStackDeal d0 [x] = true)
                                        (e :: existing)) stack
                    /\ Forall (fun e0 => canStackDeal e0 [d] = true) stack).
    { rewrite <- Forall_and. apply Forall_iff. intros x.
      change (e :: existing ++ [d]) with ((e :: existing) ++ [d]).
      rewrite Forall_app, Forall_singleton. done. }
    rewrite H. tauto.
Qed.

Lemma stackableFrom_nil (stack : list Deal) :
  stackableFrom [] stack = true <-> allCompatible stack.
Proof.
  destruct stack as [|d stack]; [done|].
  change (stackableFrom [] (d :: stack))
    with (canStackDeal d [] && stackableFrom [d] stack).
  replace (canStackDeal d []) with true
    by (unfold canStackDeal; simpl; by rewrite andb_false_r).
  cbn [andb allCompatible]. rewrite stackableFrom_cons. split.
  - intros [H1 H2]. split; [|exact H2].
    eapply Forall_impl; [exact H1|]. intros x Hx. simpl.
    simpl in Hx. by inversion Hx.
  - intros [H1 H2]. split; [|exact H2].
    eapply Forall_impl; [exact H1|]. intros x Hx. simpl.
    by repeat constructor.
Qed.

Lemma allCompatible_perm (l l' : list Deal) :
  l ≡ₚ l' -> allCompatible l -> allCompatible l'.
Proof.
  induction 1 as [|x l l' Hp IH|x y l|l l' l'' _ IH1 _ IH2]; simpl.
  - done.
  - intros [H1 H2]. split; [by rewrite <- Hp|by apply IH].
  - intros (H1 & H2 & H3). apply Forall_cons in H1 as [Hxy H1].
    split_and!; [|exact H1|exact H3].
    constructor; [by rewrite canStackDeal_sym|exact H2].
  - auto.
Qed.

(** X2.  Whether the deals of a stack can be combined does not depend on the
    order in which they are stacked. *)
Theorem stackable_in_any_order (stack stack' : list Deal) :
  stack ≡ₚ stack' -> stackableFrom [] stack = stackableFrom [] stack'.
Proof.
  intros Hp.
  destruct (stackableFrom [] stack) eqn:E, (stackableFrom [] stack') eqn:E';
    try reflexivity.
  - apply stackableFrom_nil in E. apply (allCompatible_perm _ _ Hp) in E.
    apply stackableFrom_nil in E. congruence.
  - apply stackableFrom_nil in E'. symmetry in Hp.
    apply (allCompatible_perm _ _ Hp) in E'.
    apply stackableFrom_nil in E'. congruence.
Qed.

Lemma stackable_in_any_order_witness :
  [dealA; dealB] ≡ₚ [dealB; dealA]
  /\ stackableFrom [] [dealA; dealB] = stackableFrom [] [dealB; dealA].
Proof.
  assert (H : [dealA; dealB] ≡ₚ [dealB; dealA]) by apply Permutation_swap.
  split; [exact H|].
  exact (stackable_in_any_order [dealA; dealB] [dealB; dealA] H).
Defined.

(** ** The order in which the deals are tried *)

(** [a] is tried before [b]: a higher priority, or the same priority and at
    least the value at the base price. *)
Definition dealOrder (basePrice : Q) (a b : Deal) : Prop :=
  (priority b < priority a)%Q
  \/ ((priority a == priority b)%Q
      /\ (calculateDealValue basePrice b basePrice
          <= calculateDealValue basePrice a basePrice)%Q).

Lemma dealOrder_trans (basePrice : Q) : Transitive (dealOrder basePrice).
Proof.
  intros a b c [H1|[H1 H1']] [H2|[H2 H2']]; unfold dealOrder.
  - left. lra.
  - left. lra.
  - left. lra.
  - right. split; lra.
Qed.

Lemma sortCompare_order (basePrice : Q) (a b : Deal) :
  Qltb (sortCompare basePrice b a) 0 = false -> dealOrder basePrice a b.
Proof.
  intros H. apply Qltb_ge in H. unfold sortCompare in H. unfold dealOrder.
  destruct (Qeq_bool (priority b) (priority a)) eqn:E; simpl in H.
  - apply Qeq_bool_iff in E. right. split; [by symmetry|lra].
  - apply Qeq_bool_neq in E. left.
    destruct (Qlt_le_dec (priority b) (priority a)) as [Hlt|Hle]; [exact Hlt|].
    exfalso. apply E. lra.
Qed.

Lemma sortCompare_asym (basePrice : Q) (a b : Deal) :
  Qltb (sortCompare basePrice a b) 0 = true ->
  Qltb (sortCompare basePrice b a) 0 = false.
Proof.
  intros H. apply Qltb_lt in H. apply Qltb_ge. unfold sortCompare in *.
  destruct (Qeq_bool (priority a) (priority b)) eqn:E; simpl in H.
  - apply Qeq_bool_iff in E.
    assert (E' : Qeq_bool (priority b) (priority a) = true)
      by (apply Qeq_bool_iff; by symmetry).
    rewrite E'. simpl. lra.
  - assert (E' : Qeq_bool (priority b) (priority a) = false).
    { destruct (Qeq_bool (priority b) (priority a)) eqn:E'; [|done].
      apply Qeq_bool_iff in E'. apply Qeq_bool_neq in E. exfalso. apply E.
      by symmetry. }
    rewrite E'. simpl. lra.
Qed.

(** X3.  [sortDeals] keeps the deals, and puts them by priority, highest
    first, and among deals of one priority by their value at the base
    price, highest first. *)
Theorem sortDeals_sorted (deals : list Deal) (basePrice : Q) :
  sortDeals deals basePrice ≡ₚ deals
  /\ StronglySorted (dealOrder basePrice) (sortDeals deals basePrice).
Proof.
  split; [apply stable_sort_perm|].
  apply Sorted_StronglySorted; [apply dealOrder_trans|].
  unfold sortDeals.
  eapply Sorted_weaken;
    [|apply stable_sort_sorted; exact (sortCompare_asym basePrice)].
  intros a b. apply sortCompare_order.
Qed.

(** ** The bound *)

Lemma applyDeal_proper (p p' : Q) (deal : Deal) (b b' : Q) :
  (p == p')%Q -> (applyDeal p deal b == applyDeal p' deal b')%Q.
Proof.
  intros E. unfold applyDeal.
  assert (Hc : forall m, Qltb p m = Qltb p' m).
  { intros m. destruct (Qltb p m) eqn:H1, (Qltb p' m) eqn:H2; try reflexivity.
    - apply Qltb_lt in H1. apply Qltb_ge in H2. lra.
    - apply Qltb_lt in H2. apply Qltb_ge in H1. lra. }
  assert (Hd : (Qmax 0 (p - match valueType deal with
                             | percentage =>
                                 let discount := (p * (value deal / 100))%Q in
                                 match truthy (maxDiscount deal) with
                                 | Some m => Qmin discount m
                                 | None => discount
                                 end
                             | fixed => value deal
                             end)
               == Qmax 0 (p' - match valueType deal with
                               | percentage =>
                                   let discount := (p' * (value deal / 100))%Q in
                                   match truthy (maxDiscount deal) with
                                   | Some m => Qmin discount m
                                   | None => discount
                                   end
                               | fixed => value deal
                               end))%Q).
  { destruct (valueType deal); cbv zeta;
      [destruct (truthy (maxDiscount deal))|]; by rewrite E. }
  destruct (truthy (minPurchase deal)) as [m|]; [rewrite Hc|exact Hd].
  destruct (Qltb p' m); [exact E|exact Hd].
Qed.

Definition applyAll (currentPrice : Q) (price : Q) (rest : list Deal) : Q :=
  foldl (fun price deal => applyDeal price deal currentPrice) price rest.

Lemma applyAll_proper (cp : Q) (rest : list Deal) :
  forall x y, (x == y)%Q -> (applyAll cp x rest == applyAll cp y rest)%Q.
Proof.
  induction rest as [|d rest IH]; intros x y E; simpl; [exact E|].
  apply IH. by apply applyDeal_proper.
Qed.

Lemma applyAll_range (cp : Q) (rest : list Deal) :
  forall x, (0 <= x)%Q -> Forall nonNegative rest ->
    (0 <= applyAll cp x rest <= x)%Q.
Proof.
  induction rest as [|d rest IH]; intros x Hx Hr; simpl; [lra|].
  apply Forall_cons in Hr as [Hd Hr].
  pose proof (applyDeal_nonneg x d cp Hx) as H1.
  pose proof (applyDeal_le x d cp Hd Hx) as H2.
  specialize (IH _ H1 Hr). unfold applyAll in *. simpl. lra.
Qed.

Lemma boundLoop_spec (cp : Q) (rest : list Deal) :
  forall bound price, (0 <= price)%Q -> Forall nonNegative rest ->
    (boundLoop rest bound price cp == bound + price - applyAll cp price rest)%Q.
Proof.
  induction rest as [|d rest IH]; intros bound price Hp Hr; simpl; [lra|].
  apply Forall_cons in Hr as [Hd Hr].
  unfold calculateDealValue.
  pose proof (applyDeal_nonneg price d cp Hp) as H1.
  assert (E : (price - (price - applyDeal price d cp) == applyDeal price d cp)%Q)
    by lra.
  destruct (Qle_bool _ 0) eqn:Hle.
  - apply Qle_bool_iff in Hle.
    pose proof (applyAll_range cp rest _ H1 Hr) as H2.
    pose proof (applyAll_proper cp rest _ _ E) as H3.
    assert (H4 : (price - (price - applyDeal price d cp) == 0)%Q) by lra.
    pose proof (applyAll_range cp rest 0 ltac:(lra) Hr) as H5.
    pose proof (applyAll_proper cp rest _ _ H4) as H6.
    unfold applyAll in *. simpl. lra.
  - rewrite IH; [|lra|exact Hr].
    pose proof (applyAll_proper cp rest _ _ E) as H2. unfold applyAll in *.
    simpl. lra.
Qed.



(** ** What a search returns *)

(** An invariant of the search: [N] holds of the nodes on the stack and [B]
    of the best result so far. *)
Section SearchInvariant.
Variables (basePrice : Q) (deals : list Deal) (maxDeals : Q).
Variables (startTime : Z) (timeLimit : Q) (clock : nat -> Z).
Variables (N : Node -> Prop) (B : StackResult -> Prop).

Hypothesis N_excluded : forall node,
  N node ->
  N {| index := index node + 1; currentDeals := currentDeals node;
       currentPrice := currentPrice node; bound := bound node |}.

Hypothesis N_included : forall node deal,
  N node ->
  N {| index := index node + 1; currentDeals := currentDeals node ++ [deal];
       currentPrice := applyDeal (currentPrice node) deal basePrice;
       bound := calculateBound (applyDeal (currentPrice node) deal basePrice)
                  deals (index node + 1) |}.

Hypothesis B_better : forall node best deal,
  N node -> B best ->
  Qltb (totalSavings best)
    (basePrice - applyDeal (currentPrice node) deal basePrice) = true ->
  B (mkStackResult (currentDeals node ++ [deal])
       (basePrice - applyDeal (currentPrice node) deal basePrice)
       (applyDeal (currentPrice node) deal basePrice)
       (generateBreakdown basePrice (currentDeals node ++ [deal])) None None).

Hypothesis B_warned : forall best w, B best -> B (setWarnings best w).

Lemma visit_invariant (node : Node) (best : StackResult) :
  N node -> B best ->
  B (visit basePrice deals maxDeals node best).2
  /\ Forall N (visit basePrice deals maxDeals node best).1.
Proof.
  intros Hn Hb. unfold visit.
  destruct (Qle_bool (bound node) (totalSavings best)); simpl;
    [split; [exact Hb|constructor]|].
  set (inc := if (index node <? length deals) && _ then _ else _).
  assert (Hinc : B inc.2 /\ Forall N inc.1).
  { subst inc.
    destruct ((index node <? length deals) && _); simpl;
      [|split; [exact Hb|constructor]].
    destruct (deals !! index node) as [deal|]; simpl;
      [|split; [exact Hb|constructor]].
    destruct (canStackDeal deal (currentDeals node)); simpl;
      [|split; [exact Hb|constructor]].
    split.
    - destruct (Qltb (totalSavings best) _) eqn:E; [|exact Hb].
      by apply (B_better node best).
    - destruct (index node + 1 <? length deals); [|constructor].
      constructor; [by apply N_included|constructor]. }
  destruct Hinc as [H1 H2]. split; [exact H1|].
  apply Forall_app. split; [exact H2|].
  destruct (index node + 1 <? length deals); [|constructor].
  constructor; [by apply N_excluded|constructor].
Qed.

Lemma bbLoop_invariant (fuel : nat) :
  forall (stack : list Node) (best : StackResult) (tick : nat) out,
    Forall N stack -> B best ->
    bbLoop basePrice deals maxDeals startTime timeLimit clock fuel stack best tick
    = Some out ->
    B out.1.
Proof.
  induction fuel as [|fuel IH]; intros stack best tick out Hs Hb;
    destruct stack as [|node rest]; simpl.
  - intros [= <-]. exact Hb.
  - destruct (inTime _ _ _ _); [discriminate|]. intros [= <-]. exact Hb.
  - intros [= <-]. exact Hb.
  - destruct (inTime _ _ _ _); [|intros [= <-]; exact Hb].
    apply Forall_cons in Hs as [Hn Hs].
    destruct (visit_invariant node best Hn Hb) as [Hb' Hp].
    destruct (visit basePrice deals maxDeals node best) as [pushed best'].
    apply IH; [|exact Hb'].
    apply Forall_app. split; [|exact Hs]. simpl in Hp.
    by apply Forall_rev.
Qed.

Lemma branchAndBound_invariant (tick : nat) out :
  N {| index := 0; currentDeals := []; currentPrice := basePrice;
       bound := calculateBound basePrice deals 0 |} ->
  B (mkStackResult [] 0 basePrice [] None None) ->
  branchAndBound basePrice deals maxDeals startTime timeLimit clock tick = Some out ->
  B out.1.
Proof.
  intros Hn Hb. unfold branchAndBound.
  destruct (bbLoop _ _ _ _ _ _ _ _ _ _) as [[best tick']|] eqn:E; [|discriminate].
  intros [= <-]. simpl.
  assert (H : B best).
  { refine (bbLoop_invariant _ _ _ _ (best, tick') _ _ E); [|exact Hb].
    constructor; [exact Hn|constructor]. }
  destruct (inTime _ _ _ _); [exact H|by apply B_warned].
Qed.
End SearchInvariant.

(** The lines of a breakdown. *)
Definition sumSavings (lines : list StackBreakdown) : Q :=
  foldr (fun line acc => (savings line + acc)%Q) 0%Q lines.

Lemma breakdownLoop_ids (basePrice : Q) (ds : list Deal) :
  forall p, dealId <$> breakdownLoop basePrice ds p = id <$> ds.
Proof. induction ds as [|d ds IH]; intros p; simpl; [done|]. by rewrite IH. Qed.

Lemma breakdownLoop_sum (basePrice : Q) (ds : list Deal) :
  forall p,
    (sumSavings (breakdownLoop basePrice ds p)
     == p - foldl (fun p deal => applyDeal p deal basePrice) p ds)%Q.
Proof.
  unfold sumSavings.
  induction ds as [|d ds IH]; intros p; simpl; [lra|].
  specialize (IH (applyDeal p d basePrice)). lra.
Qed.

Lemma breakdownLoop_last (basePrice : Q) (ds : list Deal) :
  forall p line,
    last (breakdownLoop basePrice ds p) = Some line ->
    priceAfter line = foldl (fun p deal => applyDeal p deal basePrice) p ds.
Proof.
  induction ds as [|d ds IH]; intros p line; [discriminate|].
  destruct ds as [|d' ds].
  - simpl. by intros [= <-].
  - intros H. apply (IH (applyDeal p d basePrice)). exact H.
Qed.

Lemma breakdownLoop_applied (basePrice : Q) (ds : list Deal) :
  forall p,
    Forall (fun line => applied line = true <-> (0 < savings line)%Q)
      (breakdownLoop basePrice ds p).
Proof.
  induction ds as [|d ds IH]; intros p; simpl; constructor; [|apply IH].
  simpl. apply Qltb_lt.
Qed.

(** What the search keeps true of its best result. *)
Definition consistent (basePrice : Q) (best : StackResult) : Prop :=
  breakdown best = generateBreakdown basePrice (StackOptimizer.deals best)
  /\ finalPrice best = stackPrice basePrice (StackOptimizer.deals best)
  /\ (totalSavings best == basePrice - finalPrice best)%Q
  /\ alternativeStacks best = None
  /\ ((StackOptimizer.deals best = [] /\ totalSavings best = 0%Q)
      \/ ((0 < totalSavings best)%Q /\ StackOptimizer.deals best <> [])).

Lemma branchAndBound_consistent (basePrice : Q) (deals : list Deal) (maxDeals : Q)
  (startTime : Z) (timeLimit : Q) (clock : nat -> Z) (tick : nat) out :
  branchAndBound basePrice deals maxDeals startTime timeLimit clock tick = Some out ->
  consistent basePrice out.1.
Proof.
  apply (branchAndBound_invariant basePrice deals maxDeals startTime timeLimit clock
           (fun node => currentPrice node = stackPrice basePrice (currentDeals node))
           (consistent basePrice)).
  - intros node H. exact H.
  - intros node deal H. simpl. by rewrite stackPrice_snoc, H.
  - intros node best deal Hn (_ & _ & _ & _ & Hb) Hlt.
    apply Qltb_lt in Hlt. unfold consistent. simpl.
    split_and!; [done|by rewrite stackPrice_snoc, Hn|lra|done|].
    right. split; [|by destruct (currentDeals node)].
    destruct Hb as [[_ E]|[Hb _]]; [rewrite E in Hlt|]; lra.
  - intros best w H. exact H.
  - reflexivity.
  - unfold consistent. simpl. split_and!; [done|done|lra|done|by left].
Qed.

(** ** What [optimize] returns *)

(** A call of [optimize] that does not find its key in the cache. *)
Lemma optimize_miss (clock : nat -> Z) (memo : MemoCache) (basePrice : Q)
  (availableDeals : list Deal) (constraints : OptimizationConstraints) out :
  memoGet (getCacheKey basePrice availableDeals constraints) memo = None ->
  optimize clock memo basePrice availableDeals constraints = Some out ->
  let filteredDeals :=
    applyConstraints (sortDeals availableDeals basePrice) constraints in
  exists best tick,
    branchAndBound basePrice filteredDeals
      (default 5%Q (truthy (maxDeals constraints))) (clock 0)
      (default 1000%Q (truthy (timeLimit constraints))) clock 1 = Some (best, tick)
    /\ ((Qltb 0 (totalSavings best) = true
         /\ exists alts tick',
              findAlternatives clock basePrice filteredDeals best 3 tick
              = Some (alts, tick')
              /\ result out = setAlternativeStacks best alts)
        \/ (Qltb 0 (totalSavings best) = false /\ result out = best)).
Proof.
  intros Hmiss. unfold optimize. rewrite Hmiss.
  destruct (branchAndBound _ _ _ _ _ _ _) as [[best tick]|] eqn:Hbb; [|discriminate].
  intros H. exists best, tick. split; [reflexivity|].
  destruct (Qltb 0 (totalSavings best)).
  - left. split; [done|].
    destruct (findAlternatives _ _ _ _ _ _) as [[alts tick']|]; [|discriminate].
    injection H as <-. by exists alts, tick'.
  - right. injection H as <-. done.
Qed.

(** A result that some call of [optimize] computed. *)
Definition computed (r : StackResult) : Prop :=
  exists clock memo basePrice availableDeals constraints out,
    memoGet (getCacheKey basePrice availableDeals constraints) memo = None
    /\ optimize clock memo basePrice availableDeals constraints = Some out
    /\ result out = r.

Lemma optimize_computed (clock : nat -> Z) (memo : MemoCache) (basePrice : Q)
  (availableDeals : list Deal) (constraints : OptimizationConstraints) out :
  (forall k r, In (k, r) memo -> computed r) ->
  optimize clock memo basePrice availableDeals constraints = Some out ->
  computed (result out) /\ forall k r, In (k, r) (memoAfter out) -> computed r.
Proof.
  intros Hm Hopt.
  destruct (memoGet (getCacheKey basePrice availableDeals constraints) memo)
    as [cached|] eqn:Hget.
  - unfold optimize in Hopt. rewrite Hget in Hopt. injection Hopt as <-. simpl.
    split; [|exact Hm].
    apply memoGet_In in Hget as (k' & Hin & _). by apply (Hm k').
  - assert (Hc : computed (result out)).
    { exists clock, memo, basePrice, availableDeals, constraints, out. done. }
    split; [exact Hc|].
    assert (Hafter : memoAfter out
                     = memoSet (getCacheKey basePrice availableDeals constraints)
                         (result out) memo).
    { unfold optimize in Hopt. rewrite Hget in Hopt.
      destruct (branchAndBound _ _ _ _ _ _ _) as [[best tick]|]; [|discriminate].
      destruct (if Qltb 0 (totalSavings best) then _ else _); [|discriminate].
      by injection Hopt as <-. }
    rewrite Hafter. intros k r [Hin|Hin].
    + injection Hin as <- <-. exact Hc.
    + apply filter_In in Hin as [Hin _]. by apply (Hm k).
Qed.

Lemma reachable_computed (memo : MemoCache) :
  reachable memo -> forall k r, In (k, r) memo -> computed r.
Proof.
  induction 1 as [|clock memo basePrice deals constraints out _ IH Hopt].
  - intros k r [].
  - by destruct (optimize_computed _ _ _ _ _ _ IH Hopt).
Qed.

Lemma includes_In (l : list DealType) (t : DealType) :
  includes l t = true <-> In t l.
Proof.
  unfold includes. rewrite existsb_exists. split.
  - intros (x & Hin & Hx). apply DealType_eqb_eq in Hx. by subst.
  - intros Hin. exists t. split; [exact Hin|apply DealType_eqb_refl].
Qed.

Lemma applyConstraints_In (deals : list Deal) (constraints : OptimizationConstraints)
  (d : Deal) :
  In d (applyConstraints deals constraints) ->
  In d deals
  /\ (forall l, preferredTypes constraints = Some l -> l <> [] -> In (type d) l)
  /\ (forall l, excludeTypes constraints = Some l -> l <> [] -> ~ In (type d) l).
Proof.
  unfold applyConstraints. intros H.
  assert (H1 : In d (match nonEmpty (preferredTypes constraints) with
                     | Some l => List.filter (fun d => includes l (type d)) deals
                     | None => deals
                     end)
               /\ forall l, excludeTypes constraints = Some l -> l <> [] ->
                    ~ In (type d) l).
  { destruct (excludeTypes constraints) as [[|t l]|]; cbn [nonEmpty] in H.
    - split; [exact H|]. by intros l [= <-].
    - apply filter_In in H as [H Hn]. split; [exact H|].
      intros l' [= <-] _ Hin. apply includes_In in Hin.
      by rewrite Hin in Hn.
    - split; [exact H|]. by intros l. }
  destruct H1 as [H1 H2]. split_and!; [| |exact H2].
  - destruct (nonEmpty (preferredTypes constraints)); [|exact H1].
    by apply filter_In in H1 as [H1 _].
  - destruct (preferredTypes constraints) as [[|t l]|]; cbn [nonEmpty] in H1.
    + by intros l [= <-].
    + apply filter_In in H1 as [_ H1]. intros l' [= <-] _. by apply includes_In.
    + by intros l.
Qed.

(** The stack of a call that is not answered from the cache. *)
Lemma optimize_miss_rules (clock : nat -> Z) (memo : MemoCache) (basePrice : Q)
  (availableDeals : list Deal) (constraints : OptimizationConstraints) out :
  memoGet (getCacheKey basePrice availableDeals constraints) memo = None ->
  optimize clock memo basePrice availableDeals constraints = Some out ->
  sublist (deals (result out)) (sortDeals availableDeals basePrice)
  /\ Forall (fun d =>
              In d availableDeals
              /\ (forall l, preferredTypes constraints = Some l -> l <> [] ->
                    In (type d) l)
              /\ (forall l, excludeTypes constraints = Some l -> l <> [] ->
                    ~ In (type d) l))
       (deals (result out))
  /\ stackableFrom [] (deals (result out)) = true
  /\ (deals (result out) = []
      \/ (Qlen (deals (result out)) - 1
          < default 5 (truthy (maxDeals constraints)))%Q)
  /\ finalPrice (result out) = stackPrice basePrice (deals (result out)).
Proof.
  intros Hmiss Hopt.
  destruct (optimize_miss _ _ _ _ _ _ Hmiss Hopt) as (best & tick & Hbb & Hres).
  assert (Hdeals : deals (result out) = deals best
                   /\ finalPrice (result out) = finalPrice best).
  { destruct Hres as [(_ & alts & tick' & _ & ->)|[_ ->]]; done. }
  destruct Hdeals as [-> ->].
  apply branchAndBound_feasible in Hbb as [(H1 & H2 & H3 & H4) _].
  simpl in *. rewrite firstn_all in H1.
  assert (Hin : forall d, In d (deals best) ->
                  In d (applyConstraints (sortDeals availableDeals basePrice)
                          constraints)).
  { intros d Hd. apply list_elem_of_In. eapply sublist_submseteq in H1.
    eapply elem_of_submseteq; [|exact H1]. by apply list_elem_of_In. }
  split_and!; [| |exact H2|exact H4|exact H3].
  - etrans; [exact H1|]. unfold applyConstraints.
    destruct (nonEmpty (excludeTypes constraints)),
      (nonEmpty (preferredTypes constraints)).
    all: repeat (etrans; [apply sublist_List_filter|]); reflexivity.
  - apply List.Forall_forall. intros d Hd.
    destruct (applyConstraints_In _ _ _ (Hin d Hd)) as (Ha & Hb & Hc).
    split_and!; [|exact Hb|exact Hc].
    apply list_elem_of_In. apply list_elem_of_In in Ha.
    unfold sortDeals in Ha. by rewrite stable_sort_perm in Ha.
Qed.

(** X5.  The stack that [optimize] computes (when the call is not answered
    from the cache) is made of deals of the list given whose type the
    constraints allow, in the order of [sortDeals]; each deal can be stacked
    on the ones before it; no deal was added once [maxDeals] (5 by default)
    were there; and the final price is the price after applying them in
    that order. *)
Theorem optimize_stack_rules (clock : nat -> Z) (memo : MemoCache) (basePrice : Q)
  (availableDeals : list Deal) (constraints : OptimizationConstraints) :
  memoGet (getCacheKey basePrice availableDeals constraints) memo = None ->
  exists out,
    optimize clock memo basePrice availableDeals constraints = Some out
    /\ sublist (deals (result out)) (sortDeals availableDeals basePrice)
    /\ Forall (fun d =>
                In d availableDeals
                /\ (forall l, preferredTypes constraints = Some l -> l <> [] ->
                      In (type d) l)
                /\ (forall l, excludeTypes constraints = Some l -> l <> [] ->
                      ~ In (type d) l))
         (deals (result out))
    /\ stackableFrom [] (deals (result out)) = true
    /\ (deals (result out) = []
        \/ (Qlen (deals (result out)) - 1
            < default 5 (truthy (maxDeals constraints)))%Q)
    /\ finalPrice (result out) = stackPrice basePrice (deals (result out)).
Proof.
  intros Hmiss.
  destruct (optimize_total clock memo basePrice availableDeals constraints)
    as [out Hout].
  exists out. split; [exact Hout|]. by apply (optimize_miss_rules clock memo).
Qed.

Lemma optimize_stack_rules_witness :
  memoGet (getCacheKey 100 [dealA; dealB] no_constraints) [] = None
  /\ exists out,
       optimize frozenClock [] 100 [dealA; dealB] no_constraints = Some out
       /\ sublist (deals (result out)) (sortDeals [dealA; dealB] 100)
       /\ Forall (fun d =>
                   In d [dealA; dealB]
                   /\ (forall l, preferredTypes no_constraints = Some l -> l <> [] ->
                         In (type d) l)
                   /\ (forall l, excludeTypes no_constraints = Some l -> l <> [] ->
                         ~ In (type d) l))
            (deals (result out))
       /\ stackableFrom [] (deals (result out)) = true
       /\ (deals (result out) = []
           \/ (Qlen (deals (result out)) - 1
               < default 5 (truthy (maxDeals no_constraints)))%Q)
       /\ finalPrice (result out) = stackPrice 100 (deals (result out)).
Proof.
  split; [reflexivity|].
  exact (optimize_stack_rules frozenClock [] 100 [dealA; dealB] no_constraints
           eq_refl).
Defined.

(** ** The breakdown and the alternatives *)

(** The breakdown of a result has one line per deal, in order; the savings
    of its lines add up to the total savings, its last line ends at the
    final price, and a line is marked applied when it saves something. *)
Definition addsUp (r : StackResult) : Prop :=
  dealId <$> breakdown r = id <$> deals r
  /\ (sumSavings (breakdown r) == totalSavings r)%Q
  /\ (forall line, last (breakdown r) = Some line -> priceAfter line = finalPrice r)
  /\ Forall (fun line => applied line = true <-> (0 < savings line)%Q) (breakdown r).

Lemma consistent_addsUp (basePrice : Q) (r : StackResult) :
  consistent basePrice r -> addsUp r.
Proof.
  intros (H1 & H2 & H3 & _). unfold addsUp. rewrite H1. unfold generateBreakdown.
  split_and!.
  - apply breakdownLoop_ids.
  - rewrite breakdownLoop_sum, H3, H2. reflexivity.
  - intros line Hl. rewrite H2. by apply breakdownLoop_last in Hl.
  - apply breakdownLoop_applied.
Qed.

Definition comboKey (r : StackResult) : jsstring := getDealComboKey (deals r).

Lemma alternativesLoop_spec (clock : nat -> Z) (basePrice : Q) (deals : list Deal)
  (maxAlternatives : nat) (P : StackResult -> Prop) (k0 : jsstring) :
  (forall ds maxDeals startTime timeLimit tick out,
     branchAndBound basePrice ds maxDeals startTime timeLimit clock tick = Some out ->
     P out.1) ->
  forall starts alternatives used tick out,
    NoDup used -> used ≡ₚ k0 :: (comboKey <$> alternatives) ->
    Forall (fun a => P a /\ (0 < totalSavings a)%Q) alternatives ->
    length alternatives < maxAlternatives ->
    alternativesLoop clock basePrice deals maxAlternatives starts alternatives
      used tick = Some out ->
    NoDup (k0 :: (comboKey <$> out.1))
    /\ Forall (fun a => P a /\ (0 < totalSavings a)%Q) out.1
    /\ length out.1 <= maxAlternatives.
Proof.
  intros HP.
  induction starts as [|i starts IH]; intros alternatives used tick out Hnd Hperm Hall Hlen;
    simpl.
  - intros [= <-]. simpl. split_and!; [by rewrite <- Hperm|exact Hall|lia].
  - destruct (branchAndBound _ _ _ _ _ _ _) as [[alt tick']|] eqn:Hbb; [|discriminate].
    destruct (negb _ && _) eqn:C; [|by apply IH].
    apply andb_true_iff in C as [Hnew Hpos].
    apply Qltb_lt in Hpos.
    assert (Hnotin : getDealComboKey (StackOptimizer.deals alt) ∉ used).
    { intros Hin. apply negb_true_iff in Hnew.
      apply list_elem_of_In in Hin.
      assert (Hex : existsb (str_eqb (getDealComboKey (StackOptimizer.deals alt))) used
                    = true).
      { apply existsb_exists. eexists. split; [exact Hin|].
        unfold str_eqb. by apply bool_decide_eq_true. }
      congruence. }
    assert (Hnd' : NoDup (getDealComboKey (StackOptimizer.deals alt) :: used))
      by by constructor.
    assert (Hperm' : getDealComboKey (StackOptimizer.deals alt) :: used
                     ≡ₚ k0 :: (comboKey <$> alternatives ++ [alt])).
    { rewrite Hperm, fmap_app. simpl.
      rewrite (Permutation_app_comm _ [comboKey alt]). simpl. apply Permutation_swap. }
    assert (Hall' : Forall (fun a => P a /\ (0 < totalSavings a)%Q)
                      (alternatives ++ [alt])).
    { apply Forall_app. split; [exact Hall|]. constructor; [|constructor].
      split; [|exact Hpos]. exact (HP _ _ _ _ _ _ Hbb). }
    destruct (maxAlternatives <=? length (alternatives ++ [alt])) eqn:L.
    + intros [= <-]. simpl. split_and!; [by rewrite <- Hperm'|exact Hall'|].
      rewrite length_app. simpl. lia.
    + apply Nat.leb_gt in L. by apply IH.
Qed.

(** What [findAlternatives] returns, for a predicate [P] of the results of
    the search. *)
Definition alternativesOk (P : StackResult -> Prop) (maxAlternatives : nat)
  (best : StackResult) (alts : list StackResult) : Prop :=
  length alts <= maxAlternatives
  /\ Forall (fun a => P a /\ (0 < totalSavings a)%Q) alts
  /\ NoDup (comboKey <$> best :: alts)
  /\ StronglySorted (fun a b => (totalSavings b <= totalSavings a)%Q) alts.

Lemma findAlternatives_spec (clock : nat -> Z) (basePrice : Q) (deals : list Deal)
  (best : StackResult) (maxAlternatives : nat) (P : StackResult -> Prop)
  (tick : nat) out :
  (forall ds maxDeals startTime timeLimit tick out,
     branchAndBound basePrice ds maxDeals startTime timeLimit clock tick = Some out ->
     P out.1) ->
  0 < maxAlternatives ->
  findAlternatives clock basePrice deals best maxAlternatives tick = Some out ->
  alternativesOk P maxAlternatives best out.1.
Proof.
  intros HP Hmax. unfold findAlternatives.
  destruct (alternativesLoop _ _ _ _ _ _ _ _) as [[alts tick']|] eqn:E; [|discriminate].
  intros [= <-]. simpl.
  destruct (alternativesLoop_spec clock basePrice deals maxAlternatives P (comboKey best)
              HP (seq 0 (length deals `min` 5)) [] [comboKey best] tick (alts, tick'))
    as (H1 & H2 & H3);
    [apply NoDup_singleton|reflexivity|constructor|exact Hmax|exact E|].
  simpl in *.
  set (before := fun a b : StackResult => Qltb (totalSavings b - totalSavings a) 0).
  assert (Hp : stable_sort before alts ≡ₚ alts) by apply stable_sort_perm.
  unfold alternativesOk. split_and!.
  - by rewrite Hp.
  - by rewrite Hp.
  - simpl. by rewrite Hp.
  - apply Sorted_StronglySorted; [intros a b c ? ?; lra|].
    apply (Sorted_weaken (fun a b => before b a = false)).
    + intros a b Hb. unfold before in Hb. apply Qltb_ge in Hb. lra.
    + apply stable_sort_sorted. intros x y H. unfold before in *.
      apply Qltb_lt in H. apply Qltb_ge. lra.
Qed.

(** What a computed result satisfies. *)
Definition wellFormed (r : StackResult) : Prop :=
  addsUp r
  /\ ((deals r = [] /\ totalSavings r = 0%Q /\ breakdown r = []
       /\ alternativeStacks r = None)
      \/ ((0 < totalSavings r)%Q /\ deals r <> []
          /\ exists alts,
               alternativeStacks r = Some alts
               /\ alternativesOk
                    (fun a => addsUp a /\ alternativeStacks a = None) 3 r alts)).

Lemma computed_wellFormed (r : StackResult) : computed r -> wellFormed r.
Proof.
  intros (clock & memo & basePrice & availableDeals & constraints & out
          & Hmiss & Hopt & <-).
  destruct (optimize_miss _ _ _ _ _ _ Hmiss Hopt) as (best & tick & Hbb & Hres).
  apply branchAndBound_consistent in Hbb. simpl in Hbb.
  pose proof (consistent_addsUp _ _ Hbb) as Hadd.
  destruct Hbb as (H1 & H2 & H3 & H4 & H5).
  destruct Hres as [(Hpos & alts & tick' & Halt & ->)|[Hpos ->]].
  - apply Qltb_lt in Hpos. split; [exact Hadd|]. right. simpl.
    split_and!; [exact Hpos| |].
    + destruct H5 as [[_ E]|[_ H5]]; [rewrite E in Hpos; lra|exact H5].
    + exists alts. split; [reflexivity|].
      apply (findAlternatives_spec _ _ _ _ _
               (fun a => addsUp a /\ alternativeStacks a = None)) in Halt;
        [exact Halt| |lia].
      intros ds maxDeals startTime timeLimit tick0 out0 H0.
      apply branchAndBound_consistent in H0.
      split; [by apply (consistent_addsUp basePrice)|]. by destruct H0 as (_ & _ & _ & ? & _).
  - apply Qltb_ge in Hpos. split; [exact Hadd|]. left.
    destruct H5 as [[E1 E2]|[H5 _]]; [|lra].
    split_and!; [exact E1|exact E2| |exact H4].
    by rewrite H1, E1.
Qed.

Lemma optimize_wellFormed (clock : nat -> Z) (memo : MemoCache) (basePrice : Q)
  (availableDeals : list Deal) (constraints : OptimizationConstraints) out :
  reachable memo ->
  optimize clock memo basePrice availableDeals constraints = Some out ->
  wellFormed (result out).
Proof.
  intros Hr Hopt. apply computed_wellFormed.
  by destruct (optimize_computed _ _ _ _ _ _ (reachable_computed _ Hr) Hopt).
Qed.

(** X6.  The breakdown of a result of [optimize] has one line per deal of
    the stack, in the order of the stack; the savings of the lines add up to
    [totalSavings], the last line ends at [finalPrice], and a line is marked
    [applied] exactly when it saves something.  The same holds of each
    alternative stack. *)
Theorem optimize_breakdown_adds_up (clock : nat -> Z) (memo : MemoCache)
  (basePrice : Q) (availableDeals : list Deal)
  (constraints : OptimizationConstraints) :
  reachable memo ->
  exists out,
    optimize clock memo basePrice availableDeals constraints = Some out
    /\ dealId <$> breakdown (result out) = id <$> deals (result out)
    /\ (sumSavings (breakdown (result out)) == totalSavings (result out))%Q
    /\ (forall line, last (breakdown (result out)) = Some line ->
          priceAfter line = finalPrice (result out))
    /\ Forall (fun line => applied line = true <-> (0 < savings line)%Q)
         (breakdown (result out))
    /\ forall alts, alternativeStacks (result out) = Some alts -> Forall addsUp alts.
Proof.
  intros Hr.
  destruct (optimize_total clock memo basePrice availableDeals constraints)
    as [out Hopt].
  exists out. split; [exact Hopt|].
  destruct (optimize_wellFormed _ _ _ _ _ _ Hr Hopt) as [(H1 & H2 & H3 & H4) H5].
  split_and!; [exact H1|exact H2|exact H3|exact H4|].
  intros alts Halts.
  destruct H5 as [(_ & _ & _ & E)|(_ & _ & alts' & E & _ & Hall & _)]; [congruence|].
  assert (alts' = alts) as -> by congruence.
  eapply Forall_impl; [exact Hall|]. by intros a [[Ha _] _].
Qed.

Lemma optimize_breakdown_adds_up_witness :
  reachable []
  /\ exists out,
       optimize frozenClock [] 100 [dealA; dealB] no_constraints = Some out
       /\ dealId <$> breakdown (result out) = id <$> deals (result out)
       /\ (sumSavings (breakdown (result out)) == totalSavings (result out))%Q
       /\ (forall line, last (breakdown (result out)) = Some line ->
             priceAfter line = finalPrice (result out))
       /\ Forall (fun line => applied line = true <-> (0 < savings line)%Q)
            (breakdown (result out))
       /\ forall alts, alternativeStacks (result out) = Some alts ->
            Forall addsUp alts.
Proof.
  split; [constructor|].
  exact (optimize_breakdown_adds_up frozenClock [] 100 [dealA; dealB] no_constraints
           reachable_new).
Defined.

(** X7.  A result of [optimize] is either the empty stack, which saves
    nothing and has no breakdown and no alternatives, or a stack of at
    least one deal that saves something and comes with a list of
    alternatives: a stack that saves nothing is never returned. *)
Theorem optimize_empty_or_saving (clock : nat -> Z) (memo : MemoCache)
  (basePrice : Q) (availableDeals : list Deal)
  (constraints : OptimizationConstraints) :
  reachable memo ->
  exists out,
    optimize clock memo basePrice availableDeals constraints = Some out
    /\ ((deals (result out) = [] /\ totalSavings (result out) = 0%Q
         /\ breakdown (result out) = [] /\ alternativeStacks (result out) = None)
        \/ ((0 < totalSavings (result out))%Q /\ deals (result out) <> []
            /\ exists alts, alternativeStacks (result out) = Some alts)).
Proof.
  intros Hr.
  destruct (optimize_total clock memo basePrice availableDeals constraints)
    as [out Hopt].
  exists out. split; [exact Hopt|].
  destruct (optimize_wellFormed _ _ _ _ _ _ Hr Hopt) as [_ [H|(H1 & H2 & alts & H3 & _)]].
  - by left.
  - right. eauto.
Qed.

(** Both cases occur: without deals the empty stack, and with the coupon
    and the cashback a stack that saves something. *)
Lemma optimize_empty_or_saving_witness :
  reachable []
  /\ (exists out,
        optimize frozenClock [] 100 [] no_constraints = Some out
        /\ deals (result out) = [] /\ totalSavings (result out) = 0%Q
        /\ breakdown (result out) = [] /\ alternativeStacks (result out) = None)
  /\ (exists out,
        optimize frozenClock [] 100 [dealA; dealB] no_constraints = Some out
        /\ (0 < totalSavings (result out))%Q /\ deals (result out) <> []
        /\ exists alts, alternativeStacks (result out) = Some alts).
Proof.
  split; [constructor|]. split.
  - destruct (optimize_empty_or_saving frozenClock [] 100 [] no_constraints
                reachable_new) as (out & Hopt & [H|(H & _)]).
    + exists out. by split.
    + exfalso. vm_compute in Hopt. injection Hopt as <-. vm_compute in H. discriminate.
  - destruct (optimize_empty_or_saving frozenClock [] 100 [dealA; dealB]
                no_constraints reachable_new) as (out & Hopt & [(H & _)|H]).
    + exfalso. vm_compute in Hopt. injection Hopt as <-. discriminate.
    + exists out. by split.
Defined.

(** X8.  The alternatives of a result of [optimize]: at most three, each
    saving something, none with the deal ids of the best stack or of another
    alternative, in the order of their savings, highest first. *)
Theorem optimize_alternatives (clock : nat -> Z) (memo : MemoCache)
  (basePrice : Q) (availableDeals : list Deal)
  (constraints : OptimizationConstraints) :
  reachable memo ->
  exists out,
    optimize clock memo basePrice availableDeals constraints = Some out
    /\ forall alts,
         alternativeStacks (result out) = Some alts ->
         length alts <= 3
         /\ Forall (fun a => (0 < totalSavings a)%Q /\ alternativeStacks a = None)
              alts
         /\ NoDup (getDealComboKey (deals (result out))
                   :: ((fun a => getDealComboKey (deals a)) <$> alts))
         /\ StronglySorted (fun a b => (totalSavings b <= totalSavings a)%Q) alts.
Proof.
  intros Hr.
  destruct (optimize_total clock memo basePrice availableDeals constraints)
    as [out Hopt].
  exists out. split; [exact Hopt|]. intros alts Halts.
  destruct (optimize_wellFormed _ _ _ _ _ _ Hr Hopt)
    as [_ [(_ & _ & _ & E)|(_ & _ & alts' & E & H1 & H2 & H3 & H4)]]; [congruence|].
  assert (alts' = alts) as -> by congruence.
  split_and!; [exact H1| |exact H3|exact H4].
  eapply Forall_impl; [exact H2|]. by intros a [[_ Ha] Hp].
Qed.

(** With a coupon of 60, a cashback of 30 and points worth 5 at a price of
    100 the result comes with two alternatives. *)
Lemma optimize_alternatives_witness :
  let availableDeals := [dealA; dealB; fixedDeal "C" points 5] in
  reachable []
  /\ exists out,
       optimize frozenClock [] 100 availableDeals no_constraints = Some out
       /\ (exists alts,
             alternativeStacks (result out) = Some alts /\ length alts = 2)
       /\ forall alts,
            alternativeStacks (result out) = Some alts ->
            length alts <= 3
            /\ Forall (fun a => (0 < totalSavings a)%Q /\ alternativeStacks a = None)
                 alts
            /\ NoDup (getDealComboKey (deals (result out))
                      :: ((fun a => getDealComboKey (deals a)) <$> alts))
            /\ StronglySorted (fun a b => (totalSavings b <= totalSavings a)%Q) alts.
Proof.
  intros availableDeals.
  split; [constructor|].
  destruct (optimize_alternatives frozenClock [] 100 availableDeals no_constraints
              reachable_new) as (out & Hopt & H).
  exists out. split; [exact Hopt|]. split; [|exact H].
  vm_compute in Hopt. injection Hopt as <-.
  eexists. split; reflexivity.
Defined.

(** ** The search is at least as good as the best single deal *)

(** A deal without a minimum purchase, whose amounts are not negative. *)
Definition plain (deal : Deal) : Prop :=
  truthy (minPurchase deal) = None /\ nonNegative deal.

Lemma applyDeal_mono (p p' : Q) (deal : Deal) (b b' : Q) :
  plain deal -> (0 <= p)%Q -> (p <= p')%Q ->
  (applyDeal p deal b <= applyDeal p' deal b')%Q.
Proof.
  intros [Hmin (Hv & Hm & _)] Hp Hle. unfold applyDeal. rewrite Hmin.
  assert (Hc : (0 <= value deal / 100)%Q).
  { apply Qle_shift_div_l; [reflexivity|lra]. }
  set (c := (value deal / 100)%Q) in *.
  destruct (valueType deal).
  - cbv zeta.
    assert (H1 : (Qmax 0 (p - p * c) <= Qmax 0 (p' - p' * c))%Q).
    { destruct (Qlt_le_dec 1 c) as [Hc1|Hc1].
      - assert (p - p * c <= 0)%Q by nra.
        rewrite (Q.max_l 0 (p - p * c)) by done. apply Q.le_max_l.
      - apply Q.max_lub; [apply Q.le_max_l|].
        eapply Qle_trans; [|apply Q.le_max_r]. nra. }
    destruct (truthy (maxDiscount deal)) as [m|] eqn:E; [|exact H1].
    apply truthy_Some in E. rewrite E in Hm.
    apply Q.max_lub; [apply Q.le_max_l|].
    destruct (Q.min_spec (p * c) m) as [[Ha ->]|[Ha ->]],
             (Q.min_spec (p' * c) m) as [[Hb ->]|[Hb ->]].
    + eapply Qle_trans; [|exact H1]. apply Q.le_max_r.
    + destruct (Qlt_le_dec 1 c) as [Hc1|Hc1].
      * eapply Qle_trans; [|apply Q.le_max_l]. nra.
      * eapply Qle_trans; [|apply Q.le_max_r]. nra.
    + eapply Qle_trans; [|apply Q.le_max_r]. nra.
    + eapply Qle_trans; [|apply Q.le_max_r]. lra.
  - apply Q.max_lub; [apply Q.le_max_l|].
    eapply Qle_trans; [|apply Q.le_max_r]. lra.
Qed.

Lemma applyAll_app (cp p : Q) (l1 l2 : list Deal) :
  applyAll cp p (l1 ++ l2) = applyAll cp (applyAll cp p l1) l2.
Proof. unfold applyAll. by rewrite foldl_app. Qed.

Lemma plain_nonNegative (deals : list Deal) :
  Forall plain deals -> Forall nonNegative deals.
Proof. intros H. eapply Forall_impl; [exact H|]. by intros d [_ ?]. Qed.

Section BestSingle.
Variables (basePrice : Q) (deals : list Deal) (maxDeals : Q).
Variables (startTime : Z) (timeLimit : Q) (clock : nat -> Z).
Hypothesis basePrice_nonneg : (0 <= basePrice)%Q.
Hypothesis deals_plain : Forall plain deals.
Hypothesis maxDeals_pos : (0 < maxDeals)%Q.
Hypothesis in_time : forall k, inTime startTime timeLimit clock k = true.

(** What a deal saves on its own. *)
Definition single (d : Deal) : Q := (basePrice - applyDeal basePrice d basePrice)%Q.

Lemma single_le_bound (j : nat) (d : Deal) :
  deals !! j = Some d -> (single d <= calculateBound basePrice deals 0)%Q.
Proof.
  intros Hd.
  pose proof (boundLoop_spec basePrice deals 0 basePrice basePrice_nonneg
                (plain_nonNegative _ deals_plain)) as Hb.
  unfold calculateBound. rewrite drop_0, Hb. unfold single.
  rewrite <- (take_drop_middle _ _ _ Hd), applyAll_app.
  assert (Hp1 : Forall plain (take j deals)) by by apply Forall_take.
  assert (Hp2 : Forall plain (drop (S j) deals)) by by apply Forall_drop.
  assert (Hpd : plain d).
  { rewrite List.Forall_forall in deals_plain. apply deals_plain.
    apply list_elem_of_In. by eapply list_elem_of_lookup_2. }
  pose proof (applyAll_range basePrice (take j deals) basePrice basePrice_nonneg
                (plain_nonNegative _ Hp1)) as H1.
  set (p1 := applyAll basePrice basePrice (take j deals)) in *.
  pose proof (applyDeal_mono p1 basePrice d basePrice basePrice Hpd
                ltac:(lra) ltac:(lra)) as H2.
  pose proof (applyDeal_nonneg p1 d basePrice ltac:(lra)) as H3.
  pose proof (applyAll_range basePrice (drop (S j) deals) _ H3
                (plain_nonNegative _ Hp2)) as H4.
  change (applyAll basePrice p1 (d :: drop (S j) deals))
    with (applyAll basePrice (applyDeal p1 d basePrice) (drop (S j) deals)).
  lra.
Qed.

(** The nodes that have skipped every deal so far. *)
Definition chainNode (node : Node) : Prop :=
  currentDeals node = [] ->
  currentPrice node = basePrice /\ bound node = calculateBound basePrice deals 0.

(** Every deal has been tried on its own, or will be. *)
Definition covered (stack : list Node) (best : StackResult) : Prop :=
  forall j d, deals !! j = Some d ->
    (single d <= totalSavings best)%Q
    \/ exists node, node ∈ stack /\ currentDeals node = [] /\ index node <= j.

Lemma visit_covered (node : Node) (rest : list Node) (best : StackResult) :
  chainNode node -> covered (node :: rest) best ->
  Forall chainNode (visit basePrice deals maxDeals node best).1
  /\ covered (rev (visit basePrice deals maxDeals node best).1 ++ rest)
       (visit basePrice deals maxDeals node best).2.
Proof.
  intros Hn Hcov. unfold visit.
  destruct (Qle_bool (bound node) (totalSavings best)) eqn:Hprune; simpl.
  - split; [constructor|].
    intros j d Hd. destruct (Hcov j d Hd) as [H|(node' & Hin & Hcur & Hidx)]; [by left|].
    apply elem_of_cons in Hin as [->|Hin]; [|right; eauto].
    left. destruct (Hn Hcur) as [_ Hb]. apply Qle_bool_iff in Hprune.
    rewrite Hb in Hprune. pose proof (single_le_bound j d Hd). lra.
  - set (inc := if (index node <? length deals) && _ then _ else _).
    assert (Hinc : (totalSavings best <= totalSavings inc.2)%Q
                   /\ Forall chainNode inc.1
                   /\ (currentDeals node = [] ->
                       forall d, deals !! index node = Some d ->
                         (single d <= totalSavings inc.2)%Q)).
    { subst inc.
      destruct (index node <? length deals) eqn:Hidx; simpl.
      2:{ split_and!; [lra|constructor|].
          intros _ d Hd. apply lookup_lt_Some in Hd.
          apply Nat.ltb_ge in Hidx. lia. }
      destruct (Qltb (Qlen (currentDeals node)) maxDeals) eqn:Hmax; simpl.
      2:{ split_and!; [lra|constructor|].
          intros Hcur. rewrite Hcur in Hmax. apply Qltb_ge in Hmax.
          change (Qlen (@nil Deal)) with 0%Q in Hmax. lra. }
      destruct (deals !! index node) as [deal|] eqn:Hdeal; simpl.
      2:{ split_and!; [lra|constructor|]. by intros _ d. }
      destruct (canStackDeal deal (currentDeals node)) eqn:Hcan; simpl.
      2:{ split_and!; [lra|constructor|].
          intros Hcur. rewrite Hcur in Hcan. unfold canStackDeal in Hcan.
          simpl in Hcan. by rewrite andb_false_r in Hcan. }
      split_and!.
      - destruct (Qltb (totalSavings best) _) eqn:E; [|lra].
        apply Qltb_lt in E. simpl. lra.
      - destruct (index node + 1 <? length deals); [|constructor].
        constructor; [|constructor]. intros Hnil. simpl in Hnil.
        by destruct (currentDeals node).
      - intros Hcur d [= <-]. destruct (Hn Hcur) as [Hp _]. rewrite Hp.
        unfold single.
        destruct (Qltb (totalSavings best) _) eqn:E; simpl; [lra|].
        by apply Qltb_ge in E. }
    destruct Hinc as (Hmono & Hchain & Htried). split.
    + apply Forall_app. split; [exact Hchain|].
      destruct (index node + 1 <? length deals); [|constructor].
      constructor; [|constructor]. intros Hnil. simpl in *. by apply Hn.
    + intros j d Hd.
      destruct (Hcov j d Hd) as [H|(node' & Hin & Hcur & Hidx)]; [left; lra|].
      apply elem_of_cons in Hin as [->|Hin].
      2:{ right. exists node'. split_and!; [|done|done].
          apply elem_of_app. by right. }
      destruct (decide (index node = j)) as [<-|Hne].
      * left. by apply Htried.
      * right.
        assert (Hlt : index node + 1 < length deals).
        { apply lookup_lt_Some in Hd. lia. }
        apply Nat.ltb_lt in Hlt. rewrite Hlt.
        eexists. split_and!; [| |].
        -- apply elem_of_app. left. apply list_elem_of_In.
           apply (proj1 (in_rev _ _)).
           apply in_or_app. right. left. reflexivity.
        -- exact Hcur.
        -- simpl. lia.
Qed.

Lemma bbLoop_covered (fuel : nat) :
  forall (stack : list Node) (best : StackResult) (tick : nat) out,
    Forall chainNode stack -> covered stack best ->
    bbLoop basePrice deals maxDeals startTime timeLimit clock fuel stack best tick
    = Some out ->
    covered [] out.1.
Proof.
  induction fuel as [|fuel IH]; intros stack best tick out Hs Hc;
    destruct stack as [|node rest]; simpl.
  - intros [= <-]. exact Hc.
  - rewrite in_time. discriminate.
  - intros [= <-]. exact Hc.
  - rewrite in_time.
    apply Forall_cons in Hs as [Hn Hs].
    destruct (visit_covered node rest best Hn Hc) as [Hp Hc'].
    destruct (visit basePrice deals maxDeals node best) as [pushed best'].
    apply IH; [|exact Hc'].
    apply Forall_app. split; [|exact Hs]. simpl in Hp.
    by apply Forall_rev.
Qed.

Lemma branchAndBound_best_single (tick : nat) out (d : Deal) :
  branchAndBound basePrice deals maxDeals startTime timeLimit clock tick = Some out ->
  In d deals ->
  (single d <= totalSavings out.1)%Q.
Proof.
  unfold branchAndBound.
  destruct (bbLoop _ _ _ _ _ _ _ _ _ _) as [[best tick']|] eqn:E; [|discriminate].
  intros [= <-] Hin. simpl. rewrite in_time.
  assert (H : covered [] best).
  { refine (bbLoop_covered _ _ _ _ (best, tick') _ _ E).
    - constructor; [|constructor]. by intros _.
    - intros j d' Hd'. right. eexists. split_and!; [by left|done|simpl; lia]. }
  apply list_elem_of_In, list_elem_of_lookup_1 in Hin as [j Hj].
  destruct (H j d Hj) as [Hle|(node & Hnode & _)]; [exact Hle|].
  by apply elem_of_nil in Hnode.
Qed.
End BestSingle.

Lemma applyConstraints_perm (l l' : list Deal) (constraints : OptimizationConstraints) :
  l ≡ₚ l' -> applyConstraints l constraints ≡ₚ applyConstraints l' constraints.
Proof.
  intros H. unfold applyConstraints.
  destruct (nonEmpty (excludeTypes constraints)),
    (nonEmpty (preferredTypes constraints));
    repeat apply List_filter_perm; exact H.
Qed.

Lemma applyConstraints_sublist (l : list Deal) (constraints : OptimizationConstraints) :
  sublist (applyConstraints l constraints) l.
Proof.
  unfold applyConstraints.
  destruct (nonEmpty (excludeTypes constraints)),
    (nonEmpty (preferredTypes constraints)).
  all: repeat (etrans; [apply sublist_List_filter|]); reflexivity.
Qed.

(** A call that is not answered from the cache and whose clock stays
    within the time limit. *)
Lemma optimize_miss_best_single (clock : nat -> Z) (memo : MemoCache)
  (basePrice : Q) (availableDeals : list Deal)
  (constraints : OptimizationConstraints) out (d : Deal) :
  memoGet (getCacheKey basePrice availableDeals constraints) memo = None ->
  (0 <= basePrice)%Q ->
  Forall plain availableDeals ->
  (forall m, maxDeals constraints = Some m -> (0 <= m)%Q) ->
  (forall k, (inject_Z (clock k - clock 0%nat)%Z
              < default 1000 (truthy (timeLimit constraints)))%Q) ->
  optimize clock memo basePrice availableDeals constraints = Some out ->
  In d (applyConstraints availableDeals constraints) ->
  (finalPrice (result out) <= applyDeal basePrice d basePrice)%Q.
Proof.
  intros Hmiss Hbp Hplain Hmax Htime Hopt Hd.
  destruct (optimize_miss _ _ _ _ _ _ Hmiss Hopt) as (best & tick & Hbb & Hres).
  assert (Hfinal : finalPrice (result out) = finalPrice best
                   /\ totalSavings (result out) = totalSavings best).
  { destruct Hres as [(_ & alts & tick' & _ & ->)|[_ ->]]; done. }
  destruct Hfinal as [-> _].
  pose proof (branchAndBound_consistent _ _ _ _ _ _ _ _ Hbb) as (_ & _ & Hs & _).
  assert (Hperm : applyConstraints (sortDeals availableDeals basePrice) constraints
                  ≡ₚ applyConstraints availableDeals constraints).
  { apply applyConstraints_perm, stable_sort_perm. }
  eapply (branchAndBound_best_single _ _ _ _ _ _ Hbp) with (d := d) in Hbb.
  - unfold single in Hbb. simpl in *. lra.
  - rewrite Hperm. eapply Forall_of_sublist; [apply applyConstraints_sublist|exact Hplain].
  - destruct (maxDeals constraints) as [m|]; simpl; [|reflexivity].
    specialize (Hmax m eq_refl).
    destruct (Qeq_bool m 0) eqn:E; simpl; [reflexivity|].
    apply Qeq_bool_neq in E. 
    destruct (Qlt_le_dec 0 m) as [Hlt|Hle]; [exact Hlt|]. exfalso. apply E. lra.
  - intros k. apply Qltb_lt. apply Htime.
  - apply list_elem_of_In. rewrite Hperm. by apply list_elem_of_In.
Qed.

(** X9.  When the clock stays within the time limit, the result that
    [optimize] computes (the call is not answered from the memo cache) for
    a non-negative price, deals without a minimum purchase and with
    non-negative amounts, and a [maxDeals] that is not negative if it is
    given, is at least as good as the best single deal: its final price is
    at most the price after any one of the deals that the constraints
    allow.  (With a negative [maxDeals] no deal is ever taken.) *)
Theorem optimize_at_least_best_single (clock : nat -> Z) (memo : MemoCache)
  (basePrice : Q) (availableDeals : list Deal)
  (constraints : OptimizationConstraints) :
  memoGet (getCacheKey basePrice availableDeals constraints) memo = None ->
  (0 <= basePrice)%Q ->
  Forall plain availableDeals ->
  (forall m, maxDeals constraints = Some m -> (0 <= m)%Q) ->
  (forall k, (inject_Z (clock k - clock 0%nat)%Z
              < default 1000 (truthy (timeLimit constraints)))%Q) ->
  exists out,
    optimize clock memo basePrice availableDeals constraints = Some out
    /\ forall d, In d (applyConstraints availableDeals constraints) ->
         (finalPrice (result out) <= applyDeal basePrice d basePrice)%Q.
Proof.
  intros Hmiss Hbp Hplain Hmax Htime.
  destruct (optimize_total clock memo basePrice availableDeals constraints)
    as [out Hopt].
  exists out. split; [exact Hopt|]. intros d.
  by apply (optimize_miss_best_single clock memo).
Qed.

Lemma optimize_at_least_best_single_witness :
  memoGet (getCacheKey 100 [dealA; dealB] no_constraints) [] = None
  /\ (0 <= 100)%Q
  /\ Forall plain [dealA; dealB]
  /\ (forall m, maxDeals no_constraints = Some m -> (0 <= m)%Q)
  /\ (forall k, (inject_Z (frozenClock k - frozenClock 0%nat)%Z
                 < default 1000 (truthy (timeLimit no_constraints)))%Q)
  /\ exists out,
       optimize frozenClock [] 100 [dealA; dealB] no_constraints = Some out
       /\ forall d, In d (applyConstraints [dealA; dealB] no_constraints) ->
            (finalPrice (result out) <= applyDeal 100 d 100)%Q.
Proof.
  assert (H1 : (0 <= 100)%Q) by (vm_compute; discriminate).
  assert (H2 : Forall plain [dealA; dealB]).
  { repeat constructor; vm_compute; discriminate. }
  assert (H3 : forall m, maxDeals no_constraints = Some m -> (0 <= m)%Q)
    by (intros m; discriminate).
  assert (H4 : forall k, (inject_Z (frozenClock k - frozenClock 0%nat)%Z
                          < default 1000 (truthy (timeLimit no_constraints)))%Q)
    by (intros k; reflexivity).
  split; [reflexivity|]. split; [exact H1|]. split; [exact H2|].
  split; [exact H3|]. split; [exact H4|].
  exact (optimize_at_least_best_single frozenClock [] 100 [dealA; dealB]
           no_constraints eq_refl H1 H2 H3 H4).
Defined.

End StackOptimizerProperties.

Module DataCacheFacts.
Import DataCache.

Section Facts.
Context {T : Type}.
Implicit Types (m : list (jsstring * Entry T)) (c : t T).

Lemma mapGet_mapSet m key entry : mapGet key (mapSet key entry m) = Some entry.
Proof.
  induction m as [|[k e] m IH]; simpl.
  - unfold str_eqb. by rewrite bool_decide_eq_true_2.
  - destruct (str_eqb k key) eqn:E; simpl; rewrite E; [done|exact IH].
Qed.

Lemma mapGet_mapSet_ne m key key' entry :
  key <> key' -> mapGet key' (mapSet key entry m) = mapGet key' m.
Proof.
  intros Hne. induction m as [|[k e] m IH]; simpl.
  - unfold str_eqb. by rewrite bool_decide_eq_false_2.
  - destruct (str_eqb k key) eqn:E; simpl.
    + unfold str_eqb in *. apply bool_decide_eq_true in E. subst k.
      by rewrite bool_decide_eq_false_2.
    + by rewrite IH.
Qed.

Lemma mapGet_mapDelete_ne m key key' :
  key <> key' -> mapGet key' (mapDelete key m) = mapGet key' m.
Proof.
  intros Hne. induction m as [|[k e] m IH]; simpl; [done|].
  destruct (str_eqb k key) eqn:E; simpl.
  - unfold str_eqb in *. apply bool_decide_eq_true in E. subst k.
    by rewrite bool_decide_eq_false_2.
  - by rewrite IH.
Qed.

Lemma mapGet_None m key : key ∉ m.*1 -> mapGet key m = None.
Proof.
  induction m as [|[k e] m IH]; simpl; [done|].
  intros Hn. apply not_elem_of_cons in Hn as [Hne Hn].
  unfold str_eqb. rewrite bool_decide_eq_false_2; [by apply IH|congruence].
Qed.

Lemma mapGet_mapDelete m key : NoDup m.*1 -> mapGet key (mapDelete key m) = None.
Proof.
  induction m as [|[k e] m IH]; simpl; [done|].
  intros Hnd. apply NoDup_cons in Hnd as [Hn Hnd].
  destruct (str_eqb k key) eqn:E; simpl.
  - unfold str_eqb in E. apply bool_decide_eq_true in E. subst k.
    by apply mapGet_None.
  - rewrite E. by apply IH.
Qed.

Lemma mapGet_In m key entry : mapGet key m = Some entry -> In (key, entry) m.
Proof.
  induction m as [|[k e] m IH]; simpl; [done|].
  destruct (str_eqb k key) eqn:E.
  - unfold str_eqb in E. apply bool_decide_eq_true in E. subst k.
    intros [= ->]. by left.
  - intros H. right. by apply IH.
Qed.

Lemma length_mapSet m key entry : length (mapSet key entry m) <= S (length m).
Proof.
  induction m as [|[k e] m IH]; simpl; [lia|].
  destruct (str_eqb k key); simpl; lia.
Qed.

Lemma length_mapDelete_le m key : length (mapDelete key m) <= length m.
Proof.
  induction m as [|[k e] m IH]; simpl; [lia|].
  destruct (str_eqb k key); simpl; lia.
Qed.

Lemma length_mapDelete m key entry :
  In (key, entry) m -> S (length (mapDelete key m)) = length m.
Proof.
  induction m as [|[k e] m IH]; simpl; [done|].
  intros [H|H].
  - injection H as -> ->. unfold str_eqb. by rewrite bool_decide_eq_true_2.
  - destruct (str_eqb k key); simpl; [done|]. by rewrite IH.
Qed.

(** The entry [set] evicts at capacity: the first of the entries sorted by
    timestamp. *)
Definition oldest c : option (jsstring * Entry T) :=
  head (stable_sort (fun a b => (timestamp a.2 - timestamp b.2 <? 0)%Z) (cache c)).

Lemma oldest_spec c o :
  oldest c = Some o ->
  In o (cache c) /\ forall k e, In (k, e) (cache c) -> (timestamp o.2 <= timestamp e)%Z.
Proof.
  unfold oldest.
  set (before := fun a b : jsstring * Entry T => (timestamp a.2 - timestamp b.2 <? 0)%Z).
  intros H.
  assert (Hs : StronglySorted (fun a b => (timestamp a.2 <= timestamp b.2)%Z)
                 (stable_sort before (cache c))).
  { apply Sorted_StronglySorted; [intros x y z ? ?; lia|].
    assert (Hs : Sorted (fun a b => before b a = false) (stable_sort before (cache c))).
    { apply stable_sort_sorted. intros x y. unfold before. lia. }
    eapply Sorted_weaken; [|exact Hs].
    intros a b Hb. unfold before in Hb. lia. }
  pose proof (stable_sort_perm before (cache c)) as Hp.
  destruct (stable_sort before (cache c)) as [|o' l]; [discriminate|].
  injection H as ->. split.
  - apply list_elem_of_In. rewrite <- Hp. by left.
  - intros k e Hin. apply list_elem_of_In in Hin. rewrite <- Hp in Hin.
    apply StronglySorted_inv in Hs as [_ Hs].
    apply elem_of_cons in Hin as [<-|Hin]; [simpl; lia|].
    rewrite List.Forall_forall in Hs. apply list_elem_of_In in Hin.
    exact (Hs _ Hin).
Qed.

Lemma oldest_None c : oldest c = None -> cache c = [].
Proof.
  unfold oldest. intros H.
  pose proof (stable_sort_length
                (fun a b : jsstring * Entry T => (timestamp a.2 - timestamp b.2 <? 0)%Z)
                (cache c)) as Hl.
  destruct (stable_sort _ (cache c)); [|discriminate].
  destruct (cache c); [done|discriminate].
Qed.

(** [set], by what it evicts. *)
Lemma set_cache c now key d :
  cache (set c now key d)
  = mapSet key (mkEntry d now)
      (if Qle_bool (maxSize c) (Qlen (cache c)) then
         match oldest c with
         | Some o => mapDelete o.1 (cache c)
         | None => cache c
         end
       else cache c).
Proof.
  unfold set, oldest. simpl.
  destruct (Qle_bool _ _); [|done].
  by destruct (stable_sort _ (cache c)).
Qed.

(** X10.  A value stored by [set] is what [get] returns for the key as long
    as no more than [ttl] milliseconds have passed, whatever the cache held
    and whatever [set] evicted; after that [get] returns [null] and removes
    the entry. *)
Theorem get_after_set c (now now' : Z) (key : jsstring) (d : T) :
  get (set c now key d) now' key
  = if Qle_bool (inject_Z (now' - now)) (ttl c)
    then (Some d, set c now key d)
    else (None,
          mk (mapDelete key (cache (set c now key d))) (maxSize c) (ttl c)).
Proof.
  unfold get. rewrite set_cache, mapGet_mapSet. simpl.
  unfold Qltb. rewrite <- set_cache.
  by destruct (Qle_bool (inject_Z (now' - now)) (ttl c)).
Qed.

(** The caches a program can hold: created by the constructor, then used
    through the methods. *)
Inductive reachable (maxSize ttl : option Q) : t T -> Prop :=
  | reachable_new : reachable maxSize ttl (new T maxSize ttl)
  | reachable_set c now key d :
      reachable maxSize ttl c -> reachable maxSize ttl (set c now key d)
  | reachable_get c now key :
      reachable maxSize ttl c -> reachable maxSize ttl (get c now key).2
  | reachable_clear c :
      reachable maxSize ttl c -> reachable maxSize ttl (clear c).

Lemma NoDup_mapSet m key entry : NoDup m.*1 -> NoDup (mapSet key entry m).*1.
Proof.
  induction m as [|[k e] m IH]; simpl; [intros _; apply NoDup_singleton|].
  intros Hnd. apply NoDup_cons in Hnd as [Hn Hnd].
  destruct (str_eqb k key) eqn:E; simpl; [by constructor|].
  constructor; [|by apply IH].
  intros Hin. apply Hn. clear IH Hnd Hn.
  unfold str_eqb in E. apply bool_decide_eq_false in E.
  induction m as [|[k' e'] m IH]; simpl in *.
  - apply list_elem_of_singleton in Hin. congruence.
  - destruct (str_eqb k' key); simpl in *.
    + exact Hin.
    + apply elem_of_cons in Hin as [->|Hin]; [by left|right; by apply IH].
Qed.

Lemma mapDelete_keys m key : sublist (mapDelete key m).*1 m.*1.
Proof.
  induction m as [|[k e] m IH]; simpl; [done|].
  destruct (str_eqb k key); simpl; [by constructor|by constructor].
Qed.

Lemma NoDup_mapDelete m key : NoDup m.*1 -> NoDup (mapDelete key m).*1.
Proof. intros H. eapply sublist_NoDup; [exact H|apply mapDelete_keys]. Qed.

Lemma reachable_NoDup maxSize ttl c : reachable maxSize ttl c -> NoDup (cache c).*1.
Proof.
  induction 1 as [|c now key d _ IH|c now key _ IH|c _ IH].
  - constructor.
  - rewrite set_cache. apply NoDup_mapSet.
    destruct (Qle_bool _ _); [|exact IH].
    destruct (oldest c); [by apply NoDup_mapDelete|exact IH].
  - unfold get. destruct (mapGet key (cache c)) as [entry|]; [|exact IH].
    destruct (Qltb _ _); [|exact IH]. simpl. by apply NoDup_mapDelete.
  - constructor.
Qed.

(** X11.  A cache created with a capacity of [n >= 1] entries never holds
    more than [n] entries. *)
Theorem size_bounded (n : nat) (ttl : option Q) c :
  0 < n ->
  reachable (Some (inject_Z (Z.of_nat n))) ttl c ->
  size c <= n.
Proof.
  intros Hn Hr. unfold size.
  assert (H : maxSize c = inject_Z (Z.of_nat n) /\ length (cache c) <= n);
    [|by destruct H].
  induction Hr as [|c now key d _ [IH1 IH2]|c now key _ [IH1 IH2]|c _ [IH1 IH2]].
  - simpl. split; [done|lia].
  - split; [exact IH1|]. rewrite set_cache.
    destruct (Qle_bool _ _) eqn:E.
    + apply Qle_bool_iff in E. rewrite IH1 in E. unfold Qlen in E.
      rewrite <- Zle_Qle in E. apply Nat2Z.inj_le in E.
      destruct (oldest c) as [[k0 e0]|] eqn:Ho.
      * apply oldest_spec in Ho as [Hin _]. apply length_mapDelete in Hin.
        pose proof (length_mapSet (mapDelete k0 (cache c)) key (mkEntry d now)).
        simpl. lia.
      * apply oldest_None in Ho. rewrite Ho in *. simpl in *. lia.
    + assert (Hlt : length (cache c) < n).
      { destruct (le_lt_dec n (length (cache c))) as [Hle|Hlt]; [|exact Hlt].
        assert (Qle_bool (maxSize c) (Qlen (cache c)) = true); [|congruence].
        apply Qle_bool_iff. rewrite IH1. unfold Qlen. rewrite <- Zle_Qle. lia. }
      pose proof (length_mapSet (cache c) key (mkEntry d now)). lia.
  - unfold get. destruct (mapGet key (cache c)) as [entry|]; [|done].
    destruct (Qltb _ _); [|done]. simpl. split; [exact IH1|].
    pose proof (length_mapDelete_le (cache c) key). lia.
  - simpl. split; [exact IH1|lia].
Qed.

(** X12.  Below capacity [set] leaves the entries of the other keys alone.
    At capacity it first removes the entry with the smallest timestamp,
    even when the key set is already in the cache, and when that entry is
    the one of the key itself. *)
Theorem set_evicts_oldest (maxSize' ttl' : option Q) c (now : Z) (key : jsstring)
  (d : T) :
  reachable maxSize' ttl' c ->
  ((Qlen (cache c) < maxSize c)%Q ->
   forall k, k <> key -> mapGet k (cache (set c now key d)) = mapGet k (cache c))
  /\ ((maxSize c <= Qlen (cache c))%Q -> cache c <> [] ->
      exists k0 e0,
        mapGet k0 (cache c) = Some e0
        /\ (forall k e, mapGet k (cache c) = Some e ->
             (timestamp e0 <= timestamp e)%Z)
        /\ (k0 <> key -> mapGet k0 (cache (set c now key d)) = None)
        /\ (forall k, k <> k0 -> k <> key ->
             mapGet k (cache (set c now key d)) = mapGet k (cache c))).
Proof.
  intros Hr. apply reachable_NoDup in Hr. rewrite set_cache. split.
  - intros Hlt k Hk.
    assert (E : Qle_bool (maxSize c) (Qlen (cache c)) = false).
    { destruct (Qle_bool _ _) eqn:E; [|done]. apply Qle_bool_iff in E. lra. }
    rewrite E. by apply mapGet_mapSet_ne.
  - intros Hle Hne. apply Qle_bool_iff in Hle. rewrite Hle.
    destruct (oldest c) as [[k0 e0]|] eqn:Ho; [|by apply oldest_None in Ho].
    apply oldest_spec in Ho as [Hin Hmin]. simpl in *.
    exists k0, e0. split_and!.
    + clear Hmin Hle Hne. induction (cache c) as [|[k e] m IH]; simpl in *; [done|].
      apply NoDup_cons in Hr as [Hn Hr].
      destruct Hin as [Hin|Hin].
      * injection Hin as -> ->. unfold str_eqb. by rewrite bool_decide_eq_true_2.
      * unfold str_eqb. rewrite bool_decide_eq_false_2; [by apply IH|].
        intros ->. apply Hn. apply list_elem_of_In in Hin.
        by apply (list_elem_of_fmap_2 fst) in Hin.
    + intros k e Hk. apply mapGet_In in Hk. by apply (Hmin k).
    + intros Hk. rewrite mapGet_mapSet_ne by done. by apply mapGet_mapDelete.
    + intros k Hk0 Hk. rewrite mapGet_mapSet_ne by done.
      by apply mapGet_mapDelete_ne.
Qed.
End Facts.

Lemma size_bounded_witness :
  let c :=
    set (set (set (new nat (Some 2%Q) None) 0 (js "a") 1) 1 (js "b") 2)
      2 (js "c") 3 in
  0 < 2
  /\ reachable (Some (inject_Z (Z.of_nat 2))) None c
  /\ size c <= 2.
Proof.
  intros c.
  assert (H0 : 0 < 2) by lia.
  assert (H : reachable (Some (inject_Z (Z.of_nat 2))) None c)
    by (repeat constructor).
  split; [exact H0|]. split; [exact H|].
  exact (size_bounded 2 None c H0 H).
Defined.

Lemma set_evicts_oldest_witness :
  let c := set (set (new nat (Some 2%Q) None) 5 (js "a") 1) 3 (js "b") 2 in
  reachable (Some 2%Q) None c
  /\ ((Qlen (cache c) < maxSize c)%Q ->
      forall k, k <> js "a" ->
        mapGet k (cache (set c 9 (js "a") 7)) = mapGet k (cache c))
  /\ ((maxSize c <= Qlen (cache c))%Q -> cache c <> [] ->
      exists k0 e0,
        mapGet k0 (cache c) = Some e0
        /\ (forall k e, mapGet k (cache c) = Some e ->
             (timestamp e0 <= timestamp e)%Z)
        /\ (k0 <> js "a" -> mapGet k0 (cache (set c 9 (js "a") 7)) = None)
        /\ (forall k, k <> k0 -> k <> js "a" ->
             mapGet k (cache (set c 9 (js "a") 7)) = mapGet k (cache c))).
Proof.
  intros c.
  assert (H : reachable (Some 2%Q) None c) by (repeat constructor).
  split; [exact H|].
  exact (set_evicts_oldest (Some 2%Q) None c 9 (js "a") 7 H).
Defined.

End DataCacheFacts.

Module StackSmartFacts.
Import StackOptimizer StackOptimizerFacts StackOptimizerProperties.

(** ** The memo cache looks at the ids of the deals only *)

Lemma optimize_leaves_entry (clock : nat -> Z) (memo : MemoCache) (basePrice : Q)
  (availableDeals : list Deal) (constraints : OptimizationConstraints) out :
  optimize clock memo basePrice availableDeals constraints = Some out ->
  memoGet (getCacheKey basePrice availableDeals constraints) (memoAfter out)
  = Some (result out).
Proof.
  unfold optimize.
  destruct (memoGet _ memo) as [cached|] eqn:Hget.
  - by intros [= <-].
  - destruct (branchAndBound _ _ _ _ _ _ _) as [[best tick]|]; [|discriminate].
    destruct (if Qltb 0 (totalSavings best) then _ else _); [|discriminate].
    intros [= <-]. simpl. apply memoGet_memoSet.
Qed.

Lemma optimize_hit (clock : nat -> Z) (memo : MemoCache) (basePrice : Q)
  (availableDeals : list Deal) (constraints : OptimizationConstraints)
  (cached : StackResult) :
  memoGet (getCacheKey basePrice availableDeals constraints) memo = Some cached ->
  optimize clock memo basePrice availableDeals constraints
  = Some (mkOutcome cached memo availableDeals).
Proof. intros H. unfold optimize. by rewrite H. Qed.

Lemma getCacheKey_ids (basePrice : Q) (deals deals' : list Deal)
  (constraints : OptimizationConstraints) :
  id <$> deals = id <$> deals' ->
  getCacheKey basePrice deals constraints = getCacheKey basePrice deals' constraints.
Proof. intros H. unfold getCacheKey. by rewrite H. Qed.

Lemma imap_ids {A B} (f : nat -> A -> Deal) (g : nat -> B -> Deal)
  (l : list A) (l' : list B) :
  length l = length l' ->
  (forall i x y, id (f i x) = id (g i y)) ->
  id <$> imap f l = id <$> imap g l'.
Proof.
  revert f g l'. induction l as [|x l IH]; intros f g [|y l'] Hlen Hid;
    simpl in *; try done.
  f_equal; [apply Hid|]. apply IH; [lia|]. intros i. apply Hid.
Qed.

(** X13.  The deals that [findBestCouponStack] builds are named by their
    position in the list, and the optimizer caches by price and deal ids:
    once it has been called with a price and [n] coupons, a call with the
    same price and any [n] coupons returns the result of the first call. *)
Theorem findBestCouponStack_same_count (clock clock' : nat -> Z) (memo : MemoCache)
  (basePrice : Q) (coupons coupons' : list StackSmart.Coupon) :
  length coupons' = length coupons ->
  exists out out',
    StackSmart.findBestCouponStack clock memo basePrice coupons = Some out
    /\ StackSmart.findBestCouponStack clock' (memoAfter out) basePrice coupons'
       = Some out'
    /\ result out' = result out
    /\ memoAfter out' = memoAfter out.
Proof.
  intros Hlen. unfold StackSmart.findBestCouponStack in *.
  destruct (optimize_total clock memo basePrice
              (imap StackSmart.couponDeal coupons) no_constraints) as [out Hopt].
  exists out. rewrite Hopt.
  apply optimize_leaves_entry in Hopt.
  rewrite (getCacheKey_ids _ _ (imap StackSmart.couponDeal coupons')) in Hopt.
  - rewrite (optimize_hit _ _ _ _ _ _ Hopt). eauto.
  - apply imap_ids; [done|]. by intros i x y.
Qed.

Lemma findBestCouponStack_same_count_witness :
  length [StackSmart.mkCoupon (js "SAVE50") 50 fixed]
  = length [StackSmart.mkCoupon (js "SAVE10") 10 fixed]
  /\ exists out out',
       StackSmart.findBestCouponStack frozenClock [] 100
         [StackSmart.mkCoupon (js "SAVE10") 10 fixed] = Some out
       /\ StackSmart.findBestCouponStack frozenClock (memoAfter out) 100
            [StackSmart.mkCoupon (js "SAVE50") 50 fixed] = Some out'
       /\ result out' = result out
       /\ memoAfter out' = memoAfter out.
Proof.
  split; [reflexivity|].
  exact (findBestCouponStack_same_count frozenClock frozenClock [] 100
           [StackSmart.mkCoupon (js "SAVE10") 10 fixed]
           [StackSmart.mkCoupon (js "SAVE50") 50 fixed] eq_refl).
Defined.

(** ** Coupons do not stack *)

Lemma same_type_no_stack (a b : Deal) :
  type a = type b -> canStackSameType (type b) = false ->
  canStackDeal b [a] = false.
Proof.
  intros Ht Hs. unfold canStackDeal. simpl.
  rewrite Ht, Hs, DealType_eqb_refl.
  destruct (stackable a), (stackable b), (stacksWith a), (stacksWith b);
    simpl; try reflexivity;
    repeat match goal with |- context [includes ?l ?t] => destruct (includes l t) end;
    reflexivity.
Qed.

Lemma couponDeal_In (coupons : list StackSmart.Coupon) (d : Deal) :
  In d (imap StackSmart.couponDeal coupons) ->
  exists index c, coupons !! index = Some c /\ d = StackSmart.couponDeal index c.
Proof.
  intros H. apply list_elem_of_In, elem_of_lookup_imap in H as (i & c & -> & Hc).
  eauto.
Qed.

(** X14.  [findBestCouponStack] never combines coupons: the stack it
    computes is empty, or made of one coupon of the list, and the final
    price is the price after that coupon. *)
Theorem findBestCouponStack_single_coupon (clock : nat -> Z) (memo : MemoCache)
  (basePrice : Q) (coupons : list StackSmart.Coupon) :
  memoGet (getCacheKey basePrice (imap StackSmart.couponDeal coupons) no_constraints)
    memo = None ->
  exists out,
    StackSmart.findBestCouponStack clock memo basePrice coupons = Some out
    /\ ((deals (result out) = [] /\ finalPrice (result out) = basePrice)
        \/ exists index c,
             coupons !! index = Some c
             /\ deals (result out) = [StackSmart.couponDeal index c]
             /\ finalPrice (result out)
                = applyDeal basePrice (StackSmart.couponDeal index c) basePrice).
Proof.
  intros Hmiss. unfold StackSmart.findBestCouponStack.
  destruct (optimize_total clock memo basePrice
              (imap StackSmart.couponDeal coupons) no_constraints) as [out Hopt].
  exists out. split; [exact Hopt|].
  destruct (optimize_miss_rules _ _ _ _ _ _ Hmiss Hopt) as (_ & Hin & Hst & _ & Hp).
  rewrite Hp. clear Hp.
  destruct (deals (result out)) as [|a [|b rest]].
  - by left.
  - right. apply Forall_cons in Hin as [(Ha & _) _].
    apply couponDeal_In in Ha as (index & c & Hc & ->).
    exists index, c. done.
  - exfalso.
    apply Forall_cons in Hin as [(Ha & _) Hin].
    apply Forall_cons in Hin as [(Hb & _) _].
    apply couponDeal_In in Ha as (ia & ca & _ & ->).
    apply couponDeal_In in Hb as (ib & cb & _ & ->).
    change (stackableFrom [] (?a :: ?b :: ?l))
      with (canStackDeal a [] && (canStackDeal b [a] && stackableFrom [a; b] l)) in Hst.
    rewrite (same_type_no_stack (StackSmart.couponDeal ia ca)
               (StackSmart.couponDeal ib cb)) in Hst by done.
    by rewrite andb_false_r in Hst.
Qed.

Lemma findBestCouponStack_single_coupon_witness :
  memoGet (getCacheKey 100
             (imap StackSmart.couponDeal
                [StackSmart.mkCoupon (js "SAVE10") 10 fixed;
                 StackSmart.mkCoupon (js "HALF") 50 percentage])
             no_constraints) [] = None
  /\ exists out,
       StackSmart.findBestCouponStack frozenClock [] 100
         [StackSmart.mkCoupon (js "SAVE10") 10 fixed;
          StackSmart.mkCoupon (js "HALF") 50 percentage] = Some out
       /\ ((deals (result out) = [] /\ finalPrice (result out) = 100%Q)
           \/ exists index c,
                [StackSmart.mkCoupon (js "SAVE10") 10 fixed;
                 StackSmart.mkCoupon (js "HALF") 50 percentage] !! index = Some c
                /\ deals (result out) = [StackSmart.couponDeal index c]
                /\ finalPrice (result out)
                   = applyDeal 100 (StackSmart.couponDeal index c) 100).
Proof.
  split; [reflexivity|].
  exact (findBestCouponStack_single_coupon frozenClock [] 100
           [StackSmart.mkCoupon (js "SAVE10") 10 fixed;
            StackSmart.mkCoupon (js "HALF") 50 percentage] eq_refl).
Defined.

Lemma couponDeal_plain (index : nat) (c : StackSmart.Coupon) :
  (0 <= StackSmart.discount c)%Q -> plain (StackSmart.couponDeal index c).
Proof.
  intros H. split; [reflexivity|]. split_and!; [exact H|exact I|exact I].
Qed.

Lemma imap_Forall {A B} (f : nat -> A -> B) (P : A -> Prop) (R : B -> Prop)
  (l : list A) :
  (forall i x, P x -> R (f i x)) -> Forall P l -> Forall R (imap f l).
Proof.
  intros H Hl. apply Forall_forall. intros y Hy.
  apply elem_of_lookup_imap in Hy as (i & x & -> & Hx).
  apply H. rewrite Forall_forall in Hl. apply Hl.
  by eapply list_elem_of_lookup_2.
Qed.

(** X15.  When the clock stays within the time limit of one second,
    [findBestCouponStack] finds the best coupon: for a non-negative price
    and non-negative discounts, no coupon of the list gives a lower price
    than the one returned. *)
Theorem findBestCouponStack_best (clock : nat -> Z) (memo : MemoCache)
  (basePrice : Q) (coupons : list StackSmart.Coupon) :
  memoGet (getCacheKey basePrice (imap StackSmart.couponDeal coupons) no_constraints)
    memo = None ->
  (0 <= basePrice)%Q ->
  Forall (fun c => (0 <= StackSmart.discount c)%Q) coupons ->
  (forall k, (clock k - clock 0%nat < 1000)%Z) ->
  exists out,
    StackSmart.findBestCouponStack clock memo basePrice coupons = Some out
    /\ forall index c,
         coupons !! index = Some c ->
         (finalPrice (result out)
          <= applyDeal basePrice (StackSmart.couponDeal index c) basePrice)%Q.
Proof.
  intros Hmiss Hbp Hpos Htime.
  unfold StackSmart.findBestCouponStack.
  destruct (optimize_total clock memo basePrice
              (imap StackSmart.couponDeal coupons) no_constraints) as [out Hopt].
  exists out. split; [exact Hopt|]. intros index c Hc.
  apply (optimize_miss_best_single _ _ _ _ _ _ (StackSmart.couponDeal index c)
           Hmiss Hbp) in Hopt; [exact Hopt| | | |].
  - eapply imap_Forall; [|exact Hpos]. intros i x. apply couponDeal_plain.
  - intros m. discriminate.
  - intros k. simpl. specialize (Htime k).
    change 1000%Q with (inject_Z 1000). rewrite <- Zlt_Qlt. exact Htime.
  - apply list_elem_of_In, elem_of_lookup_imap. eauto.
Qed.

Lemma findBestCouponStack_best_witness :
  memoGet (getCacheKey 100
             (imap StackSmart.couponDeal
                [StackSmart.mkCoupon (js "SAVE10") 10 fixed;
                 StackSmart.mkCoupon (js "HALF") 50 percentage])
             no_constraints) [] = None
  /\ (0 <= 100)%Q
  /\ Forall (fun c => (0 <= StackSmart.discount c)%Q)
       [StackSmart.mkCoupon (js "SAVE10") 10 fixed;
        StackSmart.mkCoupon (js "HALF") 50 percentage]
  /\ (forall k, (frozenClock k - frozenClock 0%nat < 1000)%Z)
  /\ exists out,
       StackSmart.findBestCouponStack frozenClock [] 100
         [StackSmart.mkCoupon (js "SAVE10") 10 fixed;
          StackSmart.mkCoupon (js "HALF") 50 percentage] = Some out
       /\ forall index c,
            [StackSmart.mkCoupon (js "SAVE10") 10 fixed;
             StackSmart.mkCoupon (js "HALF") 50 percentage] !! index = Some c ->
            (finalPrice (result out)
             <= applyDeal 100 (StackSmart.couponDeal index c) 100)%Q.
Proof.
  assert (H1 : (0 <= 100)%Q) by (vm_compute; discriminate).
  assert (H2 : Forall (fun c => (0 <= StackSmart.discount c)%Q)
                 [StackSmart.mkCoupon (js "SAVE10") 10 fixed;
                  StackSmart.mkCoupon (js "HALF") 50 percentage]).
  { repeat constructor; vm_compute; discriminate. }
  assert (H3 : forall k, (frozenClock k - frozenClock 0%nat < 1000)%Z)
    by (intros k; reflexivity).
  split; [reflexivity|]. split; [exact H1|]. split; [exact H2|]. split; [exact H3|].
  exact (findBestCouponStack_best frozenClock [] 100
           [StackSmart.mkCoupon (js "SAVE10") 10 fixed;
            StackSmart.mkCoupon (js "HALF") 50 percentage] eq_refl H1 H2 H3).
Defined.

(** ** Cashback on top of a stack *)

Definition offerOk (cb : StackSmart.CashbackOffer) : Prop :=
  (0 <= StackSmart.percentage cb)%Q
  /\ match StackSmart.maxCashback cb with
     | Some m => (0 <= m)%Q
     | None => True
     end.

Lemma cashbackDeal_plain (index : nat) (cb : StackSmart.CashbackOffer) :
  offerOk cb -> plain (StackSmart.cashbackDeal index cb).
Proof.
  intros [H1 H2]. split; [reflexivity|]. split_and!; [exact H1|exact H2|exact I].
Qed.

Lemma optimize_miss_price (clock : nat -> Z) (memo : MemoCache) (basePrice : Q)
  (availableDeals : list Deal) (constraints : OptimizationConstraints) out :
  memoGet (getCacheKey basePrice availableDeals constraints) memo = None ->
  (0 <= basePrice)%Q ->
  optimize clock memo basePrice availableDeals constraints = Some out ->
  (0 <= finalPrice (result out) <= basePrice)%Q.
Proof.
  intros Hmiss Hbp Hopt.
  destruct (optimize_miss _ _ _ _ _ _ Hmiss Hopt) as (best & tick & Hbb & Hres).
  apply (branchAndBound_ok _ _ _ _ _ _ Hbp) in Hbb as (H1 & H2 & _).
  destruct Hres as [(_ & alts & tick' & _ & ->)|[_ ->]]; simpl in *; lra.
Qed.

(** X16.  [combineWithCashback] hands the deals of the stack it is given to
    the optimizer once more, next to the cashback offers, with the final
    price of that stack as the base price.  For a stack whose final price
    is not negative and whose deals have no minimum purchase and no negative
    amount, and cashback offers whose percentage and cap are not negative,
    when the call is not answered from the memo cache and the clock stays
    within the time limit, the price it returns is therefore at most the
    price after applying any one deal of that stack to its final price a
    second time, and at most the price after any one cashback offer; it is
    between 0 and the final price of the stack. *)
Theorem combineWithCashback_reapplies (clock : nat -> Z) (memo : MemoCache)
  (stackResult : StackResult) (cashbackOffers : list StackSmart.CashbackOffer) :
  memoGet (getCacheKey (finalPrice stackResult)
             (deals stackResult ++ imap StackSmart.cashbackDeal cashbackOffers)
             no_constraints) memo = None ->
  (0 <= finalPrice stackResult)%Q ->
  Forall plain (deals stackResult) ->
  Forall offerOk cashbackOffers ->
  (forall k, (clock k - clock 0%nat < 1000)%Z) ->
  exists out,
    StackSmart.combineWithCashback clock memo stackResult cashbackOffers = Some out
    /\ (0 <= finalPrice (result out) <= finalPrice stackResult)%Q
    /\ (forall d, In d (deals stackResult) ->
          (finalPrice (result out)
           <= applyDeal (finalPrice stackResult) d (finalPrice stackResult))%Q)
    /\ (forall index cb, cashbackOffers !! index = Some cb ->
          (finalPrice (result out)
           <= applyDeal (finalPrice stackResult)
                (StackSmart.cashbackDeal index cb) (finalPrice stackResult))%Q).
Proof.
  intros Hmiss Hbp Hplain Hoffers Htime.
  unfold StackSmart.combineWithCashback.
  destruct (optimize_total clock memo (finalPrice stackResult)
              (deals stackResult ++ imap StackSmart.cashbackDeal cashbackOffers)
              no_constraints) as [out Hopt].
  exists out. split; [exact Hopt|].
  assert (Hall : Forall plain
                   (deals stackResult
                    ++ imap StackSmart.cashbackDeal cashbackOffers)).
  { apply Forall_app. split; [exact Hplain|].
    eapply imap_Forall; [|exact Hoffers]. intros i x. apply cashbackDeal_plain. }
  assert (Hbest : forall d,
            In d (deals stackResult ++ imap StackSmart.cashbackDeal cashbackOffers) ->
            (finalPrice (result out)
             <= applyDeal (finalPrice stackResult) d (finalPrice stackResult))%Q).
  { intros d Hd.
    apply (optimize_miss_best_single _ _ _ _ _ _ d Hmiss Hbp Hall) in Hopt;
      [exact Hopt| | |exact Hd].
    - intros m. discriminate.
    - intros k. simpl. specialize (Htime k).
      change 1000%Q with (inject_Z 1000). rewrite <- Zlt_Qlt. exact Htime. }
  split_and!.
  - by apply (optimize_miss_price _ _ _ _ _ _ Hmiss Hbp Hopt).
  - by apply (optimize_miss_price _ _ _ _ _ _ Hmiss Hbp Hopt).
  - intros d Hd. apply Hbest, in_or_app. by left.
  - intros index cb Hcb. apply Hbest, in_or_app. right.
    apply list_elem_of_In, elem_of_lookup_imap. eauto.
Qed.

(** The coupon of 60 has brought 100 down to 40; with a cashback offer of
    5 %, capped at 10, the coupon is applied once more. *)
Lemma combineWithCashback_reapplies_witness :
  let stackResult :=
    mkStackResult [dealA] 60 40 (generateBreakdown 100 [dealA]) None None in
  let cashbackOffers := [StackSmart.mkCashbackOffer (js "bank") 5 (Some 10%Q)] in
  memoGet (getCacheKey (finalPrice stackResult)
             (deals stackResult ++ imap StackSmart.cashbackDeal cashbackOffers)
             no_constraints) [] = None
  /\ (0 <= finalPrice stackResult)%Q
  /\ Forall plain (deals stackResult)
  /\ Forall offerOk cashbackOffers
  /\ (forall k, (frozenClock k - frozenClock 0%nat < 1000)%Z)
  /\ exists out,
       StackSmart.combineWithCashback frozenClock [] stackResult cashbackOffers
       = Some out
       /\ (0 <= finalPrice (result out) <= finalPrice stackResult)%Q
       /\ (forall d, In d (deals stackResult) ->
             (finalPrice (result out)
              <= applyDeal (finalPrice stackResult) d (finalPrice stackResult))%Q)
       /\ (forall index cb, cashbackOffers !! index = Some cb ->
             (finalPrice (result out)
              <= applyDeal (finalPrice stackResult)
                   (StackSmart.cashbackDeal index cb) (finalPrice stackResult))%Q).
Proof.
  intros stackResult cashbackOffers.
  assert (H1 : (0 <= finalPrice stackResult)%Q) by (vm_compute; discriminate).
  assert (H2 : Forall plain (deals stackResult)).
  { repeat constructor; vm_compute; discriminate. }
  assert (H3 : Forall offerOk cashbackOffers).
  { repeat constructor; vm_compute; discriminate. }
  assert (H4 : forall k, (frozenClock k - frozenClock 0%nat < 1000)%Z)
    by (intros k; reflexivity).
  split; [reflexivity|]. split; [exact H1|]. split; [exact H2|].
  split; [exact H3|]. split; [exact H4|].
  exact (combineWithCashback_reapplies frozenClock [] stackResult cashbackOffers
           eq_refl H1 H2 H3 H4).
Defined.

(** ** The store *)

Section Store.
Context {Other Error : Type}.
Implicit Types (w : @StackSmart.World Other Error).

(** X17.  After [optimizeStack] for a product, the result sits in the global
    data cache under the key of the product, and in the store.  As long as
    that entry is in the data cache (the cache is shared, and [set] evicts
    its oldest entry when it is full) and is not older than the cache's time
    to live, every call of [optimizeStack] for the product returns that
    result, whatever the price, the deals and the constraints passed, and
    whatever has become of the store, of the optimizer's memo cache and of
    the other entries of the data cache in between; such a call changes the
    store only. *)
Theorem optimizeStack_cached w (now : Z) (clock : nat -> Z) (later : Z)
  (productId : jsstring) (basePrice : Q) (availableDeals : list Deal)
  (constraints : option OptimizationConstraints) :
  exists r w1 ds ts,
    StackSmart.optimizeStack w now clock later productId basePrice availableDeals
      constraints = Some (r, w1, ds)
    /\ DataCache.mapGet (js "stack-optimization-" ++ productId)
         (DataCache.cache (StackSmart.globalDataCache w1))
       = Some (DataCache.mkEntry r ts)
    /\ StackSmart.optimizations (StackSmart.store w1) !! productId = Some r
    /\ forall w' now' clock' later' basePrice' availableDeals' constraints',
         DataCache.mapGet (js "stack-optimization-" ++ productId)
           (DataCache.cache (StackSmart.globalDataCache w'))
         = Some (DataCache.mkEntry r ts) ->
         (inject_Z (now' - ts) <= DataCache.ttl (StackSmart.globalDataCache w'))%Q ->
         StackSmart.optimizeStack w' now' clock' later' productId basePrice'
           availableDeals' constraints'
         = Some (r,
                 StackSmart.mkWorld (StackSmart.globalDataCache w')
                   (StackSmart.memoCache w')
                   (StackSmart.mkStore
                      (<[productId:=r]>
                         (StackSmart.optimizations (StackSmart.store w')))
                      (StackSmart.loading (StackSmart.store w'))
                      (StackSmart.error (StackSmart.store w'))),
                 availableDeals').
Proof.
  assert (Hhit : forall r ts w' now' clock' later' basePrice' availableDeals'
                   constraints',
            DataCache.mapGet (js "stack-optimization-" ++ productId)
              (DataCache.cache (StackSmart.globalDataCache w'))
            = Some (DataCache.mkEntry r ts) ->
            (inject_Z (now' - ts) <= DataCache.ttl (StackSmart.globalDataCache w'))%Q ->
            StackSmart.optimizeStack w' now' clock' later' productId basePrice'
              availableDeals' constraints'
            = Some (r,
                    StackSmart.mkWorld (StackSmart.globalDataCache w')
                      (StackSmart.memoCache w')
                      (StackSmart.mkStore
                         (<[productId:=r]>
                            (StackSmart.optimizations (StackSmart.store w')))
                         (StackSmart.loading (StackSmart.store w'))
                         (StackSmart.error (StackSmart.store w'))),
                    availableDeals')).
  { intros r ts w' now' clock' later' basePrice' availableDeals' constraints'
      Hget Hfresh.
    unfold StackSmart.optimizeStack, DataCache.get.
    rewrite Hget. cbn [DataCache.timestamp DataCache.data].
    assert (E : Qltb (DataCache.ttl (StackSmart.globalDataCache w'))
                  (inject_Z (now' - ts)) = false)
      by by apply Qltb_ge.
    rewrite E. reflexivity. }
  unfold StackSmart.optimizeStack at 1, DataCache.get.
  destruct (DataCache.mapGet _ (DataCache.cache (StackSmart.globalDataCache w)))
    as [[d ts]|] eqn:Hget.
  - cbn [DataCache.timestamp DataCache.data].
    destruct (Qltb _ _) eqn:Hexp.
    + destruct (optimize_total clock (StackSmart.memoCache w) basePrice availableDeals
                  (default no_constraints constraints)) as [out Hopt].
      rewrite Hopt. do 4 eexists. split; [reflexivity|].
      cbn [StackSmart.globalDataCache StackSmart.store StackSmart.optimizations].
      split_and!.
      * rewrite DataCacheFacts.set_cache. apply DataCacheFacts.mapGet_mapSet.
      * apply lookup_insert_eq.
      * intros w'. apply Hhit.
    + do 4 eexists. split; [reflexivity|].
      cbn [StackSmart.globalDataCache StackSmart.store StackSmart.optimizations].
      split_and!; [exact Hget|apply lookup_insert_eq|intros w'; apply Hhit].
  - destruct (optimize_total clock (StackSmart.memoCache w) basePrice availableDeals
                (default no_constraints constraints)) as [out Hopt].
    rewrite Hopt. do 4 eexists. split; [reflexivity|].
    cbn [StackSmart.globalDataCache StackSmart.store StackSmart.optimizations].
    split_and!.
    + rewrite DataCacheFacts.set_cache. apply DataCacheFacts.mapGet_mapSet.
    + apply lookup_insert_eq.
    + intros w'. apply Hhit.
Qed.
End Store.

End StackSmartFacts.

Module FraudDetectionEngineProperties.
Import FraudDetectionEngine FraudDetectionEngineFacts.

(** ** The heap *)

Section Heap.
Context {T : Type} (compareFn : T -> T -> Q).

Hypothesis before_asym :
  forall a b, before compareFn a b = true -> before compareFn b a = false.
Hypothesis before_trans :
  forall a b c, before compareFn b a = false -> before compareFn c b = false ->
    before compareFn c a = false.

(** The heaps a program can hold: empty when created, then changed by
    [insert] and [extractMin]. *)
Inductive built : list T -> Prop :=
  | built_new : built []
  | built_insert heap value :
      built heap -> built (MinHeap.insert compareFn heap value)
  | built_extractMin heap :
      built heap -> built (MinHeap.extractMin compareFn heap).2.

Lemma built_ordered (heap : list T) : built heap -> heapOrdered compareFn heap.
Proof.
  induction 1 as [|heap value _ IH|heap _ IH].
  - apply heapOrdered_nil.
  - by apply insert_correct.
  - pose proof (extractMin_correct compareFn before_asym before_trans heap IH) as H.
    destruct (MinHeap.extractMin compareFn heap) as [[m|] heap'].
    + by destruct H as (_ & H & _).
    + destruct H as [_ ->]. apply heapOrdered_nil.
Qed.

(** X18.  [insert] adds the value, and nothing else, to the heap, and the
    heap then has at its top an element that none of its elements goes
    before. *)
Theorem MinHeap_insert_spec (heap : list T) (value : T) :
  built heap ->
  MinHeap.size (MinHeap.insert compareFn heap value) = S (MinHeap.size heap)
  /\ MinHeap.insert compareFn heap value ≡ₚ value :: heap
  /\ exists top,
       MinHeap.peek (MinHeap.insert compareFn heap value) = Some top
       /\ forall x, x ∈ value :: heap -> before compareFn x top = false.
Proof.
  intros Hb. apply built_ordered in Hb.
  destruct (insert_correct compareFn before_asym before_trans heap value Hb)
    as [Ho Hp].
  assert (Hlen : length (MinHeap.insert compareFn heap value) = S (length heap))
    by by rewrite Hp.
  split_and!; [exact Hlen|exact Hp|].
  unfold MinHeap.peek.
  destruct (MinHeap.insert compareFn heap value) as [|top heap'] eqn:E;
    [discriminate|].
  exists top. split; [reflexivity|].
  intros x Hx. rewrite <- Hp in Hx. apply list_elem_of_lookup in Hx as [i Hi].
  by apply (root_first compareFn before_asym before_trans _ top Ho eq_refl i).
Qed.

(** X19.  [extractMin] returns [undefined] on the empty heap, which it
    leaves empty; otherwise it removes and returns the element at the top,
    the one [peek] shows, that none of the elements goes before, and leaves
    the others. *)
Theorem MinHeap_extractMin_spec (heap : list T) :
  built heap ->
  match MinHeap.extractMin compareFn heap with
  | (None, heap') => heap = [] /\ heap' = []
  | (Some min, heap') =>
      MinHeap.peek heap = Some min
      /\ (forall x, x ∈ heap -> before compareFn x min = false)
      /\ min :: heap' ≡ₚ heap
      /\ S (MinHeap.size heap') = MinHeap.size heap
  end.
Proof.
  intros Hb. apply built_ordered in Hb.
  pose proof (extractMin_correct compareFn before_asym before_trans heap Hb) as H.
  destruct (MinHeap.extractMin compareFn heap) as [[m|] heap']; [|exact H].
  destruct H as (H1 & _ & H3 & H4). split_and!; [exact H1|exact H4|exact H3|].
  unfold MinHeap.size. by rewrite <- H3.
Qed.
End Heap.

Lemma MinHeap_insert_spec_witness :
  built anomalyCompare [mkAnomaly (js "a") 5]
  /\ MinHeap.size (MinHeap.insert anomalyCompare [mkAnomaly (js "a") 5]
                     (mkAnomaly (js "b") 7)) = 2
  /\ MinHeap.insert anomalyCompare [mkAnomaly (js "a") 5] (mkAnomaly (js "b") 7)
     ≡ₚ [mkAnomaly (js "b") 7; mkAnomaly (js "a") 5]
  /\ exists top,
       MinHeap.peek (MinHeap.insert anomalyCompare [mkAnomaly (js "a") 5]
                       (mkAnomaly (js "b") 7)) = Some top
       /\ forall x, x ∈ [mkAnomaly (js "b") 7; mkAnomaly (js "a") 5] ->
            before anomalyCompare x top = false.
Proof.
  assert (Hb : built anomalyCompare [mkAnomaly (js "a") 5]).
  { apply (built_insert anomalyCompare [] (mkAnomaly (js "a") 5)). constructor. }
  split; [exact Hb|].
  exact (MinHeap_insert_spec anomalyCompare anomaly_asym anomaly_trans
           [mkAnomaly (js "a") 5] (mkAnomaly (js "b") 7) Hb).
Defined.

(** Five anomalies inserted one by one: the one with the largest score,
    which the comparator puts first, is extracted. *)
Lemma MinHeap_extractMin_spec_witness :
  let heap :=
    MinHeap.insert anomalyCompare
      (MinHeap.insert anomalyCompare
         (MinHeap.insert anomalyCompare
            (MinHeap.insert anomalyCompare
               (MinHeap.insert anomalyCompare [] (mkAnomaly (js "a") 5))
               (mkAnomaly (js "b") 2))
            (mkAnomaly (js "c") 9))
         (mkAnomaly (js "d") 1))
      (mkAnomaly (js "e") 7) in
  built anomalyCompare heap
  /\ MinHeap.size heap = 5
  /\ (MinHeap.extractMin anomalyCompare heap).1 = Some (mkAnomaly (js "c") 9)
  /\ match MinHeap.extractMin anomalyCompare heap with
     | (None, heap') => heap = [] /\ heap' = []
     | (Some min, heap') =>
         MinHeap.peek heap = Some min
         /\ (forall x, x ∈ heap -> before anomalyCompare x min = false)
         /\ min :: heap' ≡ₚ heap
         /\ S (MinHeap.size heap') = MinHeap.size heap
     end.
Proof.
  intros heap.
  assert (Hb : built anomalyCompare heap)
    by (repeat apply built_insert; apply built_new).
  split; [exact Hb|].
  split; [vm_compute; reflexivity|].
  split; [vm_compute; reflexivity|].
  exact (MinHeap_extractMin_spec anomalyCompare anomaly_asym anomaly_trans heap Hb).
Defined.

(** ** The trie *)

(** X20.  After [insert(pattern)] the search finds a match in a text exactly
    when it found one before, or the pattern, which is not empty and has no
    surrogate pair, occurs in the text. *)
Theorem Trie_insert_search (root : TrieNode) (pattern text : jsstring) :
  Trie.search (Trie.insert root pattern) text = true
  <-> Trie.search root text = true
      \/ (pattern <> [] /\ hasSurrogatePair pattern = false
          /\ isSubstring pattern text).
Proof.
  rewrite !search_spec. unfold Trie.insert. split.
  - intros (p & Hp & Hsub & H).
    rewrite endsAt_insertFrom, orb_true_iff, bool_decide_eq_true in H.
    destruct H as [H|H]; [left; by exists p|right].
    symmetry in H. apply codePoints_pair in H as [Hpair ->]. done.
  - intros [(p & Hp & Hsub & H)|(Hp & Hpair & Hsub)].
    + exists p. split_and!; [done|done|].
      rewrite endsAt_insertFrom, H. done.
    + exists pattern. split_and!; [done|done|].
      rewrite endsAt_insertFrom, (codePoints_units _ Hpair).
      rewrite bool_decide_eq_true_2 by done. apply orb_true_r.
Qed.

Lemma childSet_childSet (c : jsstring) (x y : TrieNode)
  (m : list (jsstring * TrieNode)) :
  childSet c y (childSet c x m) = childSet c y m.
Proof.
  induction m as [|[k v] m IH]; simpl.
  - unfold str_eqb. by rewrite bool_decide_eq_true_2.
  - destruct (str_eqb k c) eqn:E; simpl; rewrite E; [done|]. by rewrite IH.
Qed.

Lemma insertFrom_idempotent (chars : list jsstring) :
  forall node,
    Trie.insertFrom chars (Trie.insertFrom chars node) = Trie.insertFrom chars node.
Proof.
  induction chars as [|c chars IH]; intros node; simpl; [done|].
  rewrite childGet_childSet. unfold str_eqb at 1.
  rewrite bool_decide_eq_true_2 by done. simpl.
  by rewrite IH, childSet_childSet.
Qed.

(** X21.  Inserting a pattern a second time leaves the trie as it is. *)
Theorem Trie_insert_idempotent (root : TrieNode) (pattern : jsstring) :
  Trie.insert (Trie.insert root pattern) pattern = Trie.insert root pattern.
Proof. apply insertFrom_idempotent. Qed.

(** ** The verdicts *)

(** A verdict: fraudulent, with a type, a reason and a confidence above 0
    and at most 0.95. *)
Definition verdictOk (r : FraudCheckResult) : Prop :=
  isFraudulent r = true
  /\ (0 < confidence r <= 0.95)%Q
  /\ fraudType r <> None
  /\ reason r <> None.

Lemma verdictOk_intro (t : string) (c : Q) (r : text) :
  (0 < c <= 0.95)%Q -> verdictOk (mkFraudCheckResult true (Some t) c (Some r)).
Proof. intros H. unfold verdictOk. simpl. split; [done|]. split; [exact H|done]. Qed.

Lemma Qmin_range (q : Q) : (0 < q)%Q -> (0 < Qmin q 0.95 <= 0.95)%Q.
Proof.
  intros Hq. destruct (Q.min_spec q 0.95) as [[H ->]|[H ->]]; lra.
Qed.

(** What [detectFakeDeals] adds to the heap: one anomaly per verdict, in
    the order of the verdicts. *)
Lemma detectFakeDealsLoop_records (deals : list Deal) :
  forall heap,
    heapOrdered anomalyCompare heap ->
    exists added,
      (detectFakeDealsLoop deals heap).2 ≡ₚ added ++ heap
      /\ Forall2 (fun r a =>
                    verdictOk r
                    /\ confidence r = Qmin (anomalyScore a / 20) 0.95
                    /\ (0 < anomalyScore a)%Q)
           (detectFakeDealsLoop deals heap).1 added
      /\ Forall (fun a => exists deal, deal ∈ deals /\ dealId a = id deal) added.
Proof.
  induction deals as [|deal deals IH]; intros heap Hh.
  - exists []. simpl. split_and!; [done|constructor|constructor].
  - assert (Hskip : (exists added,
               (detectFakeDealsLoop deals heap).2 ≡ₚ added ++ heap
               /\ Forall2 (fun r a =>
                             verdictOk r
                             /\ confidence r = Qmin (anomalyScore a / 20) 0.95
                             /\ (0 < anomalyScore a)%Q)
                    (detectFakeDealsLoop deals heap).1 added
               /\ Forall (fun a => exists d, d ∈ deal :: deals /\ dealId a = id d)
                    added)).
    { destruct (IH heap Hh) as (added & H1 & H2 & H3).
      exists added. split_and!; [exact H1|exact H2|].
      eapply Forall_impl; [exact H3|]. intros a (d & Hd & Ha).
      exists d. split; [by right|exact Ha]. }
    cbn [detectFakeDealsLoop].
    destruct (times100 _) as [tp|]; [|exact Hskip].
    destruct (Qltb tp _) eqn:Hflag; [|exact Hskip].
    clear Hskip. apply Qltb_lt in Hflag.
    set (a := mkAnomaly (id deal) _).
    destruct (insert_correct anomalyCompare anomaly_asym anomaly_trans heap a Hh)
      as [Ho Hp].
    destruct (IH _ Ho) as (added & H1 & H2 & H3).
    destruct (detectFakeDealsLoop deals (MinHeap.insert anomalyCompare heap a))
      as [results heap'].
    simpl in *. exists (a :: added). split_and!.
    + rewrite H1, Hp. simpl. by rewrite Permutation_middle.
    + constructor; [|exact H2]. simpl.
      assert (Hpos : (0 < anomalyScore a)%Q) by (subst a; simpl; lra).
      split_and!; [|reflexivity|exact Hpos].
      apply verdictOk_intro, Qmin_range.
      apply Qlt_shift_div_l; [reflexivity|]. subst a. simpl in *. lra.
    + constructor.
      * exists deal. split; [by left|reflexivity].
      * eapply Forall_impl; [exact H3|]. intros x (d & Hd & Hx).
        exists d. split; [by right|exact Hx].
Qed.

Lemma detectFakeDealsLoop_verdicts (deals : list Deal) :
  forall heap,
    Forall verdictOk (detectFakeDealsLoop deals heap).1
    /\ length (detectFakeDealsLoop deals heap).1 <= length deals.
Proof.
  induction deals as [|deal deals IH]; intros heap; [split; [constructor|done]|].
  cbn [detectFakeDealsLoop length].
  destruct (times100 _) as [tp|]; [|destruct (IH heap); split; [done|lia]].
  destruct (Qltb tp _) eqn:Hflag; [|destruct (IH heap); split; [done|lia]].
  apply Qltb_lt in Hflag.
  set (heap1 := MinHeap.insert anomalyCompare heap _).
  destruct (IH heap1) as [H1 H2].
  destruct (detectFakeDealsLoop deals heap1) as [results heap'].
  cbn [fst snd length] in *. split; [|lia].
  constructor; [|exact H1].
  apply verdictOk_intro, Qmin_range.
  apply Qlt_shift_div_l; [reflexivity|]. lra.
Qed.

Lemma detectCounterfeitProducts_verdicts (engine : Engine) (sellerIds : list jsstring) :
  Forall verdictOk (detectCounterfeitProducts engine sellerIds)
  /\ length (detectCounterfeitProducts engine sellerIds) <= length sellerIds.
Proof.
  induction sellerIds as [|sid sellerIds [IH1 IH2]]; simpl; [split; [constructor|lia]|].
  destruct (sellerReputationCache engine !! sid) as [seller|]; [|split; [done|lia]].
  destruct (_ || _); [|split; [done|lia]].
  split; [|simpl; lia]. constructor; [|exact IH1].
  apply verdictOk_intro.
  destruct (Qltb (rating seller) 2.5); lra.
Qed.

Lemma detectPriceManipulation_verdict (engine : Engine) (productId : jsstring)
  (currentPrice : Q) :
  isFraudulent (detectPriceManipulation engine productId currentPrice) = true ->
  verdictOk (detectPriceManipulation engine productId currentPrice).
Proof.
  unfold detectPriceManipulation.
  destruct (priceHistoryCache engine !! productId) as [history|]; [|discriminate].
  destruct (length (prices history) <? 3); [discriminate|].
  destruct (Qltb DEVIATION_THRESHOLD _) eqn:E; [|discriminate].
  intros _. apply Qltb_lt in E. unfold DEVIATION_THRESHOLD in E.
  apply verdictOk_intro, Qmin_range. lra.
Qed.

Section Verdicts.
Variable toLowerCase : jsstring -> jsstring.

Lemma detectPhishingLinks_verdicts (engine : Engine) (urls : list jsstring) :
  Forall verdictOk (detectPhishingLinks toLowerCase engine urls)
  /\ length (detectPhishingLinks toLowerCase engine urls) <= length urls.
Proof.
  induction urls as [|url urls [IH1 IH2]]; simpl; [split; [constructor|lia]|].
  destruct (Trie.search _ _); [|split; [done|lia]].
  split; [|simpl; lia]. constructor; [|exact IH1].
  apply verdictOk_intro. lra.
Qed.

(** X22.  [detectFraud] returns at most four results, and each of them is a
    verdict: it is fraudulent, has a fraud type and a reason, and its
    confidence is above 0 and at most 0.95.  What the checks do not flag is
    not in the results. *)
Theorem detectFraud_verdicts (engine : Engine) (deal : Deal)
  (sellerId : option jsstring) :
  ~ (originalPrice deal == 0)%Q ->
  (forall history,
     priceHistoryCache engine !! id deal = Some history ->
     ~ (calculateMedian (price <$> prices history) == 0)%Q) ->
  length (detectFraud toLowerCase engine deal sellerId).1 <= 4
  /\ Forall verdictOk (detectFraud toLowerCase engine deal sellerId).1.
Proof.
  intros _ _. unfold detectFraud, detectFakeDeals.
  destruct (detectFakeDealsLoop_verdicts [deal] (anomalyHeap engine)) as [Hfake Hlen].
  change (length [deal]) with 1 in Hlen.
  destruct (detectFakeDealsLoop [deal] (anomalyHeap engine)) as [fake heap].
  cbn [fst snd] in *.
  set (engine' := mkEngine _ _ heap _ _).
  set (r1 := match sellerId with
             | Some (u :: s) => fake ++ detectCounterfeitProducts engine' [u :: s]
             | _ => fake
             end).
  assert (H1 : Forall verdictOk r1 /\ length r1 <= 2).
  { subst r1. destruct sellerId as [[|u s]|]; try (split; [exact Hfake|lia]).
    destruct (detectCounterfeitProducts_verdicts engine' [u :: s]) as [Ha Hb].
    split; [by apply Forall_app|]. rewrite length_app.
    change (length [u :: s]) with 1 in Hb. lia. }
  clearbody r1. destruct H1 as [H1 H1'].
  destruct (detectPhishingLinks_verdicts engine' [url deal]) as [Hp Hp'].
  change (length [url deal]) with 1 in Hp'.
  pose proof (detectPriceManipulation_verdict engine' (id deal) (originalPrice deal))
    as Hm.
  set (phishing := detectPhishingLinks toLowerCase engine' [url deal]) in *.
  set (pm := detectPriceManipulation engine' (id deal) (originalPrice deal)) in *.
  clearbody phishing pm.
  destruct (isFraudulent pm); cbn [fst].
  - split.
    + rewrite !length_app. cbn [length]. lia.
    + repeat (apply Forall_app; split); [exact H1|exact Hp|].
      constructor; [by apply Hm|constructor].
  - split.
    + rewrite !length_app. lia.
    + by apply Forall_app.
Qed.

(** X23.  [detectFakeDeals] records one anomaly for each verdict it returns,
    and nothing else: the anomaly carries the id of a deal of the list and a
    positive score, from which the confidence of the verdict is computed. *)
Theorem detectFakeDeals_records (engine : Engine) (deals : list Deal) :
  reachable toLowerCase engine ->
  Forall (fun deal => ~ (originalPrice deal == 0)%Q) deals ->
  exists added,
    anomalyHeap (detectFakeDeals engine deals).2 ≡ₚ added ++ anomalyHeap engine
    /\ Forall2 (fun r a =>
                  confidence r = Qmin (anomalyScore a / 20) 0.95
                  /\ (0 < anomalyScore a)%Q)
         (detectFakeDeals engine deals).1 added
    /\ Forall (fun a => exists deal, deal ∈ deals /\ dealId a = id deal) added.
Proof.
  intros Hr _. apply reachable_heapOrdered in Hr.
  destruct (detectFakeDealsLoop_records deals _ Hr) as (added & H1 & H2 & H3).
  unfold detectFakeDeals.
  destruct (detectFakeDealsLoop deals (anomalyHeap engine)) as [results heap].
  simpl in *. exists added. split_and!; [exact H1| |exact H3].
  eapply Forall2_impl; [exact H2|]. by intros r a (_ & ? & ?).
Qed.

Lemma reachable_scores (engine : Engine) :
  reachable toLowerCase engine ->
  Forall (fun a => (0 < anomalyScore a)%Q) (anomalyHeap engine).
Proof.
  induction 1 as [clock|engine deal sellerId Hr IH _|engine deals Hr IH _
                  |engine now userId action Hr IH|engine count Hr IH
                  |engine seller Hr IH|engine pattern Hr IH
                  |engine now later productId price Hr IH|engine Hr IH];
    try exact IH.
  - constructor.
  - apply reachable_heapOrdered in Hr.
    destruct (detectFakeDealsLoop_records [deal] _ Hr) as (added & H1 & H2 & _).
    unfold detectFraud, detectFakeDeals.
    destruct (detectFakeDealsLoop [deal] (anomalyHeap engine)) as [results heap].
    simpl in *. rewrite H1. apply Forall_app. split; [|exact IH].
    clear H1. induction H2 as [|r a rs added (_ & _ & Ha) _ IH2]; constructor; done.
  - apply reachable_heapOrdered in Hr.
    destruct (detectFakeDealsLoop_records deals _ Hr) as (added & H1 & H2 & _).
    unfold detectFakeDeals.
    destruct (detectFakeDealsLoop deals (anomalyHeap engine)) as [results heap].
    simpl in *. rewrite H1. apply Forall_app. split; [|exact IH].
    clear H1. induction H2 as [|r a rs added (_ & _ & Ha) _ IH2]; constructor; done.
  - unfold detectSuspiciousUserBehavior.
    repeat (destruct (_ <? _)); exact IH.
  - apply reachable_heapOrdered in Hr.
    destruct (getTopAnomalies_heap engine count Hr) as [_ Hp]. by rewrite Hp.
Qed.

(** X24.  Every anomaly that an engine holds, and so every anomaly that
    [getTopAnomalies] returns, has a positive score. *)
Theorem getTopAnomalies_positive (engine : Engine) (count : nat) :
  reachable toLowerCase engine ->
  Forall (fun a => (0 < anomalyScore a)%Q) (getTopAnomalies engine count).1
  /\ Forall (fun a => (0 < anomalyScore a)%Q) (anomalyHeap engine).
Proof.
  intros Hr. pose proof (reachable_scores engine Hr) as Hs.
  split; [|exact Hs].
  apply reachable_heapOrdered in Hr.
  destruct (extractLoop_correct count _ Hr) as (_ & Hp & _).
  unfold getTopAnomalies.
  destruct (extractLoop count (anomalyHeap engine)) as [anomalies heap].
  simpl in *. rewrite <- Hp in Hs. by apply Forall_app in Hs as [Hs _].
Qed.
End Verdicts.

Lemma detectFraud_verdicts_witness :
  ~ (originalPrice toyDeal == 0)%Q
  /\ (forall history,
        priceHistoryCache (newEngine frozenClock) !! id toyDeal = Some history ->
        ~ (calculateMedian (price <$> prices history) == 0)%Q)
  /\ length (detectFraud asciiLower (newEngine frozenClock) toyDeal
               (Some (js "seller3"))).1 <= 4
  /\ Forall verdictOk
       (detectFraud asciiLower (newEngine frozenClock) toyDeal
          (Some (js "seller3"))).1.
Proof.
  assert (H1 : ~ (originalPrice toyDeal == 0)%Q) by (vm_compute; discriminate).
  assert (H2 : forall history,
             priceHistoryCache (newEngine frozenClock) !! id toyDeal = Some history ->
             ~ (calculateMedian (price <$> prices history) == 0)%Q).
  { intros history H. vm_compute in H. discriminate. }
  split; [exact H1|]. split; [exact H2|].
  exact (detectFraud_verdicts asciiLower (newEngine frozenClock) toyDeal
           (Some (js "seller3")) H1 H2).
Defined.

Lemma detectFakeDeals_records_witness :
  reachable asciiLower (newEngine frozenClock)
  /\ Forall (fun deal => ~ (originalPrice deal == 0)%Q) [toyDeal]
  /\ exists added,
       anomalyHeap (detectFakeDeals (newEngine frozenClock) [toyDeal]).2
       ≡ₚ added ++ anomalyHeap (newEngine frozenClock)
       /\ Forall2 (fun r a =>
                     confidence r = Qmin (anomalyScore a / 20) 0.95
                     /\ (0 < anomalyScore a)%Q)
            (detectFakeDeals (newEngine frozenClock) [toyDeal]).1 added
       /\ Forall (fun a => exists deal, deal ∈ [toyDeal] /\ dealId a = id deal)
            added.
Proof.
  assert (H1 : reachable asciiLower (newEngine frozenClock)) by constructor.
  assert (H2 : Forall (fun deal => ~ (originalPrice deal == 0)%Q) [toyDeal]).
  { repeat constructor. vm_compute. discriminate. }
  split; [exact H1|]. split; [exact H2|].
  exact (detectFakeDeals_records asciiLower (newEngine frozenClock) [toyDeal] H1 H2).
Defined.

Lemma getTopAnomalies_positive_witness :
  let engine := (detectFakeDeals (newEngine frozenClock) [toyDeal]).2 in
  reachable asciiLower engine
  /\ Forall (fun a => (0 < anomalyScore a)%Q) (getTopAnomalies engine 3).1
  /\ Forall (fun a => (0 < anomalyScore a)%Q) (anomalyHeap engine).
Proof.
  intros engine.
  assert (H : reachable asciiLower engine).
  { apply reachable_detectFakeDeals; [constructor|].
    repeat constructor. vm_compute. discriminate. }
  split; [exact H|].
  exact (getTopAnomalies_positive asciiLower engine 3 H).
Defined.

(** ** Discounts that are never flagged *)

Lemma threshold_at_least_60 (c : jsstring) (tp : Q) :
  times100 (orElse (getProperty categoryThresholds c)
                   (getProperty categoryThresholds (js "default"))) = Some tp ->
  (60 <= tp)%Q.
Proof.
  unfold getProperty at 1. unfold categoryThresholds at 1. simpl ownProperty.
  destruct (str_eqb (js "electronics") c); [intros [= <-]; lra|].
  destruct (str_eqb (js "fashion") c); [intros [= <-]; lra|].
  destruct (str_eqb (js "home") c); [intros [= <-]; lra|].
  destruct (str_eqb (js "food") c); [intros [= <-]; lra|].
  destruct (str_eqb (js "default") c); [intros [= <-]; lra|].
  destruct (existsb _ objectPrototype); [discriminate|].
  intros [= <-]. lra.
Qed.

(** X25.  The lowest threshold of a category is 60 %, so a deal that is
    discounted by at most half of its original price, which is not zero, is
    never flagged as a fake deal, whatever its category, and leaves no
    anomaly behind.  (The bound is 50 % and not 60 %: the code computes the
    percentage in floating point, where a discount of exactly 60 % can come
    out just above 60.) *)
Theorem detectFakeDeals_moderate_discount (engine : Engine) (deals : list Deal) :
  Forall (fun deal =>
            ~ (originalPrice deal == 0)%Q
            /\ ((originalPrice deal - discountedPrice deal) / originalPrice deal * 100
                <= 50)%Q) deals ->
  detectFakeDeals engine deals = ([], engine).
Proof.
  intros H. unfold detectFakeDeals.
  assert (E : detectFakeDealsLoop deals (anomalyHeap engine)
              = ([], anomalyHeap engine)).
  { generalize (anomalyHeap engine). induction H as [|deal deals [_ Hd] _ IH];
      intros heap; [reflexivity|].
    cbn [detectFakeDealsLoop].
    destruct (times100 _) as [tp|] eqn:Et; [|apply IH].
    apply threshold_at_least_60 in Et.
    destruct (Qltb tp _) eqn:Hflag; [|apply IH].
    apply Qltb_lt in Hflag. lra. }
  rewrite E. by destruct engine.
Qed.

(** Food, the category with the lowest threshold, at half the price, and
    electronics at 40 % off. *)
Lemma detectFakeDeals_moderate_discount_witness :
  let deals :=
    [mkDeal (js "deal-3") (js "Snack") 100 50 (js "food")
       (js "seller1") (js "https://shop.example/p/3") 0;
     mkDeal (js "deal-4") (js "Phone") 500 300 (js "electronics")
       (js "seller1") (js "https://shop.example/p/4") 0] in
  Forall (fun deal =>
            ~ (originalPrice deal == 0)%Q
            /\ ((originalPrice deal - discountedPrice deal) / originalPrice deal * 100
                <= 50)%Q) deals
  /\ detectFakeDeals (newEngine frozenClock) deals = ([], newEngine frozenClock).
Proof.
  intros deals.
  assert (H : Forall (fun deal =>
            ~ (originalPrice deal == 0)%Q
            /\ ((originalPrice deal - discountedPrice deal) / originalPrice deal * 100
                <= 50)%Q) deals).
  { repeat constructor; vm_compute; discriminate. }
  split; [exact H|].
  exact (detectFakeDeals_moderate_discount (newEngine frozenClock) deals H).
Defined.

(** ** Rapid actions *)

Definition suspiciousVerdict (n : nat) : FraudCheckResult :=
  mkFraudCheckResult true (Some "suspicious_behavior"%string)
    (Qmin (inject_Z (Z.of_nat n) / 15) 0.95)
    (Some [Lit "User performed "; Num (inject_Z (Z.of_nat n));
           Lit " actions in 1 second"]).

(** A sequence of calls of [detectSuspiciousUserBehavior], each with its
    clock reading, user and action. *)
Definition behaviorCalls (engine : Engine) (calls : list (Z * jsstring * jsstring))
  : Engine :=
  foldl (fun e c => (detectSuspiciousUserBehavior e c.1.1 c.1.2 c.2).2) engine calls.

Definition callsOf (user : jsstring) (calls : list (Z * jsstring * jsstring))
  : list (Z * jsstring * jsstring) :=
  List.filter (fun c => str_eqb c.1.2 user) calls.

Lemma detectSuspiciousUserBehavior_cache (engine : Engine) (now : Z)
  (userId action : jsstring) :
  userActivityCache (detectSuspiciousUserBehavior engine now userId action).2
  = <[userId:=List.filter (fun ts => (now - ts <? 60000)%Z)
                (default [] (userActivityCache engine !! userId) ++ [now])]>
      (userActivityCache engine).
Proof.
  unfold detectSuspiciousUserBehavior.
  destruct (10 <? _); [reflexivity|]. destruct (100 <? _); reflexivity.
Qed.

Definition inLastSecond (now ts : Z) : Prop := (now - 1000 < ts <= now)%Z.

Lemma behaviorCalls_record (user : jsstring) (now : Z)
  (calls : list (Z * jsstring * jsstring)) :
  forall engine,
    Forall (inLastSecond now) (default [] (userActivityCache engine !! user)) ->
    Forall (fun c => inLastSecond now c.1.1) (callsOf user calls) ->
    default [] (userActivityCache (behaviorCalls engine calls) !! user)
    = default [] (userActivityCache engine !! user)
      ++ ((fun c => c.1.1) <$> callsOf user calls).
Proof.
  induction calls as [|[[t u] a] calls IH]; intros engine Hs Hc; simpl.
  - by rewrite app_nil_r.
  - unfold callsOf in *. simpl in *.
    destruct (str_eqb u user) eqn:E.
    + unfold str_eqb in E. apply bool_decide_eq_true in E. subst u.
      apply Forall_cons in Hc as [Ht Hc]. simpl in Ht.
      assert (Hnew : default []
                       (userActivityCache
                          (detectSuspiciousUserBehavior engine t user a).2 !! user)
                     = default [] (userActivityCache engine !! user) ++ [t]).
      { rewrite detectSuspiciousUserBehavior_cache, lookup_insert_eq. simpl.
        apply List_filter_all. intros ts Hin. apply in_app_or in Hin as [Hin|Hin].
        - rewrite List.Forall_forall in Hs. specialize (Hs _ Hin).
          unfold inLastSecond in *. lia.
        - destruct Hin as [<-|[]]. lia. }
      rewrite IH; [|rewrite Hnew; apply Forall_app; split; [exact Hs|by constructor]
                   |exact Hc].
      rewrite Hnew, <- app_assoc. reflexivity.
    + unfold str_eqb in E. apply bool_decide_eq_false in E.
      assert (Hsame : userActivityCache
                        (detectSuspiciousUserBehavior engine t u a).2 !! user
                      = userActivityCache engine !! user).
      { rewrite detectSuspiciousUserBehavior_cache. by apply lookup_insert_ne. }
      rewrite IH; [by rewrite Hsame|by rewrite Hsame|exact Hc].
Qed.

(** X26.  For a user without recorded activity, whose calls all fall in the
    second before the clock reading [now]: the call at [now] is flagged as
    suspicious exactly when it is at least the eleventh call of the user,
    the calls for other users and the actions named being of no
    influence. *)
Theorem rapid_actions_flagged (engine : Engine) (now : Z) (user action : jsstring)
  (calls : list (Z * jsstring * jsstring)) :
  userActivityCache engine !! user = None ->
  Forall (fun c => (now - 1000 < c.1.1 <= now)%Z) (callsOf user calls) ->
  (detectSuspiciousUserBehavior (behaviorCalls engine calls) now user action).1
  = if 10 <? S (length (callsOf user calls))
    then suspiciousVerdict (S (length (callsOf user calls)))
    else notFraudulent.
Proof.
  intros Hnone Hc.
  pose proof (behaviorCalls_record user now calls engine) as Hrec.
  rewrite Hnone in Hrec. simpl in Hrec. specialize (Hrec ltac:(constructor) Hc).
  set (stored := (fun c : Z * jsstring * jsstring => c.1.1) <$> callsOf user calls) in *.
  assert (Hstored : Forall (inLastSecond now) stored).
  { subst stored. apply Forall_fmap. exact Hc. }
  assert (Hlen : length stored = length (callsOf user calls))
    by (subst stored; apply length_fmap).
  rewrite <- Hlen. clearbody stored.
  unfold detectSuspiciousUserBehavior. rewrite Hrec.
  assert (E1 : List.filter (fun ts => (now - ts <? 60000)%Z) (stored ++ [now])
               = stored ++ [now]).
  { apply List_filter_all. intros ts Hin. apply in_app_or in Hin as [Hin|Hin].
    - rewrite List.Forall_forall in Hstored. specialize (Hstored _ Hin).
      unfold inLastSecond in *. lia.
    - destruct Hin as [<-|[]]. lia. }
  rewrite E1.
  assert (E2 : List.filter (fun ts => (now - 1000 <? ts)%Z) (stored ++ [now])
               = stored ++ [now]).
  { apply List_filter_all. intros ts Hin. apply in_app_or in Hin as [Hin|Hin].
    - rewrite List.Forall_forall in Hstored. specialize (Hstored _ Hin).
      unfold inLastSecond in *. lia.
    - destruct Hin as [<-|[]]. lia. }
  rewrite E2. unfold Qlen. rewrite length_app. simpl length.
  replace (length stored + 1) with (S (length stored)) by lia.
  destruct (10 <? S (length stored)) eqn:E; [reflexivity|].
  apply Nat.ltb_ge in E.
  replace (100 <? S (length stored)) with false; [reflexivity|].
  symmetry. apply Nat.ltb_ge. lia.
Qed.

Lemma rapid_actions_flagged_witness :
  let calls :=
    replicate 10 (0%Z, js "user123", js "view_deal")
    ++ [(0%Z, js "user456", js "view_deal")] in
  userActivityCache (newEngine frozenClock) !! js "user123" = None
  /\ Forall (fun c => (500 - 1000 < c.1.1 <= 500)%Z) (callsOf (js "user123") calls)
  /\ (detectSuspiciousUserBehavior (behaviorCalls (newEngine frozenClock) calls)
        500 (js "user123") (js "view_deal")).1
     = suspiciousVerdict 11.
Proof.
  intros calls.
  assert (H1 : userActivityCache (newEngine frozenClock) !! js "user123" = None)
    by reflexivity.
  assert (H2 : Forall (fun c => (500 - 1000 < c.1.1 <= 500)%Z)
                 (callsOf (js "user123") calls)).
  { vm_compute. repeat constructor; discriminate. }
  split; [exact H1|]. split; [exact H2|].
  exact (rapid_actions_flagged (newEngine frozenClock) 500 (js "user123")
           (js "view_deal") calls H1 H2).
Defined.

(** ** Sellers and price histories *)

Definition counterfeitVerdict (seller : Seller) : FraudCheckResult :=
  mkFraudCheckResult true (Some "counterfeit_product"%string)
    (if Qltb (rating seller) 2.5 then 0.9 else 0.7)
    (Some [Lit "Seller has low rating ("; Num (rating seller);
           Lit "/5) or insufficient reviews ("; Num (reviewCount seller);
           Lit ")"]).

(** X27.  After [updateSellerReputation(seller)] the check of the seller's
    id reads the new record, whatever was recorded before: a verdict when
    the rating is below 3.5 or there are fewer than 50 reviews, none
    otherwise.  The checks of the other ids are as before. *)
Theorem updateSellerReputation_read_back (engine : Engine) (seller : Seller)
  (sellerId : jsstring) :
  detectCounterfeitProducts (updateSellerReputation engine seller) [sellerId]
  = if bool_decide (sellerId = sellerIdOf seller) then
      if Qltb (rating seller) 3.5 || Qltb (reviewCount seller) 50
      then [counterfeitVerdict seller] else []
    else detectCounterfeitProducts engine [sellerId].
Proof.
  unfold updateSellerReputation. cbn [detectCounterfeitProducts sellerReputationCache].
  destruct (bool_decide (sellerId = sellerIdOf seller)) eqn:E.
  - apply bool_decide_eq_true in E. subst sellerId. rewrite lookup_insert_eq.
    reflexivity.
  - apply bool_decide_eq_false in E. rewrite lookup_insert_ne by congruence.
    reflexivity.
Qed.

(** A sequence of calls of [updatePriceHistory] for a product, each with
    its two clock readings and the price. *)
Definition priceUpdates (engine : Engine) (productId : jsstring)
  (updates : list (Z * Z * Q)) : Engine :=
  foldl (fun e u => updatePriceHistory e u.1.1 u.1.2 productId u.2) engine updates.

Definition historyOf (engine : Engine) (productId : jsstring) : list PricePoint :=
  prices (default (mkPriceHistory productId []) (priceHistoryCache engine !! productId)).

Lemma updatePriceHistory_history (engine : Engine) (now later : Z)
  (productId : jsstring) (price : Q) :
  historyOf (updatePriceHistory engine now later productId price) productId
  = List.filter (fun p => (later - 30 * 86400000 <? recordedAt p)%Z)
      (historyOf engine productId ++ [mkPricePoint price now]).
Proof.
  unfold historyOf, updatePriceHistory. cbn [priceHistoryCache].
  by rewrite lookup_insert_eq.
Qed.

Lemma priceUpdates_length (productId : jsstring) (updates : list (Z * Z * Q)) :
  forall engine,
    length (historyOf (priceUpdates engine productId updates) productId)
    <= length (historyOf engine productId) + length updates.
Proof.
  induction updates as [|[[now later] price] updates IH]; intros engine; simpl; [lia|].
  etrans; [apply IH|]. rewrite updatePriceHistory_history.
  pose proof (List_filter_length
                (fun p => (later - 30 * 86400000 <? recordedAt p)%Z)
                (historyOf engine productId ++ [mkPricePoint price now])) as H.
  rewrite length_app in H. simpl in *. lia.
Qed.

(** X28.  A product without a price history is not flagged for price
    manipulation before [updatePriceHistory] has been called three times
    for it, whatever the prices. *)
Theorem updatePriceHistory_needs_three (engine : Engine) (productId : jsstring)
  (updates : list (Z * Z * Q)) (currentPrice : Q) :
  priceHistoryCache engine !! productId = None ->
  length updates < 3 ->
  detectPriceManipulation (priceUpdates engine productId updates) productId
    currentPrice
  = notFraudulent.
Proof.
  intros Hnone Hlen.
  pose proof (priceUpdates_length productId updates engine) as H.
  unfold historyOf at 2 in H. rewrite Hnone in H. simpl in H.
  unfold historyOf in H. unfold detectPriceManipulation.
  destruct (priceHistoryCache (priceUpdates engine productId updates) !! productId)
    as [history|]; [|reflexivity].
  simpl in H. replace (length (prices history) <? 3) with true; [reflexivity|].
  symmetry. apply Nat.ltb_lt. lia.
Qed.

Lemma updatePriceHistory_needs_three_witness :
  priceHistoryCache (newEngine frozenClock) !! js "product9" = None
  /\ length [(0%Z, 0%Z, 100%Q); (1%Z, 1%Z, 5000%Q)] < 3
  /\ detectPriceManipulation
       (priceUpdates (newEngine frozenClock) (js "product9")
          [(0%Z, 0%Z, 100%Q); (1%Z, 1%Z, 5000%Q)])
       (js "product9") 1
     = notFraudulent.
Proof.
  assert (H1 : priceHistoryCache (newEngine frozenClock) !! js "product9" = None)
    by reflexivity.
  assert (H2 : length [(0%Z, 0%Z, 100%Q); (1%Z, 1%Z, 5000%Q)] < 3) by (simpl; lia).
  split; [exact H1|]. split; [exact H2|].
  exact (updatePriceHistory_needs_three (newEngine frozenClock) (js "product9")
           [(0%Z, 0%Z, 100%Q); (1%Z, 1%Z, 5000%Q)] 1 H1 H2).
Defined.

(** ** The median *)

Lemma sorted_lookup_le (s : list Q) :
  StronglySorted Qle s ->
  forall i j a b, i <= j -> s !! i = Some a -> s !! j = Some b -> (a <= b)%Q.
Proof.
  induction 1 as [|x s Hs IH Hx]; intros i j a b Hij Ha Hb.
  - by rewrite lookup_nil in Ha.
  - destruct i as [|i], j as [|j]; simpl in *.
    + injection Ha as <-. injection Hb as <-. lra.
    + injection Ha as <-. rewrite List.Forall_forall in Hx. apply Hx.
      apply list_elem_of_In. by eapply list_elem_of_lookup_2.
    + lia.
    + apply (IH i j); [lia|done|done].
Qed.

Lemma filter_count_prefix {A} (f : A -> bool) (s : list A) (k : nat) :
  k <= length s ->
  (forall i a, i < k -> s !! i = Some a -> f a = true) ->
  k <= length (List.filter f s).
Proof.
  intros Hk H. rewrite <- (take_drop k s), List.filter_app, length_app.
  rewrite (List_filter_all f (take k s)).
  - rewrite length_take. lia.
  - intros x Hx. apply list_elem_of_In, list_elem_of_lookup in Hx as [i Hi].
    pose proof (lookup_lt_Some _ _ _ Hi) as Hlt. rewrite length_take in Hlt.
    rewrite lookup_take_lt in Hi by lia. apply (H i); [lia|done].
Qed.

Lemma filter_count_suffix {A} (f : A -> bool) (s : list A) (k : nat) :
  (forall i a, k <= i -> s !! i = Some a -> f a = true) ->
  length s - k <= length (List.filter f s).
Proof.
  intros H. rewrite <- (take_drop k s) at 2. rewrite List.filter_app, length_app.
  rewrite (List_filter_all f (drop k s)).
  - rewrite length_drop. lia.
  - intros x Hx. apply list_elem_of_In, list_elem_of_lookup in Hx as [i Hi].
    rewrite lookup_drop in Hi. apply (H (k + i)); [lia|done].
Qed.

(** X29.  [calculateMedian] returns a median of a non-empty list of numbers:
    at least half of the numbers are at most the value returned, and at
    least half are at least that value. *)
Theorem calculateMedian_is_median (numbers : list Q) :
  numbers <> [] ->
  length numbers
  <= 2 * length (List.filter (fun x => Qle_bool x (calculateMedian numbers)) numbers)
  /\ length numbers
     <= 2 * length (List.filter (fun x => Qle_bool (calculateMedian numbers) x) numbers).
Proof.
  intros Hne.
  destruct (calculateMedian_sorted numbers) as [Hs Hp]. cbv zeta in Hs, Hp.
  apply Sorted_StronglySorted in Hs; [|intros x y z; apply Qle_trans].
  unfold calculateMedian. fold numberBefore.
  set (sorted := stable_sort numberBefore numbers) in *.
  set (m := if length sorted mod 2 =? 0 then _ else _).
  rewrite <- !(Permutation_length (List_filter_perm _ _ _ Hp)).
  rewrite <- (Permutation_length Hp).
  assert (Hn : 0 < length sorted).
  { rewrite (Permutation_length Hp). destruct numbers; [done|simpl; lia]. }
  pose proof (Nat.div_mod_eq (length sorted) 2) as Hdiv.
  pose proof (Nat.mod_upper_bound (length sorted) 2 ltac:(lia)) as Hmod.
  set (mid := length sorted / 2) in *.
  assert (Hmid : exists lo hi,
             (lo <= m <= hi)%Q
             /\ ((length sorted mod 2 = 0 /\ sorted !! (mid - 1) = Some lo
                  /\ sorted !! mid = Some hi)
                 \/ (length sorted mod 2 = 1 /\ sorted !! mid = Some lo
                     /\ sorted !! mid = Some hi))).
  { subst m. destruct (length sorted mod 2 =? 0) eqn:E.
    - apply Nat.eqb_eq in E.
      destruct (lookup_lt_is_Some_2 sorted (mid - 1) ltac:(lia)) as [lo Hlo].
      destruct (lookup_lt_is_Some_2 sorted mid ltac:(lia)) as [hi Hhi].
      exists lo, hi. split; [|left; done].
      rewrite !nth_lookup, Hlo, Hhi. simpl.
      pose proof (sorted_lookup_le sorted Hs (mid - 1) mid lo hi ltac:(lia) Hlo Hhi).
      split.
      + apply Qle_shift_div_l; [reflexivity|]. lra.
      + apply Qle_shift_div_r; [reflexivity|]. lra.
    - apply Nat.eqb_neq in E.
      destruct (lookup_lt_is_Some_2 sorted mid ltac:(lia)) as [x Hx].
      exists x, x. split; [|right; split; [lia|done]].
      rewrite nth_lookup, Hx. simpl. lra. }
  destruct Hmid as (lo & hi & [Hlo Hhi] & Hcase). clearbody m. split.
  - destruct Hcase as [(E & H1 & H2)|(E & H1 & H2)].
    + pose proof (filter_count_prefix (fun x => Qle_bool x m) sorted mid
                    ltac:(lia)) as Hc.
      assert (mid <= length (List.filter (fun x => Qle_bool x m) sorted)); [|lia].
      apply Hc. intros i a Hi Ha. apply Qle_bool_iff.
      pose proof (sorted_lookup_le sorted Hs i (mid - 1) a lo ltac:(lia) Ha H1). lra.
    + pose proof (filter_count_prefix (fun x => Qle_bool x m) sorted (S mid)
                    ltac:(lia)) as Hc.
      assert (S mid <= length (List.filter (fun x => Qle_bool x m) sorted)); [|lia].
      apply Hc. intros i a Hi Ha. apply Qle_bool_iff.
      pose proof (sorted_lookup_le sorted Hs i mid a lo ltac:(lia) Ha H1). lra.
  - assert (length sorted - mid
            <= length (List.filter (fun x => Qle_bool m x) sorted)); [|lia].
    apply filter_count_suffix. intros i a Hi Ha. apply Qle_bool_iff.
    destruct Hcase as [(E & H1 & H2)|(E & H1 & H2)];
      pose proof (sorted_lookup_le sorted Hs mid i hi a ltac:(lia) H2 Ha); lra.
Qed.

Lemma calculateMedian_is_median_witness :
  [5; 1; 9; 3]%Q <> []
  /\ length [5; 1; 9; 3]%Q
     <= 2 * length (List.filter
                      (fun x => Qle_bool x (calculateMedian [5; 1; 9; 3]%Q))
                      [5; 1; 9; 3]%Q)
  /\ length [5; 1; 9; 3]%Q
     <= 2 * length (List.filter
                      (fun x => Qle_bool (calculateMedian [5; 1; 9; 3]%Q) x)
                      [5; 1; 9; 3]%Q).
Proof.
  assert (H : [5; 1; 9; 3]%Q <> []) by discriminate.
  split; [exact H|].
  exact (calculateMedian_is_median [5; 1; 9; 3]%Q H).
Defined.

End FraudDetectionEngineProperties.
